(** * Border-midpoint solver of the four-colour map activities

    A shallow embedding of the path-geometry utilities of
    [precompute-usa-midpoints.js] (parsePath, computeTotalLength,
    pointAtLength, computeBBox, computeBorderMidpointFromPaths) and of the
    runtime estimator and its cache in the shared colouring engine
    (computeBorderMidpoint, getBorderMidpoint).

    JavaScript numbers are IEEE-754 doubles.  The embedding is written once,
    over an interface [Arith] of the arithmetic the source uses, and read at
    two instances: [F64], primitive binary64 floats (the program as it runs),
    and [XR], the same special values (NaN, the two infinities) around exact
    real arithmetic (the program without rounding).

    Around the solver, the embedding covers what the build script does
    with geometry and text (polygonInBounds, ringToPath, geometryToPath,
    stitchRings, the de-duplication of the adjacency list), the rest of
    the engine (renderPalette, selectColor, selectEraser,
    drawConflictMarkers) and the state of a page (paintRegion,
    updateCounter, checkCompletion, saveState, loadState, startOver,
    clampViewBox). *)

From Stdlib Require Import ZArith Zpower List String Ascii Floats Reals Lra Lia.
From stdpp Require Import gmap strings pretty.
Import ListNotations.

Set Implicit Arguments.

(** ** The arithmetic interface *)

Record Arith : Type := mkArith {
  num : Type;
  add : num -> num -> num;
  sub : num -> num -> num;
  mul : num -> num -> num;
  div : num -> num -> num;
  sqrt : num -> num;                   (* Math.sqrt *)
  ltb : num -> num -> bool;            (* a < b;  a > b is [ltb b a] *)
  leb : num -> num -> bool;            (* a <= b; a >= b is [leb b a] *)
  eqb : num -> num -> bool;            (* a === b on numbers *)
  of_Z : Z -> num;                     (* an integer literal or counter *)
  pinf : num;                          (* Infinity *)
  ninf : num;                          (* -Infinity *)
  nan : num;                           (* NaN, also ToNumber(undefined) *)
  of_decimal : bool -> N -> Z -> num   (* sign, digits, decimal exponent *)
}.

(** Outcome of a call: a value, or the TypeError raised by reading a
    property of [null] or [undefined]. *)
Inductive result (T : Type) : Type :=
| Ok (v : T)
| TypeError.
Arguments TypeError {T}.

#[global] Instance result_bind : MBind result :=
  fun T U (k : T -> result U) (r : result T) =>
    match r with
    | Ok v => k v
    | TypeError => TypeError
    end.

(** Monadic left fold: a [for] loop whose body may throw. *)
Fixpoint foldM {S T : Type} (body : S -> T -> result S) (l : list T) (s : S)
  : result S :=
  match l with
  | [] => Ok s
  | i :: l' => s' ← body s i; foldM body l' s'
  end.

(** Reading a property of [o]: a TypeError when [o] is [null] or
    [undefined]. *)
Definition deref {T : Type} (o : option T) : result T :=
  match o with
  | Some p => Ok p
  | None => TypeError
  end.

(** The loop counters [0 .. n] inclusive. *)
Definition upto (n : nat) : list Z := map Z.of_nat (seq 0 (S n)).

Section Geometry.

Variable A : Arith.

Notation "a +. b" := (add A a b) (at level 50, left associativity).
Notation "a -. b" := (sub A a b) (at level 50, left associativity).
Notation "a *. b" := (mul A a b) (at level 40, left associativity).
Notation "a /. b" := (div A a b) (at level 40, left associativity).
Notation "# z" := (of_Z A z) (at level 9, z at level 9, format "# z").

(** A coordinate read out of an object or an array slot: [nums[k]] past the
    end of [nums] is [undefined]. *)
Inductive value : Type :=
| VUndefined
| VNumber (n : num A).

Definition ToNumber (v : value) : num A :=
  match v with
  | VUndefined => nan A
  | VNumber n => n
  end.

(** [v !== w] on coordinates. *)
Definition strictNe (v w : value) : bool :=
  match v, w with
  | VUndefined, VUndefined => false
  | VNumber a, VNumber b => negb (eqb A a b)
  | _, _ => true
  end.

Record Point : Type := mkPoint { px : value; py : value }.

(** The object literal [{ x: a, y: b }] of two computed numbers. *)
Definition pt (a b : num A) : Point := mkPoint (VNumber a) (VNumber b).

Definition X (p : Point) : num A := ToNumber (px p).
Definition Y (p : Point) : num A := ToNumber (py p).

Definition Ring : Type := list Point.
Definition Shape : Type := list Ring.

(** *** computeTotalLength *)

Definition segLength (p q : Point) : num A :=
  let dx := X q -. X p in
  let dy := Y q -. Y p in
  sqrt A (dx *. dx +. dy *. dy).

(** The inner loop [for (i = 1; i < seg.length; i++)], with [seg[i-1]]
    carried along. *)
Fixpoint ringLength (total : num A) (prev : Point) (rest : list Point) : num A :=
  match rest with
  | [] => total
  | q :: rest' => ringLength (total +. segLength prev q) q rest'
  end.

Definition addRing (total : num A) (seg : Ring) : num A :=
  match seg with
  | [] => total
  | p :: rest => ringLength total p rest
  end.

Definition computeTotalLength (segments : Shape) : num A :=
  fold_left addRing segments #0.

(** *** pointAtLength *)

Definition interpolate (targetLen acc : num A) (p q : Point) : Point :=
  let dx := X q -. X p in
  let dy := Y q -. Y p in
  let segLen := sqrt A (dx *. dx +. dy *. dy) in
  let t := if ltb A #0 segLen then (targetLen -. acc) /. segLen else #0 in
  pt (X p +. t *. dx) (Y p +. t *. dy).

(** One ring of the walk: [inl p] is the early [return], [inr acc] the
    accumulated length when the ring is exhausted. *)
Fixpoint ringWalk (targetLen acc : num A) (prev : Point) (rest : list Point)
  : Point + num A :=
  match rest with
  | [] => inr acc
  | q :: rest' =>
      if leb A targetLen (acc +. segLength prev q)
      then inl (interpolate targetLen acc prev q)
      else ringWalk targetLen (acc +. segLength prev q) q rest'
  end.

Definition walkRing (targetLen acc : num A) (seg : Ring) : Point + num A :=
  match seg with
  | [] => inr acc
  | p :: rest => ringWalk targetLen acc p rest
  end.

Fixpoint shapeWalk (targetLen acc : num A) (segments : Shape) : Point + num A :=
  match segments with
  | [] => inr acc
  | seg :: more =>
      match walkRing targetLen acc seg with
      | inl p => inl p
      | inr acc' => shapeWalk targetLen acc' more
      end
  end.

(** [None] is [undefined]: what [lastSeg[lastSeg.length - 1]] reads from an
    empty ring, at index -1.  On an empty shape [lastSeg] itself is
    [undefined] and reading its [length] throws. *)
Definition pointAtLength (segments : Shape) (totalLen targetLen : num A)
  : result (option Point) :=
  match shapeWalk targetLen #0 segments with
  | inl p => Ok (Some p)
  | inr _ =>
      match last segments with
      | None => TypeError
      | Some lastSeg => Ok (last lastSeg)
      end
  end.

(** *** computeBBox *)

Record BBox : Type := mkBBox {
  bx : num A; by_ : num A; width : num A; height : num A
}.

(** [if (c < m) m = c]; a comparison with [undefined] is false. *)
Definition lower (c : value) (m : num A) : num A :=
  match c with
  | VNumber a => if ltb A a m then a else m
  | VUndefined => m
  end.

(** [if (c > m) m = c]. *)
Definition raise (c : value) (m : num A) : num A :=
  match c with
  | VNumber a => if ltb A m a then a else m
  | VUndefined => m
  end.

Definition bboxPoint (b : num A * num A * num A * num A) (p : Point)
  : num A * num A * num A * num A :=
  let '(minX, minY, maxX, maxY) := b in
  (lower (px p) minX, lower (py p) minY, raise (px p) maxX, raise (py p) maxY).

Definition bboxExtent (segments : Shape) : num A * num A * num A * num A :=
  fold_left (fun b seg => fold_left bboxPoint seg b) segments
            (pinf A, pinf A, ninf A, ninf A).

Definition computeBBox (segments : Shape) : BBox :=
  let '(minX, minY, maxX, maxY) := bboxExtent segments in
  mkBBox minX minY (maxX -. minX) (maxY -. minY).

(** *** computeBorderMidpointFromPaths *)

Definition N_offline : nat := 200.
Definition threshold_offline : Z := 5.

Definition sqDist (p q : Point) : num A :=
  let dx := X p -. X q in
  let dy := Y p -. Y q in
  dx *. dx +. dy *. dy.

(** Body of the inner loop over [j]: the state is [(bestDist, bestPt)]. *)
Definition nearestStep (segmentsB : Shape) (lenB : num A) (n : nat)
    (ptA : option Point) (st : num A * option Point) (j : Z)
  : result (num A * option Point) :=
  ptB ← pointAtLength segmentsB lenB (lenB *. #j /. #(Z.of_nat n));
  a ← deref ptA;
  b ← deref ptB;
  let dist := sqDist a b in
  if ltb A dist (fst st) then Ok (dist, Some b) else Ok st.

Definition nearest (segmentsB : Shape) (lenB : num A) (n : nat)
    (ptA : option Point) : result (num A * option Point) :=
  foldM (nearestStep segmentsB lenB n ptA) (upto n) (pinf A, None).

Definition midpoint (p q : Point) : Point :=
  pt ((X p +. X q) /. #2) ((Y p +. Y q) /. #2).

(** Body of the outer loop over [i]: the state is [borderPoints]. *)
Definition borderStep (segmentsA segmentsB : Shape) (lenA lenB : num A)
    (n : nat) (thr : Z) (borderPoints : list Point) (i : Z)
  : result (list Point) :=
  ptA ← pointAtLength segmentsA lenA (lenA *. #i /. #(Z.of_nat n));
  best ← nearest segmentsB lenB n ptA;
  if ltb A (fst best) (#thr *. #thr)
  then a ← deref ptA;
       b ← deref (snd best);
       Ok (borderPoints ++ [midpoint a b])
  else Ok borderPoints.

Definition borderPoints (segmentsA segmentsB : Shape) : result (list Point) :=
  let lenA := computeTotalLength segmentsA in
  let lenB := computeTotalLength segmentsB in
  foldM (borderStep segmentsA segmentsB lenA lenB N_offline threshold_offline)
        (upto N_offline) [].

(** The two candidates [borderPoints[i-1]], [borderPoints[i]] continue a
    run. *)
Definition near (prev cur : Point) : bool :=
  let dx := X cur -. X prev in
  let dy := Y cur -. Y prev in
  ltb A (dx *. dx +. dy *. dy) (#40 *. #40).

Record RunState : Type := mkRun {
  bestStart : nat; bestLen : nat; curStart : nat; curLen : nat
}.

Definition runStep (prev cur : Point) (i : nat) (s : RunState) : RunState :=
  let '(cs, cl) := if near prev cur then (curStart s, S (curLen s)) else (i, 1) in
  if Nat.ltb (bestLen s) cl
  then mkRun cs cl cs cl
  else mkRun (bestStart s) (bestLen s) cs cl.

(** The loop [for (i = 1; i < borderPoints.length; i++)] from index [i] on,
    with [borderPoints[i-1]] carried along. *)
Fixpoint runLoop (prev : Point) (rest : list Point) (i : nat) (s : RunState)
  : RunState :=
  match rest with
  | [] => s
  | cur :: rest' => runLoop cur rest' (S i) (runStep prev cur i s)
  end.

Definition longestRun (bp : list Point) : RunState :=
  match bp with
  | [] => mkRun 0 1 0 1
  | p :: rest => runLoop p rest 1 (mkRun 0 1 0 1)
  end.

Definition bboxFallback (segmentsA segmentsB : Shape) : Point :=
  let bA := computeBBox segmentsA in
  let bB := computeBBox segmentsB in
  pt ((bx bA +. width bA /. #2 +. bx bB +. width bB /. #2) /. #2)
     ((by_ bA +. height bA /. #2 +. by_ bB +. height bB /. #2) /. #2).

Definition middleOfRun (bp : list Point) : option Point :=
  let s := longestRun bp in
  bp !! (bestStart s + bestLen s / 2)%nat.

Definition computeBorderMidpointFromPaths (segmentsA segmentsB : Shape)
  : result (option Point) :=
  bp ← borderPoints segmentsA segmentsB;
  match bp with
  | [] => Ok (Some (bboxFallback segmentsA segmentsB))
  | _ :: _ => Ok (middleOfRun bp)
  end.

End Geometry.

Arguments VUndefined {A}.
Arguments VNumber {A} n.
Arguments mkBBox {A} bx by_ width height.

(** ** parsePath *)

Inductive Command : Type := CmdM | CmdL | CmdC | CmdZ.

(** The class [[MLCZ]] under the [i] flag, with [toUpperCase] applied. *)
Definition commandOf (c : ascii) : option Command :=
  match c with
  | "M" | "m" => Some CmdM
  | "L" | "l" => Some CmdL
  | "C" | "c" => Some CmdC
  | "Z" | "z" => Some CmdZ
  | _ => None
  end%char.

(** [\s] on code units below 256: tab, line feed, vertical tab, form feed,
    carriage return, space and no-break space. *)
Definition isSpace (c : ascii) : bool :=
  let n := N_of_ascii c in
  ((9 <=? n) && (n <=? 13) || (n =? 32) || (n =? 160))%N.

Definition isDigit (c : ascii) : bool :=
  let n := N_of_ascii c in ((48 <=? n) && (n <=? 57))%N.

(** The class [[-\d.,eE\s]]. *)
Definition isOperandChar (c : ascii) : bool :=
  match c with
  | "-" | "." | "," | "e" | "E" => true
  | _ => isDigit c || isSpace c
  end%char.

Fixpoint dropWhile (f : ascii -> bool) (s : string) : string :=
  match s with
  | String c s' => if f c then dropWhile f s' else s
  | EmptyString => EmptyString
  end.

Fixpoint takeWhile (f : ascii -> bool) (s : string) : string :=
  match s with
  | String c s' => if f c then String c (takeWhile f s') else EmptyString
  | EmptyString => EmptyString
  end.

(** Group 2 of a match whose command letter has just been read: [\s*] takes
    the leading white space, the group the longest run of the class. *)
Definition operandText (s : string) : string :=
  takeWhile isOperandChar (dropWhile isSpace s).

(** The matches of the global, case-insensitive pattern: a letter of
    [[MLCZ]], white space, then the longest run of [[-\d.,eE\s]].  No character
    of the operand class is a command letter, so the search that resumes at
    [lastIndex] meets the same next letter as the one that resumes right
    behind the previous letter: every command letter of [d] opens a match. *)
Fixpoint matches (d : string) : list (Command * string) :=
  match d with
  | EmptyString => []
  | String c d' =>
      match commandOf c with
      | Some cmd => (cmd, operandText d') :: matches d'
      | None => matches d'
      end
  end.

Fixpoint revString (s acc : string) : string :=
  match s with
  | EmptyString => acc
  | String c s' => revString s' (String c acc)
  end.

Definition trim (s : string) : string :=
  revString (dropWhile isSpace (revString (dropWhile isSpace s) "")) "".

Definition isSeparator (c : ascii) : bool :=
  isSpace c || Ascii.eqb c ","%char.

(** [split(/[\s,]+/)]: [cur] is the piece being read, [sep] tells that the
    previous character belonged to a separator. *)
Fixpoint splitLoop (s cur : string) (sep : bool) : list string :=
  match s with
  | EmptyString => [cur]
  | String c s' =>
      if isSeparator c
      then if sep then splitLoop s' cur true else cur :: splitLoop s' "" true
      else splitLoop s' (cur +:+ String c "") false
  end.

Definition split (s : string) : list string := splitLoop s "" false.

(** The digits at the head of [s]: their value on top of [acc], how many
    there were, and the rest of the string. *)
Fixpoint readDigits (s : string) (acc : N) (count : nat) : N * nat * string :=
  match s with
  | String c s' =>
      if isDigit c
      then readDigits s' (10 * acc + (N_of_ascii c - 48))%N (S count)
      else (acc, count, s)
  | EmptyString => (acc, count, s)
  end.

Definition readSign (s : string) : bool * string :=
  match s with
  | String "-"%char s' => (true, s')
  | String "+"%char s' => (false, s')
  | _ => (false, s)
  end.

(** A decimal literal as sign, digits and decimal exponent: an optional
    sign; digits with an optional point and fraction, or a point and a
    fraction; an optional exponent of [e] or [E], an optional sign and
    digits. *)
Definition readDecimal (s : string) : option (bool * N * Z) :=
  let '(neg, s1) := readSign s in
  let '(m1, n1, s2) := readDigits s1 0%N 0 in
  let '(m, n2, s3) :=
    match s2 with
    | String "."%char s2' => readDigits s2' m1 0
    | _ => (m1, 0, s2)
    end in
  if (n1 + n2 =? 0)%nat then None else
  match s3 with
  | EmptyString => Some (neg, m, (- Z.of_nat n2)%Z)
  | String c s4 =>
      if Ascii.eqb c "e"%char || Ascii.eqb c "E"%char then
        let '(eneg, s5) := readSign s4 in
        let '(e, ne, s6) := readDigits s5 0%N 0 in
        match ne, s6 with
        | S _, EmptyString =>
            Some (neg, m, ((if eneg then - Z.of_N e else Z.of_N e) - Z.of_nat n2)%Z)
        | _, _ => None
        end
      else None
  end.

Section Parser.

Variable A : Arith.

Notation "a +. b" := (add A a b) (at level 50, left associativity).
Notation "a -. b" := (sub A a b) (at level 50, left associativity).
Notation "a *. b" := (mul A a b) (at level 40, left associativity).
Notation "a /. b" := (div A a b) (at level 40, left associativity).
Notation "# z" := (of_Z A z) (at level 9, z at level 9, format "# z").

(** [Number(tok)] for a piece of operand text: the empty string is 0, a
    decimal literal its value, anything else NaN. *)
Definition Number (tok : string) : num A :=
  match tok with
  | EmptyString => #0
  | _ =>
      match readDecimal tok with
      | Some (neg, m, e) => of_decimal A neg m e
      | None => nan A
      end
  end.

(** The operand text trimmed, split and mapped through [Number]; the empty
    list when nothing is left after trimming. *)
Definition operands (text : string) : list (num A) :=
  match trim text with
  | EmptyString => []
  | t => map Number (split t)
  end.

Definition commands (d : string) : list (Command * list (num A)) :=
  map (fun m => (fst m, operands (snd m))) (matches d).

(** [nums[k]] *)
Definition at_ (nums : list (num A)) (k : nat) : value A :=
  match nums !! k with
  | Some n => VNumber n
  | None => VUndefined
  end.

Record ParseState : Type := mkState {
  segments : Shape A;
  current : Ring A;
  startPt : option (Point A);
  curPt : option (Point A)
}.

Definition initial : ParseState := mkState [] [] None None.

(** [if (current.length > 0) segments.push(current)] *)
Definition flush (segs : Shape A) (cur : Ring A) : Shape A :=
  match cur with
  | [] => segs
  | _ :: _ => segs ++ [cur]
  end.

Definition bezierCoord (p0 p1 p2 p3 : num A) (t : Z) : num A :=
  let s := #t /. #10 in
  let u := #1 -. s in
  u *. u *. u *. p0 +. #3 *. u *. u *. s *. p1
    +. #3 *. u *. s *. s *. p2 +. s *. s *. s *. p3.

Definition bezierPoint (p0 p1 p2 p3 : Point A) (t : Z) : Point A :=
  pt A (bezierCoord (X p0) (X p1) (X p2) (X p3) t)
       (bezierCoord (Y p0) (Y p1) (Y p2) (Y p3) t).

(** The sample parameters [t = 1 .. 10] of the linearisation. *)
Definition bezierSteps : list Z := map Z.of_nat (seq 1 10).

(** The ring closed by [Z]: the start point is pushed when the last point
    differs from it. *)
Definition closeRing (cur : Ring A) (start : option (Point A)) : Ring A :=
  match start, last cur with
  | Some s, Some l =>
      if strictNe (px l) (px s) || strictNe (py l) (py s)
      then cur ++ [s] else cur
  | _, _ => cur
  end.

Definition parseStep (st : ParseState) (c : Command * list (num A))
  : result ParseState :=
  let nums := snd c in
  match fst c with
  | CmdM =>
      let p := mkPoint (at_ nums 0) (at_ nums 1) in
      Ok (mkState (flush (segments st) (current st)) [p] (Some p) (Some p))
  | CmdL =>
      let p := mkPoint (at_ nums 0) (at_ nums 1) in
      Ok (mkState (segments st) (current st ++ [p]) (startPt st) (Some p))
  | CmdC =>
      let p1 := mkPoint (at_ nums 0) (at_ nums 1) in
      let p2 := mkPoint (at_ nums 2) (at_ nums 3) in
      let p3 := mkPoint (at_ nums 4) (at_ nums 5) in
      p0 ← deref (curPt st);
      Ok (mkState (segments st)
                  (current st ++ map (bezierPoint p0 p1 p2 p3) bezierSteps)
                  (startPt st) (Some p3))
  | CmdZ =>
      let closed := closeRing (current st) (startPt st) in
      Ok (mkState (flush (segments st) closed) [] (startPt st) (curPt st))
  end.

Definition parsePath (d : string) : result (Shape A) :=
  st ← foldM parseStep (commands d) initial;
  Ok (flush (segments st) (current st)).

End Parser.

(** ** The runtime estimator and its cache *)

Definition N_runtime : nat := 60.
Definition threshold_runtime : Z := 4.

Section Runtime.

Variable A : Arith.

Notation "a +. b" := (add A a b) (at level 50, left associativity).
Notation "a -. b" := (sub A a b) (at level 50, left associativity).
Notation "a *. b" := (mul A a b) (at level 40, left associativity).
Notation "a /. b" := (div A a b) (at level 40, left associativity).
Notation "# z" := (of_Z A z) (at level 9, z at level 9, format "# z").

(** A rendered [path] element, as far as the estimator uses it: the three
    geometry methods of the browser. *)
Record SVGPath : Type := mkPath {
  getTotalLength : num A;
  getPointAtLength : num A -> Point A;
  getBBox : BBox A
}.

(** [svgEl.querySelectorAll('path[data-index]')]: the paths in document
    order. *)
Definition SVGElement : Type := list SVGPath.

Definition sharedInner (pathB : SVGPath) (lenB : num A) (ptA : Point A)
    (shared : list (Point A)) (j : Z) : list (Point A) :=
  let ptB := getPointAtLength pathB (lenB *. #j /. #(Z.of_nat N_runtime)) in
  if ltb A (sqDist ptA ptB) (#threshold_runtime *. #threshold_runtime)
  then shared ++ [midpoint ptA ptB]
  else shared.

Definition sharedOuter (pathA pathB : SVGPath) (lenA lenB : num A)
    (shared : list (Point A)) (i : Z) : list (Point A) :=
  let ptA := getPointAtLength pathA (lenA *. #i /. #(Z.of_nat N_runtime)) in
  fold_left (sharedInner pathB lenB ptA) (upto N_runtime) shared.

Definition sharedPoints (pathA pathB : SVGPath) : list (Point A) :=
  fold_left (sharedOuter pathA pathB (getTotalLength pathA) (getTotalLength pathB))
            (upto N_runtime) [].

Definition sumX (shared : list (Point A)) : num A :=
  fold_left (fun s p => s +. X p) shared #0.

Definition sumY (shared : list (Point A)) : num A :=
  fold_left (fun s p => s +. Y p) shared #0.

Definition centroidX (shared : list (Point A)) : num A :=
  sumX shared /. #(Z.of_nat (length shared)).

Definition centroidY (shared : list (Point A)) : num A :=
  sumY shared /. #(Z.of_nat (length shared)).

Definition sqDistTo (cx cy : num A) (p : Point A) : num A :=
  let dx := X p -. cx in
  let dy := Y p -. cy in
  dx *. dx +. dy *. dy.

(** Body of the last loop: the state is [(minDist, closest)]. *)
Definition closestStep (cx cy : num A) (st : num A * Point A) (p : Point A)
  : num A * Point A :=
  if ltb A (sqDistTo cx cy p) (fst st) then (sqDistTo cx cy p, p) else st.

Definition closestScan (cx cy : num A) (first : Point A)
    (shared : list (Point A)) : num A * Point A :=
  fold_left (closestStep cx cy) shared (pinf A, first).

Definition pathFallback (pathA pathB : SVGPath) : Point A :=
  let bA := getBBox pathA in
  let bB := getBBox pathB in
  pt A ((bx bA +. width bA /. #2 +. bx bB +. width bB /. #2) /. #2)
       ((by_ bA +. height bA /. #2 +. by_ bB +. height bB /. #2) /. #2).

Definition refine (shared : list (Point A)) (first : Point A) : Point A :=
  let cx := centroidX shared in
  let cy := centroidY shared in
  let '(minDist, closest) := closestScan cx cy first shared in
  if ltb A #15 (sqrt A minDist) then closest else pt A cx cy.

Definition computeBorderMidpoint (svgEl : SVGElement) (a b : N)
  : result (Point A) :=
  pathA ← deref (svgEl !! N.to_nat a);
  pathB ← deref (svgEl !! N.to_nat b);
  match sharedPoints pathA pathB with
  | [] => Ok (pathFallback pathA pathB)
  | first :: rest => Ok (refine (first :: rest) first)
  end.

(** [Math.min(a, b) + '-' + Math.max(a, b)] on region indices. *)
Definition cacheKey (a b : N) : string :=
  pretty (N.min a b) +:+ "-" +:+ pretty (N.max a b).

(** The cache object together with the log of the estimator invocations
    made so far.  The stored values are point objects, hence truthy, so
    [!cache[key]] tests that the key is absent. *)
Record Session : Type := mkSession {
  cache : gmap string (Point A);
  invoked : list (N * N)
}.

Definition getBorderMidpoint (s : Session) (svgEl : SVGElement) (a b : N)
  : result (Point A * Session) :=
  let key := cacheKey a b in
  match cache s !! key with
  | Some p => Ok (p, s)
  | None =>
      p ← computeBorderMidpoint svgEl a b;
      Ok (p, mkSession (<[key := p]> (cache s)) (invoked s ++ [(a, b)]))
  end.

(** A sequence of queries against one cache. *)
Definition queries (svgEl : SVGElement) (s : Session) (pairs : list (N * N))
  : result Session :=
  foldM (fun s ab => r ← getBorderMidpoint s svgEl (fst ab) (snd ab); Ok (snd r))
        pairs s.

End Runtime.

(** ** Binary64 arithmetic *)

Definition f64_of_Z (z : Z) : float :=
  SF2Prim (binary_normalize prec emax z 0 false).

(** The double nearest to [(-1)^neg * m * 10^e]. *)
Definition f64_of_decimal (neg : bool) (m : N) (e : Z) : float :=
  match m with
  | N0 => if neg then (-0)%float else 0%float
  | Npos p =>
      if (0 <=? e)%Z
      then SF2Prim (binary_normalize prec emax
                      ((if neg then Z.neg p else Z.pos p) * 10 ^ e) 0 false)
      else SF2Prim (SFdiv prec emax (S754_finite neg p 0)
                      (S754_finite false (Pos.pow 10 (Z.to_pos (- e))) 0))
  end.

Definition F64 : Arith :=
  mkArith PrimFloat.add PrimFloat.sub PrimFloat.mul PrimFloat.div
          PrimFloat.sqrt PrimFloat.ltb PrimFloat.leb PrimFloat.eqb
          f64_of_Z infinity neg_infinity PrimFloat.nan f64_of_decimal.

(** ** Exact arithmetic with the special values *)

Inductive XReal : Type :=
| XNaN
| XInf (neg : bool)
| XFin (r : R).

Definition Rltb (a b : R) : bool := if Rlt_dec a b then true else false.
Definition Rleb (a b : R) : bool := if Rle_dec a b then true else false.
Definition Reqb (a b : R) : bool := if Req_dec_T a b then true else false.

Definition xadd (a b : XReal) : XReal :=
  match a, b with
  | XFin x, XFin y => XFin (x + y)
  | XNaN, _ | _, XNaN => XNaN
  | XInf s, XInf s' => if Bool.eqb s s' then XInf s else XNaN
  | XInf s, XFin _ | XFin _, XInf s => XInf s
  end.

Definition xopp (a : XReal) : XReal :=
  match a with
  | XNaN => XNaN
  | XInf s => XInf (negb s)
  | XFin x => XFin (- x)
  end.

Definition xsub (a b : XReal) : XReal :=
  match a, b with
  | XFin x, XFin y => XFin (x - y)
  | _, _ => xadd a (xopp b)
  end.

Definition xmul (a b : XReal) : XReal :=
  match a, b with
  | XFin x, XFin y => XFin (x * y)
  | XNaN, _ | _, XNaN => XNaN
  | XInf s, XInf s' => XInf (xorb s s')
  | XInf s, XFin y | XFin y, XInf s =>
      if Reqb y 0 then XNaN else XInf (xorb s (Rltb y 0))
  end.

(** Zero has no sign here: a non-zero number over zero is the infinity of
    the sign of the numerator. *)
Definition xdiv (a b : XReal) : XReal :=
  match a, b with
  | XFin x, XFin y =>
      if Reqb y 0
      then if Reqb x 0 then XNaN else XInf (Rltb x 0)
      else XFin (x / y)
  | XNaN, _ | _, XNaN => XNaN
  | XInf _, XInf _ => XNaN
  | XInf s, XFin y => XInf (xorb s (Rltb y 0))
  | XFin _, XInf _ => XFin 0
  end.

Definition xsqrt (a : XReal) : XReal :=
  match a with
  | XFin x => if Rltb x 0 then XNaN else XFin (R_sqrt.sqrt x)
  | XInf false => XInf false
  | _ => XNaN
  end.

Definition xltb (a b : XReal) : bool :=
  match a, b with
  | XFin x, XFin y => Rltb x y
  | XInf true, XFin _ | XInf true, XInf false | XFin _, XInf false => true
  | _, _ => false
  end.

Definition xleb (a b : XReal) : bool :=
  match a, b with
  | XFin x, XFin y => Rleb x y
  | XInf true, XFin _ | XInf true, XInf _ | XFin _, XInf false
  | XInf false, XInf false => true
  | _, _ => false
  end.

Definition xeqb (a b : XReal) : bool :=
  match a, b with
  | XFin x, XFin y => Reqb x y
  | XInf s, XInf s' => Bool.eqb s s'
  | _, _ => false
  end.

Definition x_of_decimal (neg : bool) (m : N) (e : Z) : XReal :=
  XFin ((if neg then -1 else 1) * IZR (Z.of_N m) * powerRZ 10 e).

Definition XR : Arith :=
  mkArith xadd xsub xmul xdiv xsqrt xltb xleb xeqb
          (fun z => XFin (IZR z)) (XInf false) (XInf true) XNaN x_of_decimal.

(** Points, rings and shapes of finite real coordinates. *)
Definition fin (c : R * R) : Point XR := pt XR (XFin (fst c)) (XFin (snd c)).
Definition finRing (r : list (R * R)) : Ring XR := map fin r.
Definition finShape (s : list (list (R * R))) : Shape XR := map finRing s.

(** ** Properties of an arithmetic *)

(** What the walk relies on when it adds up segment lengths from 0.  A
    value is a number when it equals itself, that is, when it is not NaN. *)
Record Accumulates (A : Arith) : Prop := mkAccumulates {
  acc_zero : leb A (of_Z A 0) (of_Z A 0) = true;
  (* what lies below something is a number *)
  acc_number : forall a t : num A, ltb A a t = true -> eqb A a a = true;
  (* a sum that is a number has a first summand that is one *)
  acc_summand : forall a b : num A,
    eqb A (add A a b) (add A a b) = true -> eqb A a a = true;
  (* adding a square root to a number at or above 0 keeps it there *)
  acc_nonneg : forall a x : num A,
    leb A (of_Z A 0) a = true ->
    eqb A (add A a (sqrt A x)) (add A a (sqrt A x)) = true ->
    leb A (of_Z A 0) (add A a (sqrt A x)) = true;
  (* a partial sum lies below whatever the longer sum lies below *)
  acc_prefix : forall a x t : num A,
    leb A (of_Z A 0) a = true ->
    ltb A (add A a (sqrt A x)) t = true -> ltb A a t = true;
  (* a number below [t] is not at or above [t] *)
  acc_strict : forall a t : num A, ltb A a t = true -> leb A t a = false
}.

(** What the search for a minimum relies on: [<] is a strict order. *)
Record Descends (A : Arith) : Prop := mkDescends {
  desc_irrefl : forall a : num A, ltb A a a = false;
  desc_trans : forall a b c : num A,
    ltb A a b = true -> ltb A b c = true -> ltb A a c = true
}.

(** ** Vocabulary of the statements *)

Section Runs.

Variable A : Arith.

(** Candidates [i] and [i+1] are within the clustering distance. *)
Definition linked (bp : list (Point A)) (i : nat) : Prop :=
  exists p q, bp !! i = Some p /\ bp !! S i = Some q /\ near p q = true.

(** The [len] candidates from index [start] on are a contiguous run. *)
Definition isRun (bp : list (Point A)) (start len : nat) : Prop :=
  1 <= len /\ start + len <= length bp /\
  forall i, start <= i -> S i < start + len -> linked bp i.

(** The loop invariant of the run search when the candidates below index
    [i] have been read. *)
Definition runInv (bp : list (Point A)) (i : nat) (s : RunState) : Prop :=
  curStart s + curLen s = i /\
  isRun bp (curStart s) (curLen s) /\
  (curStart s = 0 \/ ~ linked bp (curStart s - 1)) /\
  isRun bp (bestStart s) (bestLen s) /\
  bestStart s + bestLen s <= i /\
  curLen s <= bestLen s /\
  forall s0 l, isRun bp s0 l -> s0 + l <= i ->
    l <= bestLen s /\ (l = bestLen s -> bestStart s <= s0).

End Runs.

Section Fallback.

Variable A : Arith.

(** The centre of a bounding box. *)
Definition bboxCenter (b : BBox A) : Point A :=
  pt A (add A (bx b) (div A (width b) (of_Z A 2)))
       (add A (by_ b) (div A (height b) (of_Z A 2))).

End Fallback.

(** The unit squares of the gap scenario, as [parsePath] returns them for
    the closed paths through their corners. *)
Definition squareA : Shape F64 :=
  [[pt F64 0 0; pt F64 1 0; pt F64 1 1; pt F64 0 1; pt F64 0 0]]%float.

Definition squareB : Shape F64 :=
  [[pt F64 10 0; pt F64 11 0; pt F64 11 1; pt F64 10 1; pt F64 10 0]]%float.

(** Two squares that share the edge from (1,0) to (1,1). *)
Definition squareC : Shape F64 :=
  [[pt F64 1 0; pt F64 2 0; pt F64 2 1; pt F64 1 1; pt F64 1 0]]%float.

(** The candidates of a pair of shapes, none if the sampling throws. *)
Definition candidates {A : Arith} (sA sB : Shape A) : list (Point A) :=
  match borderPoints sA sB with
  | Ok bp => bp
  | TypeError => []
  end.

(** The canonical keys of a log of estimator invocations. *)
Definition keysOf (log : list (N * N)) : list string :=
  map (fun ab => cacheKey (fst ab) (snd ab)) log.

(** The two pairs are the same unordered pair. *)
Definition samePair (a b : N) (ab : N * N) : bool :=
  (N.eqb (fst ab) a && N.eqb (snd ab) b) || (N.eqb (fst ab) b && N.eqb (snd ab) a).

(** The place of a binary64 value that is not NaN in the order of the
    comparisons: its class (the infinities, the two signs, zero), then
    exponent and mantissa, both negated below zero. *)
Definition rank (x : spec_float) : Z * Z * Z :=
  match x with
  | S754_nan => (0, 0, 0)
  | S754_zero _ => (0, 0, 0)
  | S754_infinity true => (-2, 0, 0)
  | S754_infinity false => (2, 0, 0)
  | S754_finite true m e => (-1, - e, Z.neg m)
  | S754_finite false m e => (1, e, Z.pos m)
  end%Z.

Definition lexlt (a b : Z * Z * Z) : Prop :=
  (fst (fst a) < fst (fst b) \/
   fst (fst a) = fst (fst b) /\
   (snd (fst a) < snd (fst b) \/
    snd (fst a) = snd (fst b) /\ snd a < snd b))%Z.

Definition isNaN (x : spec_float) : Prop := x = S754_nan.

(** Two rendered straight strokes, one unit apart, for the runtime
    estimator: the point at length [l] of the first is [(l, 0)], of the
    second [(l, 1)]. *)
Definition strokeA : SVGPath F64 :=
  mkPath (A := F64) 10%float (fun l => pt F64 l 0%float)
         (mkBBox (A := F64) 0 0 10 0)%float.

Definition strokeB : SVGPath F64 :=
  mkPath (A := F64) 10%float (fun l => pt F64 l 1%float)
         (mkBBox (A := F64) 0 1 10 0)%float.

(** The first command of a path that is not a close: the one that sets the
    current point, or a curve that finds none. *)
Definition firstDrawing (cs : list Command) : option Command :=
  head (List.filter (fun c => match c with CmdZ => false | _ => true end) cs).

(** The cubic Bezier polynomial in Bernstein form. *)
Definition bezierR (c0 c1 c2 c3 t : R) : R :=
  ((1 - t) ^ 3 * c0 + 3 * (1 - t) ^ 2 * t * c1
   + 3 * (1 - t) * t ^ 2 * c2 + t ^ 3 * c3)%R.

Definition bezierAt (P0 P1 P2 P3 : R * R) (t : R) : R * R :=
  (bezierR (fst P0) (fst P1) (fst P2) (fst P3) t,
   bezierR (snd P0) (snd P1) (snd P2) (snd P3) t).

(** The parameters 0.1, 0.2, ..., 1.0. *)
Definition tenths : list R :=
  [1 / 10; 2 / 10; 3 / 10; 4 / 10; 5 / 10; 6 / 10; 7 / 10; 8 / 10; 9 / 10;
   10 / 10]%R.

(** The operand list [x1, y1, x2, y2, x3, y3] of a curve command. *)
Definition curveOperands (P1 P2 P3 : R * R) : list XReal :=
  [XFin (fst P1); XFin (snd P1); XFin (fst P2); XFin (snd P2);
   XFin (fst P3); XFin (snd P3)].

(** No ring of the shape is empty. *)
Definition ringsNonEmpty {A : Arith} (segs : Shape A) : Prop :=
  Forall (fun r : Ring A => r <> []) segs.

(** *** The walk over finite real points *)

Definition distR (p q : R * R) : R :=
  R_sqrt.sqrt ((fst q - fst p) * (fst q - fst p)
               + (snd q - snd p) * (snd q - snd p))%R.

Fixpoint ringLengthR (total : R) (prev : R * R) (rest : list (R * R)) : R :=
  match rest with
  | [] => total
  | q :: rest' => ringLengthR (total + distR prev q) q rest'
  end.

Definition interpolateR (targetLen acc : R) (p q : R * R) : R * R :=
  let t := if Rltb 0 (distR p q) then ((targetLen - acc) / distR p q)%R else 0%R in
  (fst p + t * (fst q - fst p), snd p + t * (snd q - snd p))%R.

(** A ring that contributes no segment. *)
Definition short {T : Type} (r : list T) : Prop := length r < 2.

(** The [i]-th of the [n+1] uniform samples of a shape, as both loops of
    the offline estimator take it. *)
Definition sample {A : Arith} (s : Shape A) (n : nat) (i : Z)
  : result (option (Point A)) :=
  pointAtLength s (computeTotalLength s)
    (div A (mul A (computeTotalLength s) (of_Z A i)) (of_Z A (Z.of_nat n))).

(** Every sample of the shape is a point. *)
Definition sampled {A : Arith} (s : Shape A) (n : nat) : Prop :=
  forall i, In i (upto n) -> exists p, sample s n i = Ok (Some p).

(** Two parallel strokes one unit apart, the second half as long as the
    first. *)
Definition strokeLong : Shape F64 := [[pt F64 0 0; pt F64 200 0]]%float.
Definition strokeHalf : Shape F64 := [[pt F64 0 1; pt F64 100 1]]%float.

(** A fresh cache, and the cache after the pair of the two strokes has
    been queried. *)
Definition freshSession : Session F64 := mkSession ∅ [].

Definition strokesSession : Session F64 :=
  mkSession (<[cacheKey 0 1 := pt F64 5 0.5]> ∅)%float [(0%N, 1%N)].

(** A binary64 value at or above zero: a zero of either sign, a positive
    finite number or the positive infinity. *)
Definition nonnegSF (x : spec_float) : Prop :=
  match x with
  | S754_zero _ | S754_infinity false | S754_finite false _ _ => True
  | _ => False
  end.

(** A curve from (0,0) with control points (0,1), (1,1) to (1,0), for
    which the Bezier polynomial is [(3 t^2 - 2 t^3, 3 t (1 - t))]: its
    values at 0.1, ..., 1.0 in thousandths. *)
Definition curveText : string := "M0,0C0,1 1,1 1,0".

Definition curveValues : list (Z * Z) :=
  [(28, 270); (104, 480); (216, 630); (352, 720); (500, 750);
   (648, 720); (784, 630); (896, 480); (972, 270); (1000, 0)]%Z.

(** The two binary64 numbers differ by less than 1e-9. *)
Definition closeTo (a b : float) : bool :=
  PrimFloat.ltb (abs (a - b)) (1 / 1000000000)%float.

Definition nearThousandths (p : Point F64) (v : Z * Z) : bool :=
  closeTo (X p) (f64_of_Z (fst v) / 1000)%float
  && closeTo (Y p) (f64_of_Z (snd v) / 1000)%float.

(** What [parsePath] returns for the curve in binary64: one ring, of the
    start point and ten points within 1e-9 of the values. *)
Definition curveWithinTolerance : bool :=
  match parsePath F64 curveText with
  | Ok [start :: samples] =>
      Nat.eqb (length samples) 10
      && forallb (fun pv => nearThousandths (fst pv) (snd pv))
                 (combine samples curveValues)
  | _ => false
  end.

(** ** polygonInBounds *)

Section Bounds.

Variable A : Arith.

(** The crop rectangle [{ lonMin, lonMax, latMin, latMax }]. *)
Record Bounds : Type := mkBounds {
  lonMin : num A; lonMax : num A; latMin : num A; latMax : num A
}.

(** A GeoJSON position is the array [[lon, lat]]; a ring an array of
    positions. *)
Definition Position : Type := list (num A).
Definition GeoRing : Type := list Position.

(** Body of the loop over the positions of the outer ring: the state is
    [(polyMinLon, polyMaxLon, polyMinLat, polyMaxLat)]. *)
Definition extentStep (e : num A * num A * num A * num A) (coord : Position)
  : num A * num A * num A * num A :=
  let '(polyMinLon, polyMaxLon, polyMinLat, polyMaxLat) := e in
  (lower (at_ A coord 0) polyMinLon, raise (at_ A coord 0) polyMaxLon,
   lower (at_ A coord 1) polyMinLat, raise (at_ A coord 1) polyMaxLat).

Definition polygonExtent (outerRing : GeoRing)
  : num A * num A * num A * num A :=
  fold_left extentStep outerRing (pinf A, ninf A, pinf A, ninf A).

Definition polygonInBounds (outerRing : GeoRing) (bounds : Bounds) : bool :=
  let '(polyMinLon, polyMaxLon, polyMinLat, polyMaxLat) :=
    polygonExtent outerRing in
  leb A (lonMin bounds) polyMaxLon && leb A polyMinLon (lonMax bounds)
  && leb A (latMin bounds) polyMaxLat && leb A polyMinLat (latMax bounds).

End Bounds.

Arguments mkBounds {A} lonMin lonMax latMin latMax.

(** What the search for the extremes relies on: on numbers, [<] and [<=]
    are the two faces of one total order, with the infinities at its
    ends.  A value is a number when it equals itself. *)
Record Ordered (A : Arith) : Prop := mkOrdered {
  ord_pinf : eqb A (pinf A) (pinf A) = true;
  ord_ninf : eqb A (ninf A) (ninf A) = true;
  ord_top : forall a : num A, ltb A (pinf A) a = false;
  ord_bottom : forall a : num A, ltb A a (ninf A) = false;
  ord_left : forall a b : num A, leb A a b = true -> eqb A a a = true;
  ord_right : forall a b : num A, leb A a b = true -> eqb A b b = true;
  ord_refl : forall a : num A, eqb A a a = true -> leb A a a = true;
  ord_below : forall a b : num A, ltb A a b = true -> leb A a b = true;
  ord_total : forall a b : num A,
    eqb A a a = true -> eqb A b b = true -> ltb A a b = false ->
    leb A b a = true;
  ord_trans : forall a b c : num A,
    leb A a b = true -> leb A b c = true -> leb A a c = true;
  ord_strict : forall a b : num A, ltb A a b = true -> leb A b a = false
}.

(** A point of the shape. *)
Definition pointOf {A : Arith} (segments : Shape A) (p : Point A) : Prop :=
  exists seg, In seg segments /\ In p seg.

(** [c] is a number that lies between [lo] and [hi]. *)
Definition within {A : Arith} (lo hi : num A) (c : value A) : Prop :=
  match c with
  | VNumber a => leb A lo a = true /\ leb A a hi = true
  | VUndefined => False
  end.

Definition isNumber {A : Arith} (c : value A) : Prop :=
  match c with
  | VNumber a => eqb A a a = true
  | VUndefined => False
  end.

(** The unit square of GeoJSON positions and a crop rectangle around it. *)
Definition unitRing : GeoRing F64 := [[0; 0]; [1; 0]; [1; 1]; [0; 1]; [0; 0]]%float.
Definition cropAround : Bounds F64 := mkBounds (A := F64) (-1)%float 2%float (-1)%float 2%float.

(** The upper-case form of a command letter; every other character is left
    as it is. *)
Definition upperCommand (c : ascii) : ascii :=
  match c with
  | "m" => "M" | "l" => "L" | "c" => "C" | "z" => "Z"
  | _ => c
  end%char.

Fixpoint mapString (f : ascii -> ascii) (s : string) : string :=
  match s with
  | EmptyString => EmptyString
  | String c s' => String (f c) (mapString f s')
  end.

(** The command letters of a path string, in order. *)
Definition letters (d : string) : list Command := map fst (matches d).

(** ** ringToPath and geometryToPath *)

(** [parts.join(sep)] *)
Definition join (sep : string) (parts : list string) : string :=
  String.concat sep parts.

Section PathText.

Variable A : Arith.

(** The text that string concatenation puts for a number. *)
Variable show : num A -> string.

(** The projection, as [createProjection] returns it: from [lon] and [lat]
    to the array [[x, y]]. *)
Variable proj : value A -> value A -> num A * num A.

(** Body of the loop over the positions: the state is the text [d] and the
    index [i]. *)
Definition ringToPathStep (st : string * nat) (coord : Position A)
  : string * nat :=
  let '(x, y) := proj (at_ A coord 0) (at_ A coord 1) in
  (fst st +:+ ((((if Nat.eqb (snd st) 0 then "M" else "L") +:+ show x)
                +:+ ",") +:+ show y),
   S (snd st)).

Definition ringToPath (ring : GeoRing A) : string :=
  fst (fold_left ringToPathStep ring ("", 0)) +:+ "Z".

Inductive Geometry : Type :=
| Polygon (coordinates : list (GeoRing A))
| MultiPolygon (coordinates : list (list (GeoRing A)))
| OtherGeometry.

(** [lonBounds && !polygonInBounds(polygon[0], lonBounds)]: a polygon
    without rings hands [undefined] to the loop of [polygonInBounds], which
    throws. *)
Definition outOfBounds (lonBounds : option (Bounds A))
    (polygon : list (GeoRing A)) : result bool :=
  match lonBounds with
  | None => Ok false
  | Some bounds =>
      outerRing ← deref (polygon !! 0);
      Ok (negb (polygonInBounds outerRing bounds))
  end.

Definition geometryToPath (geometry : Geometry)
    (lonBounds : option (Bounds A)) : result string :=
  match geometry with
  | Polygon coordinates =>
      out ← outOfBounds lonBounds coordinates;
      if (out : bool) then Ok ""
      else Ok (join " " (map ringToPath coordinates))
  | MultiPolygon coordinates =>
      pathParts ← foldM (fun pathParts polygon =>
                           out ← outOfBounds lonBounds polygon;
                           if (out : bool) then Ok pathParts
                           else Ok (pathParts ++ map ringToPath polygon))
                        coordinates [];
      Ok (join " " pathParts)
  | OtherGeometry => Ok ""
  end.

(** The point a position is projected to. *)
Definition project (coord : Position A) : Point A :=
  let '(x, y) := proj (at_ A coord 0) (at_ A coord 1) in pt A x y.

(** What [parsePath] makes of the text of a ring: the projected points,
    closed by the first one. *)
Definition decoded (ring : GeoRing A) : Ring A :=
  closeRing (map project ring) (head (map project ring)).

(** The rings of a geometry. *)
Definition ringsOf (geometry : Geometry) : list (GeoRing A) :=
  match geometry with
  | Polygon coordinates => coordinates
  | MultiPolygon coordinates => concat coordinates
  | OtherGeometry => []
  end.

(** A character of the text of a number: a digit, a sign, a point or an
    exponent mark. *)
Definition isNumberChar (c : ascii) : bool :=
  match c with
  | "-" | "." | "e" | "E" => true
  | _ => isDigit c
  end%char.

Fixpoint allChars (f : ascii -> bool) (s : string) : bool :=
  match s with
  | EmptyString => true
  | String c s' => f c && allChars f s'
  end.

(** The text of [v] is a numeral that [Number] reads back as [v]. *)
Definition readsBack (v : num A) : Prop :=
  show v <> EmptyString /\ allChars isNumberChar (show v) = true /\
  Number A (show v) = v.

Definition ringReadsBack (ring : GeoRing A) : Prop :=
  forall coord, In coord ring ->
    readsBack (fst (proj (at_ A coord 0) (at_ A coord 1))) /\
    readsBack (snd (proj (at_ A coord 0) (at_ A coord 1))).

End PathText.

Arguments OtherGeometry {A}.

Section PathTextVocabulary.

Variable A : Arith.
Variable show : num A -> string.
Variable proj : value A -> value A -> num A * num A.

(** The text of the positions after the first: a line command each. *)
Fixpoint lineText (ring : GeoRing A) : string :=
  match ring with
  | [] => EmptyString
  | coord :: ring' =>
      "L" +:+ show (fst (proj (at_ A coord 0) (at_ A coord 1))) +:+ ","
          +:+ show (snd (proj (at_ A coord 0) (at_ A coord 1)))
          +:+ lineText ring'
  end.

Definition hasPosition (ring : GeoRing A) : bool :=
  match ring with
  | [] => false
  | _ :: _ => true
  end.

End PathTextVocabulary.

(** A geometry of one triangle, its projection by doubling, and the text
    of the numbers that occur. *)
Definition triangle : GeoRing F64 := [[0; 0]; [1; 0]; [1; 1]]%float.

Definition doubling (lon lat : value F64) : float * float :=
  (ToNumber lon * 2, ToNumber lat * 2)%float.

Definition showSmall (v : float) : string :=
  if PrimFloat.eqb v 0 then "0" else if PrimFloat.eqb v 2 then "2" else "NaN".

(** A non-empty text of number characters. *)
Definition numeral_ok (s : string) : Prop :=
  s <> EmptyString /\ allChars isNumberChar s = true.

(** ** stitchRings *)

Section Stitch.

Variable A : Arith.

(** [Math.abs] *)
Variable abs : num A -> num A.

(** [const threshold = 0.001] *)
Definition stitchThreshold : num A := of_decimal A false 1 (-3).

(** The test of the inner loop on [mergeRing[i]] and [mainRing[j]]. *)
Definition coincide (p q : Position A) : bool :=
  ltb A (abs (sub A (ToNumber (at_ A p 0)) (ToNumber (at_ A q 0))))
        stitchThreshold
  && ltb A (abs (sub A (ToNumber (at_ A p 1)) (ToNumber (at_ A q 1))))
           stitchThreshold.

(** The ring without its closing duplicate: the indices below
    [ring.length - 1]. *)
Definition open (ring : GeoRing A) : GeoRing A := take (length ring - 1) ring.

(** The inner loop from index [j] on: the first [j] whose position
    coincides with [p], at which the loop breaks. *)
Fixpoint firstShared (p : Position A) (candidates : GeoRing A) (j : nat)
  : option nat :=
  match candidates with
  | [] => None
  | q :: rest => if coincide p q then Some j else firstShared p rest (S j)
  end.

(** Body of the outer loop over [i]: the state is
    [(mainShared, mergeShared)]. *)
Definition sharedStep (mainRing : GeoRing A) (st : list nat * list nat)
    (ip : nat * Position A) : list nat * list nat :=
  match firstShared (snd ip) (open mainRing) 0 with
  | Some j => (fst st ++ [j], snd st ++ [fst ip])
  | None => st
  end.

Definition sharedIndices (mainRing mergeRing : GeoRing A)
  : list nat * list nat :=
  fold_left (sharedStep mainRing) (imap pair (open mergeRing)) ([], []).

(** [Math.min(...l)] and [Math.max(...l)] on a list of indices that is not
    empty. *)
Definition minIndex (l : list nat) : nat := fold_right Nat.min (hd 0 l) l.
Definition maxIndex (l : list nat) : nat := fold_right Nat.max 0 l.

(** The loop [for (i = from; i !== stop; i = (i + 1) % (ring.length - 1))
    merged.push(ring[i])], with a bound on the number of tests; [None]
    when the bound is used up.  An element of [merged] is a position, or
    [undefined] where the read fell outside the ring. *)
Fixpoint walk (fuel : nat) (ring : GeoRing A) (i stop : nat)
    (merged : list (option (Position A)))
  : option (list (option (Position A))) :=
  match fuel with
  | 0 => None
  | S fuel' =>
      if Nat.eqb i stop then Some merged
      else walk fuel' ring ((i + 1) mod (length ring - 1)) stop
                (merged ++ [ring !! i])
  end.

Inductive Stitch : Type :=
| Unfinished                                  (* the bound was used up *)
| NoStitch                                    (* [return null] *)
| Stitched (merged : list (option (Position A))).

Definition stitchRings (mainRing mergeRing : GeoRing A) : Stitch :=
  let '(mainShared, mergeShared) := sharedIndices mainRing mergeRing in
  if Nat.ltb (length mainShared) 2 then NoStitch else
  let mainStart := minIndex mainShared in
  let mainEnd := maxIndex mainShared in
  let mergeStart := minIndex mergeShared in
  let mergeEnd := maxIndex mergeShared in
  match walk (length mainRing) mainRing mainEnd mainStart [] with
  | None => Unfinished
  | Some merged1 =>
      match walk (length mergeRing) mergeRing mergeEnd mergeStart
                 (merged1 ++ [mainRing !! mainStart]) with
      | None => Unfinished
      | Some merged2 => Stitched (merged2 ++ [mjoin (head merged2)])
      end
  end.

(** The positions of a ring from index [from] up to, not including,
    index [to]. *)
Definition slice (ring : GeoRing A) (from to : nat) : GeoRing A :=
  take (to - from) (drop from ring).

(** The positions of the open ring from [from] on, around its end and on
    to just before [to]; none when [from] is [to]. *)
Definition around (ring : GeoRing A) (from to : nat) : GeoRing A :=
  if Nat.eqb from to then []
  else slice ring from (length ring - 1) ++ slice ring 0 to.

(** The positions of [mergeRing], closing duplicate left out, that
    coincide with a position of [mainRing]. *)
Definition sharedPositions (mainRing mergeRing : GeoRing A) : GeoRing A :=
  List.filter (fun p => existsb (coincide p) (open mainRing)) (open mergeRing).

End Stitch.

Arguments Unfinished {A}.
Arguments NoStitch {A}.

(** Two unit squares side by side as closed rings: the second one once
    from its shared corner (1,0), once from its far corner (2,0). *)
Definition westSquare : GeoRing F64 :=
  [[0; 0]; [1; 0]; [1; 1]; [0; 1]; [0; 0]]%float.
Definition eastSquare : GeoRing F64 :=
  [[2; 0]; [2; 1]; [1; 1]; [1; 0]; [2; 0]]%float.
Definition eastSquareFromShared : GeoRing F64 :=
  [[1; 0]; [2; 0]; [2; 1]; [1; 1]; [1; 0]]%float.

(** ** Conflict markers and the colouring state of a page *)

(** A slot of the array [regionColors]: [null], the index of a colour, or
    a hole, which reads as [undefined]. *)
Inductive Slot : Type :=
| Hole
| Null
| Color (c : N).

#[global] Instance Slot_eq_dec : EqDecision Slot.
Proof. solve_decision. Defined.

(** [regionColors[i]]: [undefined] past the end of the array. *)
Definition readSlot (regionColors : list Slot) (i : N) : Slot :=
  default Hole (regionColors !! N.to_nat i).

(** [regionColors[i] = v]: a write past the end lengthens the array and
    leaves holes. *)
Definition writeSlot (regionColors : list Slot) (i : N) (v : Slot) : list Slot :=
  let k := N.to_nat i in
  if Nat.ltb k (length regionColors) then <[k := v]> regionColors
  else regionColors ++ replicate (k - length regionColors) Hole ++ [v].

(** [c !== null] *)
Definition notNull (c : Slot) : bool :=
  match c with
  | Null => false
  | _ => true
  end.

(** [c === d] *)
Definition sameSlot (c d : Slot) : bool := bool_decide (c = d).

(** The test on an edge in [drawConflictMarkers]. *)
Definition conflicting (regionColors : list Slot) (edge : N * N) : bool :=
  notNull (readSlot regionColors (fst edge))
  && notNull (readSlot regionColors (snd edge))
  && sameSlot (readSlot regionColors (fst edge)) (readSlot regionColors (snd edge)).

Definition conflictEdges (adjacency : list (N * N)) (regionColors : list Slot)
  : list (N * N) :=
  List.filter (conflicting regionColors) adjacency.

Section Markers.

Variable A : Arith.

(** A [line] element: its attributes [x1], [y1], [x2], [y2]. *)
Record Line : Type := mkLine {
  x1 : num A; y1 : num A; x2 : num A; y2 : num A
}.

(** The two strokes of a marker around [mid], with [size = 14]. *)
Definition cross (mid : Point A) : list Line :=
  [mkLine (sub A (X mid) (of_Z A 14)) (sub A (Y mid) (of_Z A 14))
          (add A (X mid) (of_Z A 14)) (add A (Y mid) (of_Z A 14));
   mkLine (add A (X mid) (of_Z A 14)) (sub A (Y mid) (of_Z A 14))
          (sub A (X mid) (of_Z A 14)) (add A (Y mid) (of_Z A 14))].

(** What a call leaves behind: the cache, the group of marker lines in the
    document ([None] when there is none), and whether the call threw. *)
Record Drawn : Type := mkDrawn {
  drawnCache : Session A;
  drawnGroup : option (list Line);
  drawnThrew : bool
}.

(** [conflictEdges.forEach]: the lines are appended to the new group [g];
    an estimator that throws ends the call with the cache as it is. *)
Fixpoint drawCrosses (svgEl : SVGElement A) (edges : list (N * N))
    (s : Session A) (g : list Line) : Session A * list Line * bool :=
  match edges with
  | [] => (s, g, false)
  | edge :: rest =>
      match getBorderMidpoint s svgEl (fst edge) (snd edge) with
      | Ok (mid, s') => drawCrosses svgEl rest s' (g ++ cross mid)
      | TypeError => (s, g, true)
      end
  end.

(** The group that exists is removed first; the new one enters the
    document only at the end of a call that found a conflict and did not
    throw. *)
Definition drawConflictMarkers (svgEl : SVGElement A)
    (adjacency : list (N * N)) (regionColors : list Slot) (s : Session A)
  : Drawn :=
  match conflictEdges adjacency regionColors with
  | [] => mkDrawn s None false
  | edges =>
      let '(s', g, threw) := drawCrosses svgEl edges s [] in
      mkDrawn s' (if threw then None else Some g) threw
  end.

End Markers.

(** ** The page script *)

(** [regionColors.filter(c => c !== null).length]: [filter] passes over
    holes. *)
Definition colored (regionColors : list Slot) : nat :=
  length (List.filter (fun c => match c with Color _ => true | _ => false end)
                      regionColors).

(** [regionColors.every(c => c !== null)]: [every] passes over holes. *)
Definition allColored (regionColors : list Slot) : bool :=
  forallb notNull regionColors.

(** The loop of [checkCompletion] that sets [valid]. *)
Definition validColoring (adjacency : list (N * N)) (regionColors : list Slot)
  : bool :=
  forallb (fun edge => negb (sameSlot (readSlot regionColors (fst edge))
                                      (readSlot regionColors (snd edge))))
          adjacency.

(** The object [save] of [saveState] as [JSON.stringify] writes it: a key
    assigned [undefined] is left out. *)
Definition saveStep (regionColors : list Slot) (save : gmap string N)
    (ic : nat * string) : gmap string N :=
  match readSlot regionColors (N.of_nat (fst ic)) with
  | Null => save
  | Color c => <[snd ic := c]> save
  | Hole => delete (snd ic) save
  end.

Definition savedColors (COUNTRIES : list string) (regionColors : list Slot)
  : gmap string N :=
  fold_left (saveStep regionColors) (imap pair COUNTRIES) ∅.

(** The names that every object answers to through [Object.prototype]:
    read as a key of [saved] they are never [undefined], and an assignment
    to [__proto__] stores nothing.  The objects [save] and [saved] are
    modelled as maps for ids that are none of these names, as the country
    codes of the pages are. *)
Definition prototypeNames : list string :=
  ["constructor"; "hasOwnProperty"; "isPrototypeOf"; "propertyIsEnumerable";
   "toLocaleString"; "toString"; "valueOf"; "__proto__";
   "__defineGetter__"; "__defineSetter__"; "__lookupGetter__";
   "__lookupSetter__"].

Definition plainIds (COUNTRIES : list string) : Prop :=
  forallb (fun id => negb (existsb (String.eqb id) prototypeNames)) COUNTRIES
  = true.

(** [paletteState] *)
Record Palette : Type := mkPalette {
  selectedColorIndex : N;
  selectedEraser : bool
}.

Section Page.

Variable A : Arith.

(** The constants of a page: the ids of [COUNTRIES], the index pairs of
    [adjacency], and the path elements that [initMap] has put in the
    document. *)
Variable COUNTRIES : list string.
Variable adjacency : list (N * N).
Variable svgEl : SVGElement A.

(** The variables of the page script that its logic reads back, with
    what it keeps in the document (the marker group, the text of the
    counter) and in [localStorage] (the stored colours as the object they
    denote, and whether the completion item is ['true']).  The fill
    attributes, the status text and the view box are written only. *)
Record Page : Type := mkPage {
  regionColors : list Slot;
  solved : bool;
  paletteState : Palette;
  borderMidpointCache : Session A;
  conflictMarkers : option (list (Line A));
  coloredCount : nat;
  storedColors : option (gmap string N);
  storedCompleted : bool
}.

Definition saveState (p : Page) : Page :=
  mkPage (regionColors p) (solved p) (paletteState p) (borderMidpointCache p)
         (conflictMarkers p) (coloredCount p)
         (Some (savedColors COUNTRIES (regionColors p))) (storedCompleted p).

Definition updateCounter (p : Page) : Page :=
  mkPage (regionColors p) (solved p) (paletteState p) (borderMidpointCache p)
         (conflictMarkers p) (colored (regionColors p))
         (storedColors p) (storedCompleted p).

Definition checkCompletion (p : Page) : Page :=
  if allColored (regionColors p) && validColoring adjacency (regionColors p)
  then mkPage (regionColors p) true (paletteState p) (borderMidpointCache p)
              (conflictMarkers p) (coloredCount p) (storedColors p) true
  else p.

(** The call of the engine on the page constants; the flag tells whether
    it threw. *)
Definition redraw (p : Page) : Page * bool :=
  let d := drawConflictMarkers svgEl adjacency (regionColors p)
                               (borderMidpointCache p) in
  (mkPage (regionColors p) (solved p) (paletteState p) (drawnCache d)
          (drawnGroup d) (coloredCount p) (storedColors p) (storedCompleted p),
   drawnThrew d).

(** [paintRegion(index)]; the flag tells whether the handler threw, which
    it does at [paths[index].setAttribute] when there is no such path, or
    inside the engine. *)
Definition paintRegion (p : Page) (index : N) : Page * bool :=
  if solved p then (p, false) else
  let eraser := selectedEraser (paletteState p) in
  let v := if eraser then Null
           else Color (selectedColorIndex (paletteState p)) in
  let p1 := mkPage (writeSlot (regionColors p) index v) (solved p)
                   (paletteState p) (borderMidpointCache p)
                   (conflictMarkers p) (coloredCount p)
                   (storedColors p) (storedCompleted p) in
  if Nat.leb (length svgEl) (N.to_nat index) then (p1, true) else
  let '(p2, threw) := redraw p1 in
  if threw then (p2, true) else
  let p3 := updateCounter (saveState p2) in
  if eraser then (p3, false) else (checkCompletion p3, false).

(** The loop of [loadState] over the countries: a stored value that is
    neither [undefined] nor [null] is written to the slot of the country,
    and the fill of a path that does not exist throws. *)
Fixpoint restore (ics : list (nat * string)) (saved : gmap string N)
    (regionColors : list Slot) : list Slot * bool :=
  match ics with
  | [] => (regionColors, false)
  | ic :: rest =>
      match saved !! snd ic with
      | Some c =>
          let rc := writeSlot regionColors (N.of_nat (fst ic)) (Color c) in
          if Nat.leb (length svgEl) (fst ic) then (rc, true)
          else restore rest saved rc
      | None => restore rest saved regionColors
      end
  end.

(** [loadState()]: nothing happens without a stored item; an exception
    ends the [try] block where it is thrown. *)
Definition loadState (p : Page) : Page :=
  match storedColors p with
  | None => p
  | Some saved =>
      let '(rc, threw) := restore (imap pair COUNTRIES) saved (regionColors p) in
      let p1 := mkPage rc (solved p) (paletteState p) (borderMidpointCache p)
                       (conflictMarkers p) (coloredCount p)
                       (storedColors p) (storedCompleted p) in
      if threw then p1 else
      let '(p2, threw2) := redraw p1 in
      if threw2 then p2 else
      let p3 := updateCounter p2 in
      if storedCompleted p3
      then mkPage (regionColors p3) true (paletteState p3)
                  (borderMidpointCache p3) (conflictMarkers p3)
                  (coloredCount p3) (storedColors p3) (storedCompleted p3)
      else p3
  end.

(** The page as the script sets it up before [loadState] runs, with what
    [localStorage] holds. *)
Definition freshPage (s : Session A) (stored : option (gmap string N))
    (completed : bool) : Page :=
  mkPage (replicate (length COUNTRIES) Null) false (mkPalette 0 false) s
         None 0 stored completed.

(** [startOver()]: everything is reset except the midpoint cache; the
    view box is reset through [applyViewBox], which calls the engine, and
    the flag tells whether that call threw (what follows it is then not
    run). *)
Definition startOver (p : Page) : Page * bool :=
  let p1 := mkPage (replicate (length COUNTRIES) Null) false (mkPalette 0 false)
                   (borderMidpointCache p) None (coloredCount p) None false in
  let '(p2, threw) := redraw p1 in
  if threw then (p2, true) else (updateCounter p2, false).

(** What the selected tool writes: [null] for the eraser, the index of
    the selected colour otherwise. *)
Definition toolValue (p : Page) : Slot :=
  if selectedEraser (paletteState p) then Null
  else Color (selectedColorIndex (paletteState p)).

(** Every index of [adjacency] has its path. *)
Definition adjacencyInRange : Prop :=
  Forall (fun edge : N * N => N.to_nat (fst edge) < length svgEl
                              /\ N.to_nat (snd edge) < length svgEl)
         adjacency.

End Page.

(** What a slot leaves under its key in the stored object, where [old] is
    what the key held before. *)
Definition slotValue (c : Slot) (old : option N) : option N :=
  match c with
  | Color v => Some v
  | Null => old
  | Hole => None
  end.

(** Three countries in a row, their two borders, and the three strokes
    that stand for their paths. *)
Definition threeCountries : list string := ["aa"; "bb"; "cc"].
Definition threeBorders : list (N * N) := [(0, 1); (1, 2)]%N.
Definition threePaths : SVGElement F64 := [strokeA; strokeB; strokeA].

(** No character of the text is the dash that joins the two halves of a
    cache key. *)
Definition dashFree (s : string) : Prop :=
  allChars (fun c => negb (Ascii.eqb c "-")) s = true.

(** ** The adjacency list of a generated page *)

(** [[pair[0], pair[1]].sort().join('-')]: the two ids in the order of
    their code units. *)
Definition edgeKey (pair : string * string) : string :=
  if String.leb (fst pair) (snd pair)
  then fst pair +:+ "-" +:+ snd pair
  else snd pair +:+ "-" +:+ fst pair.

(** [countryData.find(c => c.id === id)] finds a country. *)
Definition hasCountry (ids : list string) (id : string) : bool :=
  existsb (String.eqb id) ids.

(** Body of the loop over [continent.adjacency]: the state is
    [(adjSet, adjPairs)]. *)
Definition adjStep (ids : list string)
    (st : gset string * list (string * string)) (pair : string * string)
  : gset string * list (string * string) :=
  if bool_decide (edgeKey pair ∈ fst st) then st
  else ({[edgeKey pair]} ∪ fst st,
        if hasCountry ids (fst pair) && hasCountry ids (snd pair)
        then snd st ++ [pair] else snd st).

Definition adjPairs (ids : list string) (adjacency : list (string * string))
  : list (string * string) :=
  snd (fold_left (adjStep ids) adjacency (∅, [])).

(** The pair joins [a] and [b], in either order. *)
Definition joins (a b : string) (pair : string * string) : Prop :=
  pair = (a, b) \/ pair = (b, a).

(** Some borders of Europe, one of them listed twice, and the countries
    of a page without Finland. *)
Definition someBorders : list (string * string) :=
  [("no", "se"); ("se", "no"); ("no", "fi"); ("se", "fi")].
Definition someCountries : list string := ["no"; "se"].

(** ** The view box of a page *)

Section Zoom.

Variable A : Arith.

(** [{ x, y, w, h }] *)
Record ViewBox : Type := mkViewBox {
  vx : num A; vy : num A; vw : num A; vh : num A
}.

Definition MAX_ZOOM : Z := 5.

(** [clampViewBox()] on the view box [vb], with the base view box of the
    page; each line of the source is one [let]. *)
Definition clampViewBox (BASE_VB vb : ViewBox) : ViewBox :=
  let w1 := if ltb A (vw BASE_VB) (vw vb) then vw BASE_VB else vw vb in
  let h1 := if ltb A (vh BASE_VB) (vh vb) then vh BASE_VB else vh vb in
  let w2 := if ltb A w1 (div A (vw BASE_VB) (of_Z A MAX_ZOOM))
            then div A (vw BASE_VB) (of_Z A MAX_ZOOM) else w1 in
  let h2 := if ltb A h1 (div A (vh BASE_VB) (of_Z A MAX_ZOOM))
            then div A (vh BASE_VB) (of_Z A MAX_ZOOM) else h1 in
  let h3 := mul A w2 (div A (vh BASE_VB) (vw BASE_VB)) in
  let x1 := if ltb A (vx vb) (vx BASE_VB) then vx BASE_VB else vx vb in
  let y1 := if ltb A (vy vb) (vy BASE_VB) then vy BASE_VB else vy vb in
  let x2 := if ltb A (add A (vx BASE_VB) (vw BASE_VB)) (add A x1 w2)
            then sub A (add A (vx BASE_VB) (vw BASE_VB)) w2 else x1 in
  let y2 := if ltb A (add A (vy BASE_VB) (vh BASE_VB)) (add A y1 h3)
            then sub A (add A (vy BASE_VB) (vh BASE_VB)) h3 else y1 in
  mkViewBox x2 y2 w2 h3.

End Zoom.

Arguments mkViewBox {A} vx vy vw vh.

(** A view box of finite real numbers. *)
Definition finBox (x y w h : R) : ViewBox XR :=
  mkViewBox (A := XR) (XFin x) (XFin y) (XFin w) (XFin h).

(** The base view box of the Europe page and a view box that has been
    dragged and zoomed out of it. *)
Definition europeBox : ViewBox F64 :=
  mkViewBox (A := F64) 0%float 0%float 800%float 700%float.
Definition strayBox : ViewBox F64 :=
  mkViewBox (A := F64) (-50)%float 900%float 1000%float 40%float.

(** ** The palette *)

(** A swatch button of the palette: whether its class list holds
    [eraser] and [selected]. *)
Record Swatch : Type := mkSwatch {
  isEraser : bool;
  isSelected : bool
}.

(** [renderPalette(paletteEl, numColors, state, callbacks)]: the state as
    it is left and the buttons put into the palette; [enableEraser] stands
    for [callbacks && callbacks.enableEraser]. *)
Definition renderPalette (numColors : N) (state : Palette)
    (enableEraser : bool) : Palette * list Swatch :=
  let state' :=
    if (numColors <=? selectedColorIndex state)%N
    then mkPalette 0 (selectedEraser state) else state in
  (state',
   map (fun i => mkSwatch false (negb (selectedEraser state')
                                 && (i =? selectedColorIndex state')%N))
       (map N.of_nat (seq 0 (N.to_nat numColors)))
   ++ (if enableEraser then [mkSwatch true (selectedEraser state')] else [])).

(** [selectColor(paletteEl, state, index)]: [toggle('selected', i ===
    index)] on every button of class [swatch], the eraser included. *)
Definition selectColor (swatches : list Swatch) (state : Palette) (index : N)
  : Palette * list Swatch :=
  (mkPalette index false,
   imap (fun i s => mkSwatch (isEraser s) (N.of_nat i =? index)%N) swatches).

(** [querySelector('.swatch.eraser')] and [classList.add('selected')]: the
    first eraser button is selected. *)
Fixpoint selectFirstEraser (swatches : list Swatch) : list Swatch :=
  match swatches with
  | [] => []
  | s :: rest =>
      if isEraser s then mkSwatch true true :: rest
      else s :: selectFirstEraser rest
  end.

(** [selectEraser(paletteEl, state)] *)
Definition selectEraser (swatches : list Swatch) (state : Palette)
  : Palette * list Swatch :=
  (mkPalette (selectedColorIndex state) true,
   selectFirstEraser (map (fun s => mkSwatch (isEraser s) false) swatches)).

(** The buttons show the tool of the state: the eraser button is selected
    exactly when the eraser is, and a colour button exactly when its colour
    is and the eraser is not. *)
Definition shows (palette : Palette * list Swatch) : Prop :=
  forall i s, snd palette !! i = Some s ->
    isSelected s =
    if isEraser s then selectedEraser (fst palette)
    else negb (selectedEraser (fst palette))
         && (N.of_nat i =? selectedColorIndex (fst palette))%N.

(** What the extremes of an empty search rely on: nothing but Infinity is
    at or above Infinity, and nothing but -Infinity at or below it. *)
Record Extremal (A : Arith) : Prop := mkExtremal {
  top_only : forall a : num A, leb A (pinf A) a = true -> a = pinf A;
  bottom_only : forall a : num A, leb A a (ninf A) = true -> a = ninf A
}.

(** The box starts at [start] and has the extent [size] along the
    coordinate [coord]: [start] is the smallest value of the coordinate
    among the points of the shape, and [size] is the largest one minus the
    smallest one, both taken at points of the shape. *)
Definition spans {A : Arith} (segments : Shape A) (coord : Point A -> value A)
    (start size : num A) : Prop :=
  exists lo hi : Point A,
    pointOf segments lo /\ pointOf segments hi /\
    isNumber (coord lo) /\ isNumber (coord hi) /\
    start = ToNumber (coord lo) /\
    size = sub A (ToNumber (coord hi)) (ToNumber (coord lo)) /\
    forall p : Point A,
      pointOf segments p -> isNumber (coord p) ->
      leb A (ToNumber (coord lo)) (ToNumber (coord p)) = true /\
      leb A (ToNumber (coord p)) (ToNumber (coord hi)) = true.

(** A point of a shape of finite points. *)
Definition pointIn (s : list (list (R * R))) (c : R * R) : Prop :=
  exists r, In r s /\ In c r.

(** A binary64 value that is finite: a zero or a finite number. *)
Definition finiteSF (x : spec_float) : Prop :=
  match x with
  | S754_zero _ | S754_finite _ _ _ => True
  | _ => False
  end.

(** A binary64 zero of either sign. *)
Definition zeroSF (x : spec_float) : Prop :=
  match x with
  | S754_zero _ => True
  | _ => False
  end.

(** The double that is written [1e308]. *)
Definition huge : float := 0x1.1ccf385ebc8ap+1023%float.

(** What the symmetry of the distance test relies on: the square of a
    difference does not depend on its direction. *)
Record Mirrors (A : Arith) : Prop := mkMirrors {
  mir_square : forall a b : num A,
    mul A (sub A a b) (sub A a b) = mul A (sub A b a) (sub A b a)
}.

(** The sample [a] has no sample of [s] within the match threshold. *)
Definition noneNear {A : Arith} (s : Shape A) (n : nat) (thr : Z)
    (a : Point A) : Prop :=
  forall j b, In j (upto n) -> sample s n j = Ok (Some b) ->
    ltb A (sqDist a b) (mul A (of_Z A thr) (of_Z A thr)) = false.

(** Two strokes along the x axis, twenty units apart: what the paths
    ["M0,0L0.1,0"] and ["M20,0L20.2,0"] parse to. *)
Definition strokeWest : Shape F64 :=
  [[pt F64 0%float 0%float; pt F64 (of_decimal F64 false 1 (-1)) 0%float]].
Definition strokeEast : Shape F64 :=
  [[pt F64 20%float 0%float; pt F64 (of_decimal F64 false 202 (-1)) 0%float]].

(** The total length of rings of finite points, counted on from
    [total]. *)
Definition addRingR (total : R) (ring : list (R * R)) : R :=
  match ring with
  | [] => total
  | p :: rest => ringLengthR total p rest
  end.

Definition shapeLengthR (total : R) (s : list (list (R * R))) : R :=
  fold_left addRingR s total.

(** The cumulative length at which vertex [i] of [ring] lies when the
    rings [pre] come before it: the total length of the shape cut behind
    that vertex. *)
Definition lengthAt {A : Arith} (pre : Shape A) (ring : Ring A) (i : nat)
  : num A :=
  computeTotalLength (pre ++ [take (S i) ring]).

(** Two rings of length 5 each, and a ring of one point before a
    segment. *)
Definition twoRings : Shape F64 :=
  [[pt F64 0 0; pt F64 3 4]; [pt F64 10 10; pt F64 13 14]]%float.
Definition pointThenSegment : Shape F64 :=
  [[pt F64 5 5]; [pt F64 0 0; pt F64 1 0]]%float.

(** * Theorems *)

(** Evaluation of a closed equation in the virtual machine, comparing the
    two sides without normalising the arithmetic they are stated over. *)
Ltac vm_refl :=
  match goal with
  | |- ?l = ?r => vm_cast_no_check (@eq_refl _ r)
  end.

Section RunSearch.

Variable A : Arith.

Lemma linked_near (bp : list (Point A)) (i : nat) (p q : Point A) :
  bp !! i = Some p -> bp !! S i = Some q -> (linked bp i <-> near p q = true).
Proof.
  intros Hp Hq. split.
  - intros (p' & q' & Hp' & Hq' & Hn). congruence.
  - intros Hn. exists p, q. auto.
Qed.

Lemma runStep_inv (bp : list (Point A)) (i : nat) (prev cur : Point A)
    (s : RunState) :
  1 <= i -> bp !! (i - 1) = Some prev -> bp !! i = Some cur ->
  runInv bp i s -> runInv bp (S i) (runStep prev cur i s).
Proof.
  intros Hi Hprev Hcur (Hc & Hrun & Hleft & Hbest & Hbi & Hle & Hmax).
  assert (Hlen : i < length bp) by (apply lookup_lt_Some in Hcur; exact Hcur).
  assert (Hlk : linked bp (i - 1) <-> near prev cur = true).
  { apply linked_near; [exact Hprev|]. replace (S (i - 1)) with i by lia. exact Hcur. }
  destruct Hrun as (Hc1 & Hc2 & Hc3).
  unfold runStep.
  destruct (near prev cur) eqn:Hn.
  - (* the current run grows by one *)
    assert (Hrun' : isRun bp (curStart s) (S (curLen s))).
    { split; [lia|]. split; [lia|]. intros j Hj1 Hj2.
      destruct (Nat.eq_dec j (i - 1)) as [->|Hne].
      - apply Hlk. reflexivity.
      - apply Hc3; lia. }
    assert (Hend : forall s0 l, isRun bp s0 l -> s0 + l = S i ->
                     curStart s <= s0).
    { intros s0 l (Hl1 & Hl2 & Hl3) Hs0.
      destruct Hleft as [H0|Hbreak]; [lia|].
      destruct (Nat.le_gt_cases (curStart s) s0) as [|Hlt]; [assumption|].
      exfalso. apply Hbreak. apply Hl3; lia. }
    destruct (Nat.ltb (bestLen s) (S (curLen s))) eqn:Hb; simpl.
    + apply Nat.ltb_lt in Hb. unfold runInv; simpl.
      split; [lia|]. split; [exact Hrun'|]. split; [exact Hleft|].
      split; [exact Hrun'|]. split; [lia|]. split; [lia|].
      intros s0 l Hr Hs0.
      destruct (Nat.eq_dec (s0 + l) (S i)) as [He|Hne].
      * pose proof (Hend s0 l Hr He). lia.
      * destruct (Hmax s0 l Hr) as [H1 H2]; lia.
    + apply Nat.ltb_ge in Hb. unfold runInv; simpl.
      split; [lia|]. split; [exact Hrun'|]. split; [exact Hleft|].
      split; [exact Hbest|]. split; [lia|]. split; [lia|].
      intros s0 l Hr Hs0.
      destruct (Nat.eq_dec (s0 + l) (S i)) as [He|Hne].
      * pose proof (Hend s0 l Hr He). lia.
      * destruct (Hmax s0 l Hr) as [H1 H2]; lia.
  - (* a new run starts at i *)
    assert (Hrun' : isRun bp i 1).
    { split; [lia|]. split; [lia|]. intros j Hj1 Hj2. lia. }
    assert (Hbreak : ~ linked bp (i - 1)).
    { intros H. apply Hlk in H. discriminate. }
    assert (Hend : forall s0 l, isRun bp s0 l -> s0 + l = S i -> s0 = i).
    { intros s0 l (Hl1 & Hl2 & Hl3) Hs0.
      destruct (Nat.eq_dec s0 i) as [|Hne]; [assumption|].
      exfalso. apply Hbreak. apply Hl3; lia. }
    pose proof Hbest as (Hb1 & Hb2 & Hb3).
    replace (Nat.ltb (bestLen s) 1) with false
      by (symmetry; apply Nat.ltb_ge; lia).
    unfold runInv; simpl.
    split; [lia|]. split; [exact Hrun'|]. split; [right; exact Hbreak|].
    split; [exact Hbest|]. split; [lia|]. split; [lia|].
    intros s0 l Hr Hs0.
    destruct (Nat.eq_dec (s0 + l) (S i)) as [He|Hne].
    + pose proof (Hend s0 l Hr He). lia.
    + destruct (Hmax s0 l Hr) as [H1 H2]; lia.
Qed.

Lemma runLoop_inv (bp : list (Point A)) :
  forall (rest pre : list (Point A)) (prev : Point A) (s : RunState),
    bp = pre ++ prev :: rest ->
    runInv bp (S (length pre)) s ->
    runInv bp (length bp) (runLoop prev rest (S (length pre)) s).
Proof.
  induction rest as [|cur rest IH]; intros pre prev s Hbp Hinv; simpl.
  - subst bp. rewrite length_app. simpl.
    replace (length pre + 1) with (S (length pre)) by lia. exact Hinv.
  - assert (Hprev : bp !! (S (length pre) - 1) = Some prev).
    { subst bp. replace (S (length pre) - 1) with (length pre) by lia.
      apply list_lookup_middle. reflexivity. }
    assert (Hcur : bp !! S (length pre) = Some cur).
    { subst bp. rewrite (cons_middle prev pre (cur :: rest)), app_assoc.
      apply list_lookup_middle. rewrite length_app. simpl. lia. }
    specialize (IH (pre ++ [prev]) cur (runStep prev cur (S (length pre)) s)).
    rewrite length_app in IH. simpl in IH.
    replace (length pre + 1) with (S (length pre)) in IH by lia.
    apply IH.
    + subst bp. rewrite <- app_assoc. reflexivity.
    + apply runStep_inv; [lia|exact Hprev|exact Hcur|exact Hinv].
Qed.

(** The run search ends on a longest run, the first of that length. *)
Lemma longestRun_spec (bp : list (Point A)) :
  bp <> [] ->
  let s := longestRun bp in
  isRun bp (bestStart s) (bestLen s) /\
  forall s0 l, isRun bp s0 l ->
    l <= bestLen s /\ (l = bestLen s -> bestStart s <= s0).
Proof.
  intros Hne. destruct bp as [|p rest]; [congruence|].
  cbv zeta. unfold longestRun.
  pose proof (@runLoop_inv (p :: rest) rest [] p (mkRun 0 1 0 1) eq_refl) as H.
  simpl length in H.
  assert (Hinit : runInv (p :: rest) 1 (mkRun 0 1 0 1)).
  { assert (Hr : isRun (p :: rest) 0 1).
    { split; [lia|]. split; [simpl; lia|]. intros; lia. }
    split; [reflexivity|]. split; [exact Hr|]. split; [left; reflexivity|].
    split; [exact Hr|]. simpl. split; [lia|]. split; [lia|].
    intros s0 l (H1 & H2 & H3) Hs. lia. }
  specialize (H Hinit).
  destruct H as (_ & _ & _ & Hbest & _ & _ & Hmax).
  split; [exact Hbest|].
  intros s0 l Hr. apply Hmax; [exact Hr|]. destruct Hr as (_ & Hr & _).
  simpl in Hr. simpl. lia.
Qed.

Lemma middleOfRun_some (bp : list (Point A)) :
  bp <> [] -> exists p, middleOfRun bp = Some p.
Proof.
  intros Hne. destruct (longestRun_spec Hne) as [(H1 & H2 & _) _].
  unfold middleOfRun. apply lookup_lt_is_Some_2.
  assert (bestLen (longestRun bp) / 2 < bestLen (longestRun bp))
    by (apply Nat.div_lt; lia).
  lia.
Qed.

End RunSearch.

(** ** The offline estimator *)

(** C1: when at least one candidate is recorded, the offline estimator
    returns the candidate at index [start + len / 2] of a run of candidates
    whose neighbours are all within the clustering distance; no run is
    longer, no run of the same length starts earlier, and the point returned
    is an element of the candidate list. *)
Theorem C1_middle_of_longest_run (A : Arith) (sA sB : Shape A)
    (bp : list (Point A)) :
  borderPoints sA sB = Ok bp -> bp <> [] ->
  exists start len p,
    computeBorderMidpointFromPaths sA sB = Ok (Some p) /\
    bp !! (start + len / 2) = Some p /\
    isRun bp start len /\
    forall s l, isRun bp s l -> l <= len /\ (l = len -> start <= s).
Proof.
  intros Hbp Hne.
  destruct (middleOfRun_some Hne) as [p Hp].
  destruct (longestRun_spec Hne) as [Hrun Hmax].
  exists (bestStart (longestRun bp)), (bestLen (longestRun bp)), p.
  split; [|split; [exact Hp|split; [exact Hrun|exact Hmax]]].
  unfold computeBorderMidpointFromPaths. rewrite Hbp. simpl.
  destruct bp; [congruence|]. rewrite Hp. reflexivity.
Qed.

Lemma squares_candidates :
  borderPoints squareA squareC = Ok (candidates squareA squareC) /\
  length (candidates squareA squareC) = 201.
Proof.
  split; [vm_refl|vm_compute; reflexivity].
Qed.

Lemma C1_witness :
  exists start len p,
    computeBorderMidpointFromPaths squareA squareC = Ok (Some p) /\
    candidates squareA squareC !! (start + len / 2) = Some p /\
    isRun (candidates squareA squareC) start len /\
    forall s l, isRun (candidates squareA squareC) s l ->
      l <= len /\ (l = len -> start <= s).
Proof.
  apply (@C1_middle_of_longest_run F64 squareA squareC
           (candidates squareA squareC)).
  - exact (proj1 squares_candidates).
  - intros H. pose proof (proj2 squares_candidates) as E.
    rewrite H in E. discriminate E.
Defined.

Lemma xadd_assoc (a b c : XReal) : xadd a (xadd b c) = xadd (xadd a b) c.
Proof.
  destruct a as [|[]|x], b as [|[]|y], c as [|[]|z]; simpl;
    try reflexivity.
  f_equal. ring.
Qed.

Lemma xadd_comm (a b : XReal) : xadd a b = xadd b a.
Proof.
  destruct a as [|[]|x], b as [|[]|y]; simpl; try reflexivity.
  f_equal. ring.
Qed.

Lemma squares_parsed :
  parsePath F64 "M0,0 L1,0 L1,1 L0,1 Z" = Ok squareA /\
  parsePath F64 "M10,0 L11,0 L11,1 L10,1 Z" = Ok squareB.
Proof. split; reflexivity. Qed.

Lemma squares_no_candidate : borderPoints squareA squareB = Ok [].
Proof. vm_refl. Qed.

(** C2: when no candidate is recorded the offline estimator returns the
    fallback point; in exact arithmetic that point is the midpoint of the
    centres of the two bounding boxes; and for the unit squares with corners
    (0,0)-(1,1) and (10,0)-(11,1) no candidate is recorded, the centres are
    (0.5,0.5) and (10.5,0.5), and the point returned is (5.5,0.5). *)
Theorem C2_bbox_fallback :
  (forall (A : Arith) (sA sB : Shape A),
      borderPoints sA sB = Ok [] ->
      computeBorderMidpointFromPaths sA sB = Ok (Some (bboxFallback sA sB))) /\
  (forall sA sB : Shape XR,
      bboxFallback sA sB =
      midpoint (bboxCenter (computeBBox sA)) (bboxCenter (computeBBox sB))) /\
  (borderPoints squareA squareB = Ok [] /\
   bboxCenter (computeBBox squareA) = pt F64 0.5%float 0.5%float /\
   bboxCenter (computeBBox squareB) = pt F64 10.5%float 0.5%float /\
   computeBorderMidpointFromPaths squareA squareB = Ok (Some (pt F64 5.5%float 0.5%float))).
Proof.
  split; [|split].
  - intros A sA sB H. unfold computeBorderMidpointFromPaths. rewrite H.
    reflexivity.
  - intros sA sB. unfold bboxFallback, midpoint, bboxCenter, X, Y, pt.
    cbn [px py ToNumber add div of_Z XR].
    rewrite <- !xadd_assoc. reflexivity.
  - split; [exact squares_no_candidate|]. split; [vm_refl|]. split; [vm_refl|].
    unfold computeBorderMidpointFromPaths. rewrite squares_no_candidate.
    change (Ok (Some (bboxFallback squareA squareB)) =
            Ok (Some (pt F64 5.5%float 0.5%float))).
    apply (f_equal (fun p => Ok (Some p))). vm_refl.
Qed.

Lemma C2_witness :
  borderPoints squareA squareB = Ok [] /\
  computeBorderMidpointFromPaths squareA squareB =
  Ok (Some (bboxFallback squareA squareB)).
Proof.
  split; [exact squares_no_candidate|].
  apply (proj1 C2_bbox_fallback). exact squares_no_candidate.
Defined.

(** ** The midpoint cache *)

Section Cache.

Variable A : Arith.
Variable svgEl : SVGElement A.

Lemma cacheKey_sym (a b : N) : cacheKey a b = cacheKey b a.
Proof. unfold cacheKey. rewrite N.min_comm, N.max_comm. reflexivity. Qed.

(** One query either finds its key and changes nothing, or finds it absent,
    invokes the estimator and stores what it returned. *)
Lemma getBorderMidpoint_cases (s s' : Session A) (a b : N) (p : Point A) :
  getBorderMidpoint s svgEl a b = Ok (p, s') ->
  (cache s !! cacheKey a b = Some p /\ s' = s) \/
  (cache s !! cacheKey a b = None /\
   computeBorderMidpoint svgEl a b = Ok p /\
   cache s' = <[cacheKey a b := p]> (cache s) /\
   invoked s' = invoked s ++ [(a, b)]).
Proof.
  unfold getBorderMidpoint.
  destruct (cache s !! cacheKey a b) as [q|] eqn:Hk.
  - intros H. injection H as -> ->. left. split; reflexivity.
  - destruct (computeBorderMidpoint svgEl a b) as [q|] eqn:He; simpl.
    + intros H. injection H as -> <-. right. simpl. auto.
    + discriminate.
Qed.

Lemma queries_inv (pairs : list (N * N)) :
  forall s s' : Session A,
    queries svgEl s pairs = Ok s' ->
    exists new,
      invoked s' = invoked s ++ new /\
      (forall k v, cache s !! k = Some v -> cache s' !! k = Some v) /\
      (forall k, count_occ string_dec (keysOf new) k <= 1) /\
      (forall k, is_Some (cache s !! k) ->
                 count_occ string_dec (keysOf new) k = 0).
Proof.
  induction pairs as [|[a b] pairs IH]; intros s s' H.
  - injection H as <-. exists []. rewrite app_nil_r. simpl.
    repeat split; auto.
  - unfold queries in H. simpl in H.
    destruct (getBorderMidpoint s svgEl a b) as [[p s1]|] eqn:Hg;
      [|discriminate]. simpl in H.
    destruct (IH s1 s' H) as (new & Hlog & Hmono & Hone & Hzero).
    destruct (getBorderMidpoint_cases _ _ _ Hg)
      as [[Hk ->]|(Hk & _ & Hc & Hl)].
    + exists new. auto.
    + exists ((a, b) :: new).
      assert (Hk0 : count_occ string_dec (keysOf new) (cacheKey a b) = 0).
      { apply Hzero. rewrite Hc, lookup_insert_eq. eexists; reflexivity. }
      split; [rewrite Hlog, Hl, <- app_assoc; reflexivity|].
      split; [|split].
      * intros k v Hv. apply Hmono. rewrite Hc.
        destruct (string_dec (cacheKey a b) k) as [<-|Hne].
        -- congruence.
        -- rewrite lookup_insert_ne; assumption.
      * intros k. simpl.
        destruct (string_dec (cacheKey a b) k) as [<-|Hne].
        -- rewrite Hk0. lia.
        -- apply Hone.
      * intros k [v Hv]. simpl.
        destruct (string_dec (cacheKey a b) k) as [<-|Hne].
        -- congruence.
        -- apply Hzero. rewrite Hc, lookup_insert_ne by assumption.
           eexists; exact Hv.
Qed.

Lemma samePair_key (a b : N) (ab : N * N) :
  samePair a b ab = true -> cacheKey (fst ab) (snd ab) = cacheKey a b.
Proof.
  unfold samePair. destruct ab as [a' b']. simpl.
  rewrite orb_true_iff, !andb_true_iff, !N.eqb_eq.
  intros [[-> ->]|[-> ->]]; [reflexivity|apply cacheKey_sym].
Qed.

Lemma samePair_count (a b : N) (log : list (N * N)) :
  length (List.filter (samePair a b) log) <=
  count_occ string_dec (keysOf log) (cacheKey a b).
Proof.
  induction log as [|ab log IH]; simpl; [lia|].
  destruct (samePair a b ab) eqn:Hs.
  - rewrite (samePair_key _ _ _ Hs).
    destruct (string_dec (cacheKey a b) (cacheKey a b)); [simpl; lia|congruence].
  - destruct (string_dec _ _); lia.
Qed.

End Cache.

(** C7: the cache key is [min(a,b) + "-" + max(a,b)], the same for both
    orders of a pair.  A query whose key is present returns the stored point
    and changes neither the cache nor the log of estimator invocations; a
    query whose key is absent invokes the estimator once, stores its result
    under the key and returns it.  Over any sequence of queries on one
    cache, the estimator is invoked at most once for each unordered pair,
    never for a key that was populated at the start, and every populated key
    keeps its point. *)
Theorem C7_cache_memoizes (A : Arith) (svgEl : SVGElement A) :
  (forall a b : N,
      cacheKey a b = pretty (N.min a b) +:+ "-" +:+ pretty (N.max a b) /\
      cacheKey a b = cacheKey b a) /\
  (forall (s : Session A) (a b : N) (p : Point A),
      cache s !! cacheKey a b = Some p ->
      getBorderMidpoint s svgEl a b = Ok (p, s)) /\
  (forall (s : Session A) (a b : N),
      cache s !! cacheKey a b = None ->
      getBorderMidpoint s svgEl a b =
      match computeBorderMidpoint svgEl a b with
      | Ok p => Ok (p, mkSession (<[cacheKey a b := p]> (cache s))
                                 (invoked s ++ [(a, b)]))
      | TypeError => TypeError
      end) /\
  (forall (s s' : Session A) (pairs : list (N * N)),
      queries svgEl s pairs = Ok s' ->
      exists new,
        invoked s' = invoked s ++ new /\
        (forall a b, length (List.filter (samePair a b) new) <= 1) /\
        (forall a b, is_Some (cache s !! cacheKey a b) ->
                     List.filter (samePair a b) new = []) /\
        (forall k p, cache s !! k = Some p -> cache s' !! k = Some p)).
Proof.
  split; [|split; [|split]].
  - intros a b. split; [reflexivity|apply cacheKey_sym].
  - intros s a b p H. unfold getBorderMidpoint. rewrite H. reflexivity.
  - intros s a b H. unfold getBorderMidpoint. rewrite H. reflexivity.
  - intros s s' pairs H.
    destruct (@queries_inv A svgEl pairs s s' H)
      as (new & Hlog & Hmono & Hone & Hzero).
    exists new. split; [exact Hlog|]. split; [|split; [|exact Hmono]].
    + intros a b. pose proof (samePair_count a b new).
      pose proof (Hone (cacheKey a b)). lia.
    + intros a b Hs. pose proof (samePair_count a b new) as Hc.
      rewrite (Hzero _ Hs) in Hc.
      destruct (List.filter (samePair a b) new); [reflexivity|simpl in Hc; lia].
Qed.

Lemma strokes_queried :
  queries [strokeA; strokeB] freshSession [(0%N, 1%N); (1%N, 0%N)]
  = Ok strokesSession.
Proof. vm_refl. Qed.

Lemma C7_witness :
  exists new : list (N * N),
    invoked strokesSession = invoked freshSession ++ new /\
    (forall a b, length (List.filter (samePair a b) new) <= 1) /\
    (forall a b,
        is_Some (cache freshSession !! cacheKey a b) ->
        List.filter (samePair a b) new = []) /\
    (forall k p, cache freshSession !! k = Some p ->
                 cache strokesSession !! k = Some p).
Proof.
  apply (proj2 (proj2 (proj2 (@C7_cache_memoizes F64 [strokeA; strokeB])))
           freshSession strokesSession [(0%N, 1%N); (1%N, 0%N)]).
  exact strokes_queried.
Defined.

(** ** Order of binary64 comparisons *)

Lemma SFcompare_rank (x y : spec_float) :
  ~ isNaN x -> ~ isNaN y ->
  SFcompare x y = Some Lt <-> lexlt (rank x) (rank y).
Proof.
  unfold isNaN, lexlt.
  destruct x as [sx|sx| |sx mx ex], y as [sy|sy| |sy my ey];
    intros Hx Hy; try congruence;
    try destruct sx; try destruct sy; simpl;
    try (split; [intros H; try discriminate; lia | intros H; try reflexivity; lia]).
  - destruct (Z.compare_spec ex ey) as [He|He|He].
    + subst. change (PosDef.Pos.compare_cont Eq mx my) with (Pos.compare mx my).
      destruct (Pos.compare_spec mx my) as [Hm|Hm|Hm]; simpl;
        (split; [intros H; try discriminate; lia | intros H; try reflexivity; lia]).
    + split; [intros H; try discriminate; lia | intros H; try reflexivity; lia].
    + split; [intros H; try discriminate; lia | intros H; try reflexivity; lia].
  - destruct (Z.compare_spec ex ey) as [He|He|He].
    + subst. change (PosDef.Pos.compare_cont Eq mx my) with (Pos.compare mx my).
      destruct (Pos.compare_spec mx my) as [Hm|Hm|Hm]; simpl;
        (split; [intros H; try discriminate; lia | intros H; try reflexivity; lia]).
    + split; [intros H; try discriminate; lia | intros H; try reflexivity; lia].
    + split; [intros H; try discriminate; lia | intros H; try reflexivity; lia].
Qed.

Lemma SFltb_rank (x y : spec_float) :
  SFltb x y = true <-> ~ isNaN x /\ ~ isNaN y /\ lexlt (rank x) (rank y).
Proof.
  unfold SFltb. split.
  - intros H.
    assert (Hx : ~ isNaN x) by (intros ->; discriminate H).
    assert (Hy : ~ isNaN y)
      by (intros ->; destruct x as [| | |[] ? ?]; discriminate H).
    split; [exact Hx|]. split; [exact Hy|].
    apply SFcompare_rank; [exact Hx|exact Hy|].
    destruct (SFcompare x y) as [[]|]; try discriminate. reflexivity.
  - intros (Hx & Hy & Hl). apply SFcompare_rank in Hl; [|exact Hx|exact Hy].
    rewrite Hl. reflexivity.
Qed.

Lemma f64_ltb_trans (a b c : float) :
  PrimFloat.ltb a b = true -> PrimFloat.ltb b c = true ->
  PrimFloat.ltb a c = true.
Proof.
  rewrite !ltb_spec, !SFltb_rank. unfold lexlt.
  intros (Ha & Hb & H1) (_ & Hc & H2).
  split; [exact Ha|]. split; [exact Hc|]. lia.
Qed.

Lemma f64_ltb_irrefl (a : float) : PrimFloat.ltb a a = false.
Proof.
  destruct (PrimFloat.ltb a a) eqn:H; [|reflexivity].
  rewrite ltb_spec, SFltb_rank in H. unfold lexlt in H. lia.
Qed.

Lemma F64_descends : Descends F64.
Proof.
  constructor.
  - exact f64_ltb_irrefl.
  - exact f64_ltb_trans.
Qed.

(** ** The runtime estimator *)

Section ClosestScan.

Variable A : Arith.
Hypothesis HD : Descends A.
Variables cx cy : num A.
Variable first : Point A.

Lemma closestScan_inv (shared : list (Point A)) :
  forall (seen : list (Point A)) (m : num A) (c : Point A),
    (forall p, In p seen -> ltb A (sqDistTo cx cy p) m = false) ->
    (m = sqDistTo cx cy c /\ In c seen \/ m = pinf A /\ c = first) ->
    let r := fold_left (closestStep cx cy) shared (m, c) in
    (forall p, In p (seen ++ shared) ->
               ltb A (sqDistTo cx cy p) (fst r) = false) /\
    (fst r = sqDistTo cx cy (snd r) /\ In (snd r) (seen ++ shared) \/
     fst r = pinf A /\ snd r = first).
Proof.
  induction shared as [|p shared IH]; intros seen m c Hmin Hc; simpl.
  - rewrite app_nil_r. auto.
  - replace (seen ++ p :: shared) with ((seen ++ [p]) ++ shared)
      by (rewrite <- app_assoc; reflexivity).
    assert (Hstep : closestStep cx cy (m, c) p =
                    if ltb A (sqDistTo cx cy p) m
                    then (sqDistTo cx cy p, p) else (m, c)) by reflexivity.
    rewrite Hstep. clear Hstep.
    destruct (ltb A (sqDistTo cx cy p) m) eqn:Hlt.
    + apply (IH (seen ++ [p]) (sqDistTo cx cy p) p).
      * intros q Hq. apply in_app_or in Hq. destruct Hq as [Hq|[<-|[]]].
        -- destruct (ltb A (sqDistTo cx cy q) (sqDistTo cx cy p)) eqn:Hqp;
             [|reflexivity].
           specialize (Hmin q Hq).
           rewrite (desc_trans HD _ _ _ Hqp Hlt) in Hmin. discriminate.
        -- apply (desc_irrefl HD).
      * left. split; [reflexivity|]. apply in_or_app. right. left. reflexivity.
    + apply (IH (seen ++ [p]) m c).
      * intros q Hq. apply in_app_or in Hq. destruct Hq as [Hq|[<-|[]]].
        -- apply Hmin. exact Hq.
        -- exact Hlt.
      * destruct Hc as [[Hm Hin]|Hc]; [left|right; exact Hc].
        split; [exact Hm|]. apply in_or_app. left. exact Hin.
Qed.

End ClosestScan.

(** C3: when the samples of two rendered paths yield at least one shared
    point, the runtime estimator takes the centroid of all shared points
    and a shared point [closest] with squared distance [minDist] to the
    centroid such that no shared point is closer; it returns [closest] when
    [sqrt minDist > 15] and the centroid otherwise.  ([minDist] is still
    [Infinity], and [closest] the first shared point, if no distance
    compared below [Infinity].) *)
Theorem C3_centroid_or_closest (A : Arith) (HD : Descends A)
    (svgEl : SVGElement A) (a b : N) (pathA pathB : SVGPath A)
    (shared : list (Point A)) :
  svgEl !! N.to_nat a = Some pathA ->
  svgEl !! N.to_nat b = Some pathB ->
  sharedPoints pathA pathB = shared ->
  shared <> [] ->
  let cx := centroidX shared in
  let cy := centroidY shared in
  exists (closest : Point A) (minDist : num A),
    In closest shared /\
    (forall p, In p shared -> ltb A (sqDistTo cx cy p) minDist = false) /\
    (minDist = sqDistTo cx cy closest \/
     minDist = pinf A /\ Some closest = head shared) /\
    computeBorderMidpoint svgEl a b =
    Ok (if ltb A (of_Z A 15) (sqrt A minDist) then closest else pt A cx cy).
Proof.
  intros Ha Hb Hs Hne cx cy.
  destruct shared as [|first rest]; [congruence|].
  pose proof (@closestScan_inv A HD cx cy first (first :: rest) [] (pinf A) first)
    as H.
  simpl app in H.
  destruct H as [Hmin Hc].
  { intros p []. }
  { right. split; reflexivity. }
  set (r := fold_left (closestStep cx cy) (first :: rest) (pinf A, first)) in *.
  exists (snd r), (fst r).
  split; [|split; [exact Hmin|split]].
  - destruct Hc as [[_ Hin]|[_ ->]]; [exact Hin|left; reflexivity].
  - destruct Hc as [[Hm _]|[Hm ->]]; [left; exact Hm|right].
    split; [exact Hm|reflexivity].
  - unfold computeBorderMidpoint. rewrite Ha, Hb. simpl. rewrite Hs.
    unfold refine, closestScan. fold cx cy. fold r.
    destruct r as [m c]. reflexivity.
Qed.

Lemma strokes_shared : sharedPoints strokeA strokeB <> [].
Proof.
  assert (E : Nat.ltb 0 (length (sharedPoints strokeA strokeB)) = true)
    by (vm_compute; reflexivity).
  intros H. rewrite H in E. discriminate E.
Qed.

Lemma C3_witness :
  let shared := sharedPoints strokeA strokeB in
  let cx := centroidX shared in
  let cy := centroidY shared in
  exists (closest : Point F64) (minDist : float),
    In closest shared /\
    (forall p, In p shared ->
               PrimFloat.ltb (sqDistTo cx cy p) minDist = false) /\
    (minDist = sqDistTo cx cy closest \/
     minDist = infinity /\ Some closest = head shared) /\
    computeBorderMidpoint [strokeA; strokeB] 0 1 =
    Ok (if PrimFloat.ltb 15 (PrimFloat.sqrt minDist)
        then closest else pt F64 cx cy).
Proof.
  apply (@C3_centroid_or_closest F64 F64_descends [strokeA; strokeB] 0 1
           strokeA strokeB (sharedPoints strokeA strokeB)).
  - reflexivity.
  - reflexivity.
  - reflexivity.
  - exact strokes_shared.
Defined.

(** ** The path parser *)

Section ParserFacts.

Variable A : Arith.

Lemma flush_nonEmpty (segs : Shape A) (cur : Ring A) :
  ringsNonEmpty segs -> ringsNonEmpty (flush segs cur).
Proof.
  intros H. destruct cur as [|p cur]; simpl; [exact H|].
  apply Forall_app. split; [exact H|]. constructor; [discriminate|constructor].
Qed.

Lemma parseStep_nonEmpty (st st' : ParseState A) (c : Command * list (num A)) :
  parseStep st c = Ok st' ->
  ringsNonEmpty (segments st) -> ringsNonEmpty (segments st').
Proof.
  destruct c as [[] nums]; unfold parseStep; simpl.
  - intros H Hs. injection H as <-. simpl. apply flush_nonEmpty. exact Hs.
  - intros H Hs. injection H as <-. exact Hs.
  - destruct (curPt st); simpl; [|discriminate].
    intros H Hs. injection H as <-. exact Hs.
  - intros H Hs. injection H as <-. simpl. apply flush_nonEmpty. exact Hs.
Qed.

(** Once the current point is set no command throws, and it stays set. *)
Lemma parseStep_set (c : Command * list (num A)) (st : ParseState A) :
  curPt st <> None ->
  exists st', parseStep st c = Ok st' /\ curPt st' <> None.
Proof.
  intros Hc. destruct c as [[] nums]; unfold parseStep; simpl.
  - eexists. split; [reflexivity|]. simpl. discriminate.
  - eexists. split; [reflexivity|]. simpl. discriminate.
  - destruct (curPt st); [|congruence]. simpl.
    eexists. split; [reflexivity|]. simpl. discriminate.
  - eexists. split; [reflexivity|]. simpl. exact Hc.
Qed.

Lemma foldM_set (cmds : list (Command * list (num A))) :
  forall st : ParseState A,
    curPt st <> None -> exists st', foldM (@parseStep A) cmds st = Ok st'.
Proof.
  induction cmds as [|c cmds IH]; intros st Hc; simpl.
  - eexists. reflexivity.
  - destruct (@parseStep_set c st Hc) as (st1 & H1 & Hc1). rewrite H1. simpl.
    apply IH. exact Hc1.
Qed.

Lemma foldM_guarded (cmds : list (Command * list (num A))) :
  forall st : ParseState A,
    firstDrawing (map fst cmds) <> Some CmdC ->
    exists st', foldM (@parseStep A) cmds st = Ok st'.
Proof.
  induction cmds as [|[c nums] cmds IH]; intros st Hf; simpl.
  - eexists. reflexivity.
  - destruct c; unfold parseStep at 1; simpl.
    + apply foldM_set. simpl. discriminate.
    + apply foldM_set. simpl. discriminate.
    + exfalso. apply Hf. reflexivity.
    + apply IH. exact Hf.
Qed.

Lemma foldM_nonEmpty (cmds : list (Command * list (num A))) :
  forall st st' : ParseState A,
    foldM (@parseStep A) cmds st = Ok st' ->
    ringsNonEmpty (segments st) -> ringsNonEmpty (segments st').
Proof.
  induction cmds as [|c cmds IH]; intros st st' H Hs; simpl in H.
  - injection H as <-. exact Hs.
  - destruct (parseStep st c) as [st1|] eqn:H1; [|discriminate]. simpl in H.
    apply (IH st1 st' H). apply (@parseStep_nonEmpty st st1 c H1 Hs).
Qed.

Lemma commands_letters (d : string) :
  map fst (commands A d) = map fst (matches d).
Proof. unfold commands. rewrite map_map. reflexivity. Qed.

End ParserFacts.

(** C9, as the code has it: [parsePath] is total; whenever the first
    command other than a close is not a curve it returns, without throwing,
    a list of rings none of which is empty.  A command with an empty operand
    list is not dropped: a move starts a ring with one point of undefined
    coordinates, a line appends such a point; a close ignores its operands;
    and operand text that trims to nothing gives the empty operand list. *)
Theorem C9_parsePath_returns (A : Arith) :
  (forall d : string,
      firstDrawing (map fst (matches d)) <> Some CmdC ->
      exists shape : Shape A,
        parsePath A d = Ok shape /\ Forall (fun r => r <> []) shape) /\
  (forall st : ParseState A,
      parseStep st (CmdM, []) =
      Ok (mkState (flush (segments st) (current st))
                  [mkPoint VUndefined VUndefined]
                  (Some (mkPoint VUndefined VUndefined))
                  (Some (mkPoint VUndefined VUndefined)))) /\
  (forall st : ParseState A,
      parseStep st (CmdL, []) =
      Ok (mkState (segments st)
                  (current st ++ [mkPoint VUndefined VUndefined])
                  (startPt st)
                  (Some (mkPoint VUndefined VUndefined)))) /\
  (forall (st : ParseState A) (nums : list (num A)),
      parseStep st (CmdZ, nums) = parseStep st (CmdZ, [])) /\
  (forall text : string, trim text = EmptyString -> operands A text = []).
Proof.
  split; [|split; [|split; [|split]]].
  - intros d Hf. unfold parsePath.
    rewrite <- (commands_letters A) in Hf.
    destruct (@foldM_guarded A (commands A d) (initial A) Hf) as [st Hst].
    rewrite Hst. simpl. eexists. split; [reflexivity|].
    apply flush_nonEmpty.
    apply (@foldM_nonEmpty A (commands A d) (initial A) st Hst). constructor.
  - reflexivity.
  - reflexivity.
  - reflexivity.
  - intros text H. unfold operands. rewrite H. reflexivity.
Qed.

Lemma C9_witness :
  exists shape : Shape F64,
    parsePath F64 "M0,0 L1,0 L1,1 Z" = Ok shape /\
    Forall (fun r => r <> []) shape.
Proof.
  apply (proj1 (C9_parsePath_returns F64)). vm_compute. discriminate.
Defined.

(** A move command without operands leaves a ring of one point with
    undefined coordinates, not an empty contribution; and a curve command
    met before any move or line throws. *)
Lemma C9_counterexample :
  commands F64 "M" = [(CmdM, [])] /\
  parsePath F64 "M" = Ok [[mkPoint VUndefined VUndefined]] /\
  parsePath F64 "C1,2,3,4,5,6" = TypeError.
Proof.
  split; [reflexivity|]. split; reflexivity.
Qed.

(** ** Exact arithmetic on finite numbers *)

Lemma Rltb_true (a b : R) : (a < b)%R -> Rltb a b = true.
Proof. intros H. unfold Rltb. destruct (Rlt_dec a b); [reflexivity|contradiction]. Qed.

Lemma Rltb_false (a b : R) : (b <= a)%R -> Rltb a b = false.
Proof. intros H. unfold Rltb. destruct (Rlt_dec a b); [lra|reflexivity]. Qed.

Lemma Rleb_true (a b : R) : (a <= b)%R -> Rleb a b = true.
Proof. intros H. unfold Rleb. destruct (Rle_dec a b); [reflexivity|contradiction]. Qed.

Lemma Rleb_false (a b : R) : (b < a)%R -> Rleb a b = false.
Proof. intros H. unfold Rleb. destruct (Rle_dec a b); [lra|reflexivity]. Qed.

Lemma Reqb_false (a b : R) : a <> b -> Reqb a b = false.
Proof. intros H. unfold Reqb. destruct (Req_dec_T a b); [contradiction|reflexivity]. Qed.

Lemma Reqb_true (a b : R) : a = b -> Reqb a b = true.
Proof. intros H. unfold Reqb. destruct (Req_dec_T a b); [reflexivity|contradiction]. Qed.

Lemma xdiv_fin (a b : R) : b <> 0%R -> xdiv (XFin a) (XFin b) = XFin (a / b).
Proof. intros H. simpl. rewrite (Reqb_false H). reflexivity. Qed.

Lemma xsqrt_fin (a : R) : (0 <= a)%R -> xsqrt (XFin a) = XFin (R_sqrt.sqrt a).
Proof. intros H. simpl. rewrite (Rltb_false H). reflexivity. Qed.

Lemma bezierCoord_XR (c0 c1 c2 c3 : R) (k : Z) :
  bezierCoord XR (XFin c0) (XFin c1) (XFin c2) (XFin c3) k =
  XFin (bezierR c0 c1 c2 c3 (IZR k / 10)).
Proof.
  unfold bezierCoord. cbn [add sub mul div of_Z XR].
  rewrite xdiv_fin by lra. cbn [xadd xsub xmul].
  f_equal. unfold bezierR. ring.
Qed.

Lemma bezierPoint_XR (P0 P1 P2 P3 : R * R) (k : Z) :
  bezierPoint (fin P0) (fin P1) (fin P2) (fin P3) k =
  fin (bezierAt P0 P1 P2 P3 (IZR k / 10)).
Proof.
  unfold bezierPoint, fin, bezierAt, X, Y, pt. cbn [px py ToNumber fst snd].
  rewrite !bezierCoord_XR. reflexivity.
Qed.

Lemma foldM_app {S T : Type} (body : S -> T -> result S) (l1 l2 : list T) :
  forall s0 s1 : S,
    foldM body l1 s0 = Ok s1 -> foldM body (l1 ++ l2) s0 = foldM body l2 s1.
Proof.
  induction l1 as [|c l1 IH]; intros s0 s1 H; simpl in *.
  - injection H as <-. reflexivity.
  - destruct (body s0 c) as [s|]; [|discriminate]. simpl in *.
    apply IH. exact H.
Qed.

Lemma parseStep_curve (st : ParseState XR) (P0 P1 P2 P3 : R * R)
    (extra : list XReal) :
  curPt st = Some (fin P0) ->
  parseStep st (CmdC, curveOperands P1 P2 P3 ++ extra) =
  Ok (mkState (segments st)
              (current st ++ map (fun t => fin (bezierAt P0 P1 P2 P3 t)) tenths)
              (startPt st) (Some (fin P3))).
Proof.
  intros Hcur. unfold parseStep. cbn [fst snd]. rewrite Hcur.
  set (nums := curveOperands P1 P2 P3 ++ extra).
  change (mkPoint (at_ XR nums 0) (at_ XR nums 1)) with (fin P1).
  change (mkPoint (at_ XR nums 2) (at_ XR nums 3)) with (fin P2).
  change (mkPoint (at_ XR nums 4) (at_ XR nums 5)) with (fin P3).
  cbn [deref mbind result_bind].
  unfold bezierSteps, tenths. cbn [seq map Z.of_nat Pos.of_succ_nat Pos.succ].
  rewrite !bezierPoint_XR. reflexivity.
Qed.

Lemma parseStep_curve_any (A : Arith) (st : ParseState A) (p0 : Point A)
    (nums : list (num A)) :
  curPt st = Some p0 ->
  parseStep st (CmdC, nums) =
  Ok (mkState (segments st)
              (current st ++
               map (bezierPoint p0 (mkPoint (at_ A nums 0) (at_ A nums 1))
                                   (mkPoint (at_ A nums 2) (at_ A nums 3))
                                   (mkPoint (at_ A nums 4) (at_ A nums 5)))
                   bezierSteps)
              (startPt st)
              (Some (mkPoint (at_ A nums 4) (at_ A nums 5)))).
Proof.
  intros Hcur. unfold parseStep. cbn [fst snd]. rewrite Hcur. reflexivity.
Qed.

(** C4: a curve command met while the current point is [P0], with operands
    giving [P1], [P2] and [P3], appends exactly ten points to the current
    ring, the values of the source's Bernstein expression at the steps 1 to
    10, and makes [P3] the current point, in every arithmetic; in exact
    arithmetic the ten points are the values of the cubic Bezier polynomial
    at 0.1, 0.2, ..., 1.0; and in binary64 the ten points parsed for the
    curve from (0,0) by (0,1) and (1,1) to (1,0) are within 1e-9 of them. *)
Theorem C4_cubic_linearisation :
  (forall (A : Arith) (cmds : list (Command * list (num A)))
          (st : ParseState A) (p0 : Point A) (nums : list (num A)),
      foldM (@parseStep A) cmds (initial A) = Ok st ->
      curPt st = Some p0 ->
      let p1 := mkPoint (at_ A nums 0) (at_ A nums 1) in
      let p2 := mkPoint (at_ A nums 2) (at_ A nums 3) in
      let p3 := mkPoint (at_ A nums 4) (at_ A nums 5) in
      exists st' : ParseState A,
        foldM (@parseStep A) (cmds ++ [(CmdC, nums)]) (initial A) = Ok st' /\
        current st' = current st ++ map (bezierPoint p0 p1 p2 p3) bezierSteps /\
        length (current st') = length (current st) + 10 /\
        curPt st' = Some p3) /\
  (forall (cmds : list (Command * list XReal)) (st : ParseState XR)
          (P0 P1 P2 P3 : R * R) (extra : list XReal),
      foldM (@parseStep XR) cmds (initial XR) = Ok st ->
      curPt st = Some (fin P0) ->
      exists st' : ParseState XR,
        foldM (@parseStep XR)
              (cmds ++ [(CmdC, curveOperands P1 P2 P3 ++ extra)]) (initial XR)
          = Ok st' /\
        current st' =
          current st ++ map (fun t => fin (bezierAt P0 P1 P2 P3 t)) tenths /\
        length (current st') = length (current st) + 10 /\
        segments st' = segments st /\
        startPt st' = startPt st /\
        curPt st' = Some (fin P3)) /\
  curveWithinTolerance = true.
Proof.
  split; [|split; [|vm_compute; reflexivity]].
  - intros A cmds st p0 nums Hrun Hcur p1 p2 p3.
    rewrite (foldM_app _ _ _ _ Hrun). cbn [foldM].
    rewrite (parseStep_curve_any st nums Hcur). cbn [mbind result_bind].
    eexists. split; [reflexivity|]. cbn [current curPt].
    split; [reflexivity|]. split; [|reflexivity].
    rewrite length_app. reflexivity.
  - intros cmds st P0 P1 P2 P3 extra Hrun Hcur.
    rewrite (foldM_app _ _ _ _ Hrun). cbn [foldM].
    rewrite (parseStep_curve st P1 P2 P3 extra Hcur).
    cbn [mbind result_bind].
    eexists. split; [reflexivity|]. cbn [current segments startPt curPt].
    split; [reflexivity|]. split; [|split; [reflexivity|split; reflexivity]].
    rewrite length_app. reflexivity.
Qed.

Lemma C4_witness :
  exists st' : ParseState XR,
    foldM (@parseStep XR)
          ([(CmdM, [XFin 0; XFin 0])] ++
           [(CmdC, curveOperands (0, 1)%R (1, 1)%R (1, 0)%R ++ [])])
          (initial XR) = Ok st' /\
    current st' =
      [fin (0, 0)%R] ++
      map (fun t => fin (bezierAt (0, 0)%R (0, 1)%R (1, 1)%R (1, 0)%R t)) tenths /\
    length (current st') = 1 + 10 /\
    segments st' = [] /\
    startPt st' = Some (fin (0, 0)%R) /\
    curPt st' = Some (fin (1, 0)%R).
Proof.
  apply (proj1 (proj2 C4_cubic_linearisation) [(CmdM, [XFin 0; XFin 0])]
           (mkState [] [fin (0, 0)%R] (Some (fin (0, 0)%R)) (Some (fin (0, 0)%R)))
           (0, 0)%R (0, 1)%R (1, 1)%R (1, 0)%R []).
  - reflexivity.
  - reflexivity.
Defined.

(** ** Sums of non-negative binary64 numbers *)

Unset Implicit Arguments.

Section Binary64Sums.

Local Open Scope Z_scope.

Local Abbreviation fexp64 := (fexp prec emax).

Lemma digits2_bounds (m : positive) :
  2 ^ (Zpos (digits2_pos m) - 1) <= Zpos m < 2 ^ Zpos (digits2_pos m).
Proof.
  induction m as [m IH|m IH|]; simpl digits2_pos.
  - rewrite Pos2Z.inj_succ.
    replace (Z.succ (Zpos (digits2_pos m)) - 1) with (Z.succ (Zpos (digits2_pos m) - 1)) by lia.
    rewrite !Z.pow_succ_r by lia. lia.
  - rewrite Pos2Z.inj_succ.
    replace (Z.succ (Zpos (digits2_pos m)) - 1) with (Z.succ (Zpos (digits2_pos m) - 1)) by lia.
    rewrite !Z.pow_succ_r by lia. lia.
  - simpl. lia.
Qed.

(** A larger mantissa, the exponent difference taken into account, has at
    least as many digits. *)
Lemma digits2_mono (m M : positive) (k : Z) :
  0 <= k -> Zpos m * 2 ^ k <= Zpos M ->
  Zpos (digits2_pos m) + k <= Zpos (digits2_pos M).
Proof.
  intros Hk H.
  destruct (Z_le_gt_dec (Zpos (digits2_pos m) + k) (Zpos (digits2_pos M))) as [|Hgt];
    [assumption|exfalso].
  pose proof (digits2_bounds m) as [Hm _].
  pose proof (digits2_bounds M) as [_ HM].
  assert (2 ^ Zpos (digits2_pos M) <= 2 ^ (Zpos (digits2_pos m) - 1 + k))
    by (apply Z.pow_le_mono_r; lia).
  rewrite Z.pow_add_r in H0 by lia.
  assert (0 < 2 ^ k) by (apply Z.pow_pos_nonneg; lia).
  nia.
Qed.

Lemma shr_1_m (mrs : shr_record) :
  0 <= shr_m mrs -> shr_m (shr_1 mrs) = shr_m mrs / 2.
Proof.
  destruct mrs as [m r s]. cbn [shr_m]. intros Hm.
  destruct m as [|[p|p|]|p]; cbn [shr_1 shr_m]; try lia.
  - reflexivity.
  - apply (Z.div_unique _ _ _ 1); lia.
  - apply (Z.div_unique _ _ _ 0); lia.
  - reflexivity.
Qed.

Lemma iter_shr_1_m (p : positive) :
  forall mrs : shr_record,
    0 <= shr_m mrs ->
    shr_m (SpecFloat.iter_pos shr_1 p mrs) = shr_m mrs / 2 ^ Zpos p.
Proof.
  assert (Hnn : forall mrs, 0 <= shr_m mrs -> 0 <= shr_m (shr_1 mrs)).
  { intros mrs H. rewrite shr_1_m by assumption. apply Z.div_pos; lia. }
  induction p as [p IH|p IH|]; intros mrs Hm; cbn [SpecFloat.iter_pos].
  - assert (H1 := Hnn mrs Hm).
    assert (H2 : 0 <= shr_m (SpecFloat.iter_pos shr_1 p (shr_1 mrs))).
    { rewrite IH by assumption. apply Z.div_pos; [assumption|].
      apply Z.pow_pos_nonneg; lia. }
    rewrite IH, IH, shr_1_m by assumption.
    change (Zpos p~1) with (2 * Zpos p + 1).
    replace (2 * Zpos p + 1) with (1 + Zpos p + Zpos p) by lia.
    rewrite !Z.pow_add_r by lia. rewrite Z.pow_1_r.
    assert (0 < 2 ^ Zpos p) by (apply Z.pow_pos_nonneg; lia).
    rewrite !Z.div_div by lia. f_equal. lia.
  - assert (H2 : 0 <= shr_m (SpecFloat.iter_pos shr_1 p mrs)).
    { rewrite IH by assumption. apply Z.div_pos; [assumption|].
      apply Z.pow_pos_nonneg; lia. }
    rewrite IH, IH by assumption.
    change (Zpos p~0) with (2 * Zpos p).
    replace (2 * Zpos p) with (Zpos p + Zpos p) by lia.
    rewrite !Z.pow_add_r by lia.
    assert (0 < 2 ^ Zpos p) by (apply Z.pow_pos_nonneg; lia).
    rewrite !Z.div_div by lia. reflexivity.
  - rewrite shr_1_m by assumption. reflexivity.
Qed.

Lemma fexp64_eq (e : Z) : fexp64 e = Z.max (e - 53) (-1074).
Proof. reflexivity. Qed.

Lemma shr_record_of_loc_m (m : Z) (l : location) :
  shr_m (shr_record_of_loc m l) = m.
Proof. destruct l as [|[]]; reflexivity. Qed.

Lemma shr_spec (m e n : Z) (l : location) :
  0 <= m ->
  snd (shr (shr_record_of_loc m l) e n) = e + Z.max n 0 /\
  shr_m (fst (shr (shr_record_of_loc m l) e n)) = m / 2 ^ Z.max n 0.
Proof.
  intros Hm. unfold shr. destruct n as [|p|p]; cbn [fst snd].
  - rewrite shr_record_of_loc_m. simpl. rewrite Z.div_1_r. lia.
  - rewrite iter_shr_1_m by (rewrite shr_record_of_loc_m; exact Hm).
    rewrite shr_record_of_loc_m. rewrite Z.max_l by lia. split; reflexivity.
  - rewrite shr_record_of_loc_m. simpl. rewrite Z.div_1_r. lia.
Qed.

Lemma shr_fexp_spec (m e : Z) (l : location) :
  0 <= m ->
  let n := Z.max (fexp64 (Zdigits2 m + e) - e) 0 in
  snd (shr_fexp prec emax m e l) = e + n /\
  shr_m (fst (shr_fexp prec emax m e l)) = m / 2 ^ n.
Proof. intros Hm. unfold shr_fexp. apply shr_spec. exact Hm. Qed.

Lemma round_nearest_even_ge (m : Z) (l : location) :
  m <= round_nearest_even m l.
Proof.
  unfold round_nearest_even. destruct l as [|[]]; try lia.
  destruct (Z.even m); lia.
Qed.

Lemma shl_align_value (m : positive) (e e' : Z) :
  e' <= e -> Zpos (fst (shl_align m e e')) = Zpos m * 2 ^ (e - e').
Proof.
  intros H. unfold shl_align. destruct (e' - e) as [|p|p] eqn:Hd.
  - replace (e - e') with 0 by lia. simpl. lia.
  - lia.
  - cbn [fst]. change (Pos.iter xO m p) with (shift_pos p m).
    rewrite shift_pos_correct. replace (e - e') with (Zpos p) by lia.
    change (2 ^ Zpos p) with (Z.pow_pos 2 p). lia.
Qed.

Lemma shl_align_keep (m : positive) (e e' : Z) :
  e <= e' -> shl_align m e e' = (m, e).
Proof.
  intros H. unfold shl_align. destruct (e' - e) eqn:Hd; try reflexivity. lia.
Qed.

(** Rounding a positive mantissa that is at least as large as a canonical
    one gives infinity or a float that is not below it. *)
Lemma binary_round_aux_above (M ma : positive) (ez ea : Z) :
  -1074 <= ez -> ez <= ea ->
  fexp64 (Zpos (digits2_pos ma) + ea) = ea ->
  Zpos ma * 2 ^ (ea - ez) <= Zpos M ->
  binary_round_aux prec emax false (Zpos M) ez loc_Exact = S754_infinity false \/
  exists (mr : positive) (er : Z),
    binary_round_aux prec emax false (Zpos M) ez loc_Exact
      = S754_finite false mr er /\
    (ea < er \/ ea = er /\ (ma <= mr)%positive).
Proof.
  intros Hez Hle Hcan HM.
  unfold binary_round_aux.
  destruct (shr_fexp prec emax (Zpos M) ez loc_Exact) as [mrs1 e1] eqn:H1.
  pose proof (shr_fexp_spec (Zpos M) ez loc_Exact ltac:(lia)) as [He1 Hm1].
  rewrite H1 in He1, Hm1. cbn [fst snd] in He1, Hm1. cbv zeta in He1, Hm1.
  cbn [Zdigits2] in He1, Hm1.
  pose proof (digits2_mono ma M (ea - ez) ltac:(lia) HM) as Hd.
  pose proof (digits2_bounds M) as [HMlo HMhi].
  rewrite fexp64_eq in *.
  set (dM := Zpos (digits2_pos M)) in *.
  set (da := Zpos (digits2_pos ma)) in *.
  assert (Hn1 : Z.max (Z.max (dM + ez - 53) (-1074) - ez) 0
                = Z.max (dM + ez - 53) (-1074) - ez) by lia.
  rewrite Hn1 in He1, Hm1.
  set (n1 := Z.max (dM + ez - 53) (-1074) - ez) in *.
  assert (Hn1' : 0 <= n1) by lia.
  assert (Hge : ea <= e1) by lia.
  assert (Hp1 : 0 < 2 ^ n1) by (apply Z.pow_pos_nonneg; lia).
  assert (Hm1pos : 1 <= shr_m mrs1).
  { rewrite Hm1. apply Z.div_le_lower_bound; [exact Hp1|].
    rewrite Z.mul_1_r.
    destruct (Z.max_spec (dM + ez - 53) (-1074)) as [[_ Hmx]|[_ Hmx]].
    - assert (n1 = 0) by lia. rewrite H. simpl. lia.
    - assert (n1 <= dM - 1) by lia.
      assert (2 ^ n1 <= 2 ^ (dM - 1)) by (apply Z.pow_le_mono_r; lia). lia. }
  assert (Hm1a : e1 = ea -> Zpos ma <= shr_m mrs1).
  { intros He. rewrite Hm1. apply Z.div_le_lower_bound; [exact Hp1|].
    replace n1 with (ea - ez) by lia. lia. }
  set (m2 := round_nearest_even (shr_m mrs1) (loc_of_shr_record mrs1)).
  pose proof (round_nearest_even_ge (shr_m mrs1) (loc_of_shr_record mrs1))
    as Hm2. fold m2 in Hm2.
  destruct (shr_fexp prec emax m2 e1 loc_Exact) as [mrs2 e2] eqn:H2.
  pose proof (shr_fexp_spec m2 e1 loc_Exact ltac:(lia)) as [He2 Hm2'].
  rewrite H2 in He2, Hm2'. cbn [fst snd] in He2, Hm2'. cbv zeta in He2, Hm2'.
  destruct m2 as [|p2|p2] eqn:Em2; [lia| |lia].
  cbn [Zdigits2] in He2, Hm2'. rewrite fexp64_eq in *.
  pose proof (digits2_bounds p2) as [Hp2lo Hp2hi].
  set (d2 := Zpos (digits2_pos p2)) in *.
  set (n2 := Z.max (Z.max (d2 + e1 - 53) (-1074) - e1) 0) in *.
  assert (Hp2 : 0 < 2 ^ n2) by (apply Z.pow_pos_nonneg; lia).
  assert (Hm2pos : 1 <= shr_m mrs2).
  { rewrite Hm2'. apply Z.div_le_lower_bound; [exact Hp2|].
    rewrite Z.mul_1_r.
    assert (n2 <= d2 - 1) by lia.
    assert (2 ^ n2 <= 2 ^ (d2 - 1)) by (apply Z.pow_le_mono_r; lia). lia. }
  destruct (shr_m mrs2) as [|mr|mr] eqn:Emr; [lia| |lia].
  destruct (e2 <=? emax - prec); [right|left; reflexivity].
  exists mr, e2. split; [reflexivity|].
  destruct (Z.eq_dec e2 ea) as [He|Hne]; [right|left; lia].
  split; [lia|].
  assert (n2 = 0) by lia.
  rewrite H in Hm2'. simpl in Hm2'. rewrite Z.div_1_r in Hm2'.
  assert (e1 = ea) by lia. specialize (Hm1a H0). lia.
Qed.

Lemma bounded_canonical (m : positive) (e : Z) :
  SpecFloat.bounded prec emax m e = true ->
  fexp64 (Zpos (digits2_pos m) + e) = e /\ -1074 <= e.
Proof.
  unfold SpecFloat.bounded, canonical_mantissa. intros H.
  apply andb_true_iff in H. destruct H as [H _]. apply Z.eqb_eq in H.
  split; [exact H|]. rewrite fexp64_eq in H. lia.
Qed.

(** The sum of two positive binary64 numbers is not below the first. *)
Lemma SFadd_positive_above (ma ms : positive) (ea es : Z) :
  SpecFloat.bounded prec emax ma ea = true -> SpecFloat.bounded prec emax ms es = true ->
  SF64add (S754_finite false ma ea) (S754_finite false ms es)
    = S754_infinity false \/
  exists (mr : positive) (er : Z),
    SF64add (S754_finite false ma ea) (S754_finite false ms es)
      = S754_finite false mr er /\
    (ea < er \/ ea = er /\ (ma <= mr)%positive).
Proof.
  intros Ha Hs.
  destruct (bounded_canonical _ _ Ha) as [Hca Hea].
  destruct (bounded_canonical _ _ Hs) as [_ Hes].
  unfold SF64add, SFadd. cbn [cond_Zopp].
  set (ez := Z.min ea es).
  pose proof (shl_align_value ma ea ez ltac:(lia)) as Hva.
  set (Ma := fst (shl_align ma ea ez)) in *.
  set (Ms := fst (shl_align ms es ez)) in *.
  change (Zpos Ma + Zpos Ms) with (Zpos (Ma + Ms)).
  cbn [binary_normalize]. unfold binary_round.
  assert (HM : Zpos ma * 2 ^ (ea - ez) <= Zpos (Ma + Ms)) by lia.
  pose proof (digits2_mono ma (Ma + Ms) (ea - ez) ltac:(lia) HM) as Hd.
  rewrite shl_align_keep.
  - apply (binary_round_aux_above (Ma + Ms) ma ez ea); try assumption; lia.
  - rewrite fexp64_eq in *. lia.
Qed.

Lemma binary_round_aux_nonneg (m e : Z) (l : location) :
  binary_round_aux prec emax false m e l = S754_nan \/
  nonnegSF (binary_round_aux prec emax false m e l).
Proof.
  unfold binary_round_aux.
  destruct (shr_fexp prec emax m e l) as [mrs1 e1].
  destruct (shr_fexp prec emax _ e1 loc_Exact) as [mrs2 e2].
  destruct (shr_m mrs2); [right; exact I| |left; reflexivity].
  destruct (e2 <=? emax - prec); right; exact I.
Qed.

Lemma SFsqrt_nonneg (x : spec_float) :
  SF64sqrt x = S754_nan \/ nonnegSF (SF64sqrt x).
Proof.
  destruct x as [s|[]| |[] m e]; cbn; auto.
  unfold SF64sqrt, SFsqrt.
  destruct (SFsqrt_core_binary prec emax (Zpos m) e) as [[mz ez] lz].
  apply binary_round_aux_nonneg.
Qed.

Lemma SFleb_zero (x : spec_float) :
  SFleb (S754_zero false) x = true <-> nonnegSF x.
Proof.
  destruct x as [s|[]| |[] m e]; cbn; split; intros H;
    try reflexivity; try exact I; try discriminate; try contradiction.
Qed.

Lemma SFadd_nonneg (a s : spec_float) :
  valid_binary a = true -> valid_binary s = true ->
  nonnegSF a -> nonnegSF s ->
  nonnegSF (SF64add a s) /\ ~ lexlt (rank (SF64add a s)) (rank a).
Proof.
  intros Va Vs Ha Hs. unfold lexlt.
  destruct a as [sa|[]| |[] ma ea]; try contradiction;
    destruct s as [ss|[]| |[] ms es]; try contradiction.
  - destruct sa, ss; cbn; split; [exact I|lia|exact I|lia|exact I|lia|exact I|lia].
  - cbn. split; [exact I|lia].
  - cbn. split; [exact I|lia].
  - cbn. split; [exact I|lia].
  - cbn. split; [exact I|lia].
  - cbn. split; [exact I|lia].
  - cbn. split; [exact I|lia].
  - cbn. split; [exact I|lia].
  - destruct (SFadd_positive_above ma ms ea es Va Vs)
      as [Hr|(mr & er & Hr & Hle)]; rewrite Hr; cbn [rank fst snd nonnegSF].
    + split; [exact I|lia].
    + split; [exact I|lia].
Qed.

Lemma SFcompare_refl (x : spec_float) :
  x <> S754_nan -> SFcompare x x = Some Eq.
Proof.
  destruct x as [s|[]| |[] m e]; cbn; intros H; try reflexivity;
    try congruence;
    rewrite Z.compare_refl;
    change (PosDef.Pos.compare_cont Eq m m) with (Pos.compare m m);
    rewrite Pos.compare_refl; reflexivity.
Qed.

Lemma SFeqb_self (x : spec_float) : SFeqb x x = true <-> x <> S754_nan.
Proof.
  unfold SFeqb. split.
  - intros H ->. discriminate H.
  - intros H. rewrite (SFcompare_refl x H). reflexivity.
Qed.

Lemma SFleb_not_below (x y : spec_float) :
  SFleb x y = true -> ~ lexlt (rank y) (rank x).
Proof.
  unfold SFleb, lexlt.
  destruct x as [sx|sx| |sx mx ex], y as [sy|sy| |sy my ey];
    try destruct sx; try destruct sy; cbn; try discriminate; try lia.
  - destruct (Z.compare_spec ex ey) as [He|He|He]; try discriminate; try lia.
    subst. change (PosDef.Pos.compare_cont Eq mx my) with (Pos.compare mx my).
    destruct (Pos.compare_spec mx my) as [Hm|Hm|Hm]; cbn; try discriminate; lia.
  - destruct (Z.compare_spec ex ey) as [He|He|He]; try discriminate; try lia.
    subst. change (PosDef.Pos.compare_cont Eq mx my) with (Pos.compare mx my).
    destruct (Pos.compare_spec mx my) as [Hm|Hm|Hm]; cbn; try discriminate; lia.
Qed.

Lemma F64_zero : Prim2SF (f64_of_Z 0) = S754_zero false.
Proof. vm_compute. reflexivity. Qed.

Lemma f64_ltb_rank (a t : float) :
  PrimFloat.ltb a t = true ->
  Prim2SF a <> S754_nan /\ Prim2SF t <> S754_nan /\
  lexlt (rank (Prim2SF a)) (rank (Prim2SF t)).
Proof. rewrite FloatAxioms.ltb_spec. apply SFltb_rank. Qed.

Lemma f64_number (a : float) :
  PrimFloat.eqb a a = true <-> Prim2SF a <> S754_nan.
Proof. rewrite FloatAxioms.eqb_spec. apply SFeqb_self. Qed.

Lemma f64_nonneg (a : float) :
  PrimFloat.leb (f64_of_Z 0) a = true <-> nonnegSF (Prim2SF a).
Proof. rewrite FloatAxioms.leb_spec, F64_zero. apply SFleb_zero. Qed.

Lemma f64_sum_sqrt (a x : float) :
  nonnegSF (Prim2SF a) ->
  Prim2SF (a + PrimFloat.sqrt x)%float <> S754_nan ->
  nonnegSF (Prim2SF (a + PrimFloat.sqrt x)%float) /\
  ~ lexlt (rank (Prim2SF (a + PrimFloat.sqrt x)%float)) (rank (Prim2SF a)).
Proof.
  intros Ha Hr. rewrite add_spec in *.
  destruct (SFsqrt_nonneg (Prim2SF x)) as [Hs|Hs]; rewrite <- sqrt_spec in Hs.
  - exfalso. apply Hr. rewrite Hs. destruct (Prim2SF a); reflexivity.
  - apply (SFadd_nonneg _ _ (Prim2SF_valid a) (Prim2SF_valid (PrimFloat.sqrt x))
             Ha Hs).
Qed.

Lemma F64_accumulates : Accumulates F64.
Proof.
  constructor; cbn [leb ltb eqb add sqrt of_Z F64].
  - vm_compute. reflexivity.
  - intros a t H. apply f64_number. apply (f64_ltb_rank a t H).
  - intros a b H. apply f64_number. apply f64_number in H.
    intros Ha. apply H. rewrite add_spec, Ha. reflexivity.
  - intros a x Ha Hr. apply f64_nonneg. apply f64_nonneg in Ha.
    apply f64_number in Hr. apply (f64_sum_sqrt a x Ha Hr).
  - intros a x t Ha H. apply f64_nonneg in Ha.
    destruct (f64_ltb_rank _ _ H) as (Hr & Ht & Hlt).
    destruct (f64_sum_sqrt a x Ha Hr) as [_ Hge].
    rewrite FloatAxioms.ltb_spec. apply SFltb_rank.
    split; [|split; [exact Ht|]].
    + unfold isNaN. intros E. rewrite E in Ha. exact Ha.
    + unfold lexlt in *. lia.
  - intros a t H. destruct (f64_ltb_rank _ _ H) as (_ & _ & Hlt).
    rewrite FloatAxioms.leb_spec.
    destruct (SFleb (Prim2SF t) (Prim2SF a)) eqn:Hle; [|reflexivity].
    apply SFleb_not_below in Hle. contradiction.
Qed.

End Binary64Sums.

Set Implicit Arguments.

(** ** The arc-length walk past the end *)

Section PastTheEnd.

Variable A : Arith.
Hypothesis HA : Accumulates A.

Local Abbreviation number r := (eqb A r r = true).
Local Abbreviation nonneg r := (leb A (of_Z A 0) r = true).

Lemma ringLength_number (rest : list (Point A)) :
  forall (total : num A) (prev : Point A),
    number (ringLength total prev rest) -> number total.
Proof.
  induction rest as [|q rest IH]; intros total prev H; simpl in H.
  - exact H.
  - apply IH in H. apply (acc_summand HA) in H. exact H.
Qed.

Lemma ringLength_nonneg (rest : list (Point A)) :
  forall (total : num A) (prev : Point A),
    nonneg total -> number (ringLength total prev rest) ->
    nonneg (ringLength total prev rest).
Proof.
  induction rest as [|q rest IH]; intros total prev H0 H; simpl in *.
  - exact H0.
  - apply IH; [|exact H]. apply (acc_nonneg HA); [exact H0|].
    apply (@ringLength_number _ _ _ H).
Qed.

Lemma ringLength_prefix (t : num A) (rest : list (Point A)) :
  forall (total : num A) (prev : Point A),
    nonneg total ->
    ltb A (ringLength total prev rest) t = true -> ltb A total t = true.
Proof.
  induction rest as [|q rest IH]; intros total prev H0 H; simpl in H.
  - exact H.
  - assert (Hq : nonneg (add A total (segLength prev q))).
    { apply (acc_nonneg HA); [exact H0|].
      apply (@ringLength_number rest _ q). apply (acc_number HA _ _ H). }
    exact (acc_prefix HA total _ t H0 (IH _ q Hq H)).
Qed.

Lemma addRing_nonneg (total : num A) (seg : Ring A) :
  nonneg total -> number (addRing total seg) -> nonneg (addRing total seg).
Proof.
  destruct seg as [|p rest]; simpl; [auto|]. apply ringLength_nonneg.
Qed.

Lemma addRing_prefix (t total : num A) (seg : Ring A) :
  nonneg total -> ltb A (addRing total seg) t = true -> ltb A total t = true.
Proof.
  destruct seg as [|p rest]; simpl; [auto|]. apply ringLength_prefix.
Qed.

Lemma totalLength_number (segs : Shape A) :
  forall total : num A,
    number (fold_left (@addRing A) segs total) -> number total.
Proof.
  induction segs as [|seg segs IH]; intros total H; simpl in H.
  - exact H.
  - apply IH in H. destruct seg as [|p rest]; simpl in H; [exact H|].
    apply (@ringLength_number _ _ _ H).
Qed.

Lemma totalLength_prefix (t : num A) (segs : Shape A) :
  forall total : num A,
    nonneg total ->
    ltb A (fold_left (@addRing A) segs total) t = true -> ltb A total t = true.
Proof.
  induction segs as [|seg segs IH]; intros total H0 H; simpl in H.
  - exact H.
  - assert (Hs : nonneg (addRing total seg)).
    { apply (@addRing_nonneg total seg H0).
      apply (@totalLength_number segs). apply (acc_number HA _ _ H). }
    apply (@addRing_prefix t total seg H0). apply (IH _ Hs H).
Qed.

(** Below the length of the ring the walk does not stop in it. *)
Lemma ringWalk_past (t : num A) (rest : list (Point A)) :
  forall (acc : num A) (prev : Point A),
    nonneg acc ->
    ltb A (ringLength acc prev rest) t = true ->
    ringWalk t acc prev rest = inr (ringLength acc prev rest).
Proof.
  induction rest as [|q rest IH]; intros acc prev H0 H; simpl in *.
  - reflexivity.
  - assert (Hq : nonneg (add A acc (segLength prev q))).
    { apply (acc_nonneg HA); [exact H0|].
      apply (@ringLength_number rest _ q). apply (acc_number HA _ _ H). }
    pose proof (@ringLength_prefix t rest _ q Hq H) as Hlt.
    rewrite (acc_strict HA _ _ Hlt). apply (IH _ q Hq H).
Qed.

Lemma walkRing_past (t acc : num A) (seg : Ring A) :
  nonneg acc ->
  ltb A (addRing acc seg) t = true ->
  walkRing t acc seg = inr (addRing acc seg).
Proof.
  destruct seg as [|p rest]; simpl; [reflexivity|]. apply ringWalk_past.
Qed.

Lemma shapeWalk_past (t : num A) (segs : Shape A) :
  forall acc : num A,
    nonneg acc ->
    ltb A (fold_left (@addRing A) segs acc) t = true ->
    shapeWalk t acc segs = inr (fold_left (@addRing A) segs acc).
Proof.
  induction segs as [|seg segs IH]; intros acc H0 H; simpl in *.
  - reflexivity.
  - assert (Hs : nonneg (addRing acc seg)).
    { apply (@addRing_nonneg acc seg H0).
      apply (@totalLength_number segs). apply (acc_number HA _ _ H). }
    pose proof (@totalLength_prefix t segs _ Hs H) as Hlt.
    rewrite (@walkRing_past t acc seg H0 Hlt). apply (IH _ Hs H).
Qed.

End PastTheEnd.

Lemma XR_accumulates : Accumulates XR.
Proof.
  constructor.
  - cbn [leb of_Z XR xleb]. apply Rleb_true. lra.
  - intros a t. cbn [ltb eqb XR].
    destruct a as [|[]|a], t as [|[]|t]; cbn [xltb xeqb Bool.eqb];
      try congruence; intros _; apply Reqb_true; reflexivity.
  - intros a b. cbn [add eqb XR].
    destruct a as [|[]|a], b as [|[]|b]; cbn [xadd xeqb Bool.eqb];
      try congruence; intros _; apply Reqb_true; reflexivity.
  - intros a x. cbn [leb add sqrt eqb of_Z XR].
    destruct x as [|[]|x]; cbn [xsqrt];
      [destruct a as [|[]|a]; cbn [xadd xleb xeqb Bool.eqb]; congruence ..|].
    destruct (Rltb x 0) eqn:Hx.
    + destruct a as [|[]|a]; cbn [xadd xleb xeqb]; congruence.
    + pose proof (sqrt_pos x) as Hs.
      destruct a as [|[]|a]; cbn [xadd xleb xeqb]; try congruence.
      unfold Rleb. destruct (Rle_dec 0 a); [|discriminate].
      intros _ _. destruct (Rle_dec 0 (a + R_sqrt.sqrt x)); [reflexivity|lra].
  - intros a x t _. cbn [ltb add sqrt XR].
    destruct x as [|[]|x]; cbn [xsqrt];
      [destruct a as [|[]|a]; cbn [xadd]; destruct t as [|[]|t];
       cbn [xltb Bool.eqb]; congruence ..|].
    destruct (Rltb x 0) eqn:Hx.
    + destruct a as [|[]|a]; cbn [xadd]; destruct t as [|[]|t];
        cbn [xltb]; congruence.
    + pose proof (sqrt_pos x) as Hs.
      destruct a as [|[]|a]; cbn [xadd]; destruct t as [|[]|t];
        cbn [xltb]; try congruence.
      unfold Rltb. destruct (Rlt_dec (a + R_sqrt.sqrt x) t); [|discriminate].
      intros _. destruct (Rlt_dec a t); [reflexivity|lra].
  - intros a t. cbn [ltb leb XR].
    destruct a as [|[]|a], t as [|[]|t]; cbn [xltb xleb]; try congruence.
    unfold Rltb, Rleb. destruct (Rlt_dec a t); [|discriminate].
    intros _. destruct (Rle_dec t a); [lra|reflexivity].
Qed.

(** C5, as the code has it: for every shape whose last ring has a point
    and every target length strictly above the total length, the walk falls
    through and [pointAtLength] returns the last point of the last ring:
    it neither throws nor reads past the end of an array.  This holds in
    every arithmetic that accumulates, binary64 and exact arithmetic
    included. *)
Theorem C5_past_the_end (A : Arith) (HA : Accumulates A)
    (segs : Shape A) (totalLen targetLen : num A)
    (lastSeg : Ring A) (p : Point A) :
  last segs = Some lastSeg ->
  last lastSeg = Some p ->
  ltb A (computeTotalLength segs) targetLen = true ->
  pointAtLength segs totalLen targetLen = Ok (Some p).
Proof.
  intros Hl Hp Ht. unfold pointAtLength.
  rewrite (@shapeWalk_past A HA targetLen segs _ (acc_zero HA) Ht), Hl, Hp.
  reflexivity.
Qed.

Lemma C5_witness :
  pointAtLength squareA 4%float 5%float = Ok (Some (pt F64 0 0))%float.
Proof.
  apply (@C5_past_the_end F64 F64_accumulates squareA 4%float 5%float
           [pt F64 0 0; pt F64 1 0; pt F64 1 1; pt F64 0 1; pt F64 0 0]%float
           (pt F64 0 0)%float).
  - reflexivity.
  - reflexivity.
  - vm_compute. reflexivity.
Defined.

(** A shape that contains a ring with a point but ends in an empty ring:
    the target 1 is above the total length 0, and the read at index -1 of
    the last ring gives [undefined]. *)
Lemma C5_counterexample :
  let segs : Shape F64 := [[pt F64 0 0]; []]%float in
  PrimFloat.ltb (computeTotalLength segs) 1 = true /\
  pointAtLength segs (computeTotalLength segs) 1%float = Ok None.
Proof.
  split; reflexivity.
Qed.

(** ** The arc-length walk over finite real points *)

Lemma sq_sum_nonneg (a b : R) : (0 <= a * a + b * b)%R.
Proof.
  pose proof (Rle_0_sqr a). pose proof (Rle_0_sqr b). unfold Rsqr in *. lra.
Qed.

Lemma sq_sum_zero (a b : R) : (a * a + b * b = 0)%R -> a = 0%R /\ b = 0%R.
Proof.
  intros H. pose proof (Rle_0_sqr a) as Ha. pose proof (Rle_0_sqr b) as Hb.
  unfold Rsqr in *.
  split; apply Rsqr_0_uniq; unfold Rsqr; lra.
Qed.

Lemma distR_pos (p q : R * R) : (0 <= distR p q)%R.
Proof. apply sqrt_pos. Qed.

Lemma segLength_fin (p q : R * R) :
  segLength (fin p) (fin q) = XFin (distR p q).
Proof.
  unfold segLength, distR, fin, X, Y, pt.
  cbn [px py ToNumber add sub mul sqrt XR xadd xsub xmul].
  apply xsqrt_fin. apply sq_sum_nonneg.
Qed.

Lemma interpolate_fin (t acc : R) (p q : R * R) :
  interpolate (A := XR) (XFin t) (XFin acc) (fin p) (fin q)
  = fin (interpolateR t acc p q).
Proof.
  pose proof (segLength_fin p q) as Hs. unfold segLength in Hs.
  unfold interpolate, interpolateR. rewrite Hs.
  cbn [ltb of_Z XR xltb].
  destruct (Rltb 0 (distR p q)) eqn:Hd.
  - assert (distR p q <> 0%R).
    { unfold Rltb in Hd. destruct (Rlt_dec 0 (distR p q)); [lra|discriminate]. }
    unfold fin, X, Y, pt.
    cbn [px py ToNumber add sub mul div XR xadd xsub xmul fst snd].
    rewrite xdiv_fin by assumption. reflexivity.
  - reflexivity.
Qed.

Lemma ringLength_fin (rest : list (R * R)) :
  forall (total : R) (p : R * R),
    ringLength (A := XR) (XFin total) (fin p) (finRing rest)
    = XFin (ringLengthR total p rest).
Proof.
  induction rest as [|q rest IH]; intros total p.
  - reflexivity.
  - cbn [finRing map ringLength ringLengthR]. rewrite segLength_fin.
    cbn [add XR xadd]. apply IH.
Qed.

Lemma ringLengthR_ge (rest : list (R * R)) :
  forall (total : R) (p : R * R), (total <= ringLengthR total p rest)%R.
Proof.
  induction rest as [|q rest IH]; intros total p; simpl.
  - lra.
  - pose proof (IH (total + distR p q)%R q). pose proof (distR_pos p q). lra.
Qed.

Lemma distR_zero (p q : R * R) : distR p q = 0%R -> p = q.
Proof.
  unfold distR. intros H. apply sqrt_eq_0 in H; [|apply sq_sum_nonneg].
  apply sq_sum_zero in H. destruct H as [Hx Hy].
  destruct p as [x0 y0], q as [x1 y1]. simpl in *.
  f_equal; lra.
Qed.

(** A stretch of zero length consists of one point repeated. *)
Lemma ringLengthR_flat (rest : list (R * R)) :
  forall (total : R) (p v : R * R),
    ringLengthR total p rest = total -> In v (p :: rest) -> v = p.
Proof.
  induction rest as [|q rest IH]; intros total p v H Hv; simpl in *.
  - destruct Hv as [<-|[]]. reflexivity.
  - pose proof (ringLengthR_ge rest (total + distR p q) q) as Hge.
    pose proof (distR_pos p q) as Hd.
    assert (Hz : distR p q = 0%R) by lra.
    apply distR_zero in Hz. subst q.
    destruct Hv as [<-|Hv]; [reflexivity|].
    apply (IH (total + distR p p)%R p v); [|exact Hv].
    rewrite H. pose proof (distR_pos p p). lra.
Qed.

Lemma interpolateR_start (acc : R) (p q : R * R) :
  interpolateR acc acc p q = p.
Proof.
  unfold interpolateR. destruct p as [x0 y0], q as [x1 y1]. simpl.
  destruct (Rltb 0 (distR (x0, y0) (x1, y1))); f_equal; unfold Rdiv; ring.
Qed.

Lemma interpolateR_end (acc : R) (p q : R * R) :
  interpolateR (acc + distR p q) acc p q = q.
Proof.
  unfold interpolateR. destruct (Rltb 0 (distR p q)) eqn:Hd.
  - assert (distR p q <> 0%R).
    { unfold Rltb in Hd. destruct (Rlt_dec 0 (distR p q)); [lra|discriminate]. }
    destruct p as [x0 y0], q as [x1 y1]. simpl fst. simpl snd.
    f_equal; field; assumption.
  - assert (Hz : distR p q = 0%R).
    { unfold Rltb in Hd. pose proof (distR_pos p q).
      destruct (Rlt_dec 0 (distR p q)); [discriminate|lra]. }
    apply distR_zero in Hz. subst q. destruct p as [x0 y0]. simpl.
    f_equal; ring.
Qed.

(** Called with the cumulative length of vertex [i], the walk over one
    ring stops at that vertex; only on a ring of a single point does it
    run through. *)
Lemma ringWalk_vertex (rest : list (R * R)) :
  forall (acc : R) (p v : R * R) (i : nat),
    (p :: rest) !! i = Some v ->
    ringWalk (A := XR) (XFin (ringLengthR acc p (take i rest))) (XFin acc)
             (fin p) (finRing rest) = inl (fin v)
    \/ rest = [] /\ i = 0.
Proof.
  induction rest as [|q rest IH]; intros acc p v i Hv.
  - right. split; [reflexivity|].
    destruct i; [reflexivity|]. simpl in Hv. rewrite lookup_nil in Hv.
    discriminate.
  - left. cbn [finRing map ringWalk]. rewrite segLength_fin.
    cbn [add leb XR xadd xleb].
    destruct i as [|i].
    + simpl in Hv. injection Hv as <-. simpl take. simpl ringLengthR.
      rewrite Rleb_true by (pose proof (distR_pos p q); lra).
      rewrite interpolate_fin, interpolateR_start. reflexivity.
    + simpl in Hv. simpl take. simpl ringLengthR.
      pose proof (ringLengthR_ge (take i rest) (acc + distR p q) q) as Hge.
      destruct (Rle_dec (ringLengthR (acc + distR p q) q (take i rest))
                        (acc + distR p q)) as [Hle|Hgt].
      * rewrite Rleb_true by exact Hle.
        assert (He : ringLengthR (acc + distR p q) q (take i rest)
                     = (acc + distR p q)%R) by lra.
        rewrite He, interpolate_fin, interpolateR_end.
        assert (Hq : v = q).
        { apply (@ringLengthR_flat (take i rest) (acc + distR p q)%R q v He).
          destruct i as [|i]; simpl in Hv.
          - injection Hv as <-. left. reflexivity.
          - right. apply list_elem_of_In.
            apply list_elem_of_lookup. exists i.
            rewrite lookup_take_lt by lia. exact Hv. }
        rewrite Hq. reflexivity.
      * rewrite Rleb_false by lra.
        destruct (IH (acc + distR p q)%R q v i Hv) as [Hw|[-> ->]].
        -- exact Hw.
        -- simpl in Hgt. lra.
Qed.

(** ** The walk from length 0 *)

Section ShortRings.

Variable A : Arith.

Lemma short_ring (t acc : num A) (seg : Ring A) :
  short seg -> walkRing t acc seg = inr acc /\ addRing acc seg = acc.
Proof.
  unfold short. destruct seg as [|p [|q rest]]; simpl; intros H;
    [split; reflexivity|split; reflexivity|lia].
Qed.

Lemma short_rings_skipped (t : num A) (pre segs : Shape A) :
  Forall short pre ->
  forall acc : num A,
    shapeWalk t acc (pre ++ segs) = shapeWalk t acc segs /\
    fold_left (@addRing A) (pre ++ segs) acc = fold_left (@addRing A) segs acc.
Proof.
  induction 1 as [|seg pre Hs _ IH]; intros acc; simpl.
  - split; reflexivity.
  - destruct (short_ring t acc Hs) as [-> ->]. apply IH.
Qed.

End ShortRings.

(** ** Symmetry of the fallback *)

Lemma xsub_swap (a b : XReal) : xsub b a = xopp (xsub a b).
Proof.
  destruct a as [|[]|a], b as [|[]|b]; simpl; try reflexivity.
  f_equal. ring.
Qed.

Lemma xmul_opp_opp (a : XReal) : xmul (xopp a) (xopp a) = xmul a a.
Proof.
  destruct a as [|[]|a]; simpl; try reflexivity. f_equal. ring.
Qed.

Lemma bboxFallback_sym (sA sB : Shape XR) :
  bboxFallback sA sB = bboxFallback sB sA.
Proof.
  unfold bboxFallback. cbn [add div of_Z XR].
  set (a := bx (computeBBox sA)). set (b := bx (computeBBox sB)).
  set (c := by_ (computeBBox sA)). set (d := by_ (computeBBox sB)).
  set (w := xdiv (width (computeBBox sA)) (XFin 2)).
  set (v := xdiv (width (computeBBox sB)) (XFin 2)).
  set (h := xdiv (height (computeBBox sA)) (XFin 2)).
  set (k := xdiv (height (computeBBox sB)) (XFin 2)).
  assert (E : forall a w b v : XReal,
             xadd (xadd (xadd a w) b) v = xadd (xadd (xadd b v) a) w).
  { intros a0 w0 b0 v0.
    rewrite <- (xadd_assoc (xadd a0 w0) b0 v0).
    rewrite <- (xadd_assoc (xadd b0 v0) a0 w0). apply xadd_comm. }
  rewrite (E a w b v), (E c h d k). reflexivity.
Qed.

Lemma foldM_elem {S T : Type} (body : S -> T -> result S) (l : list T) :
  forall s s' : S,
    foldM body l s = Ok s' ->
    forall x, In x l -> exists s1 s2, body s1 x = Ok s2.
Proof.
  induction l as [|y l IH]; intros s s' H x Hx; simpl in *.
  - destruct Hx.
  - destruct (body s y) as [s1|] eqn:Hy; [|discriminate]. simpl in H.
    destruct Hx as [<-|Hx].
    + exists s, s1. exact Hy.
    + apply (IH s1 s' H x Hx).
Qed.

Lemma upto_zero (n : nat) : In 0%Z (upto n).
Proof. left. reflexivity. Qed.

(** * Further properties of the code *)

Unset Implicit Arguments.

(** ** Order of the comparisons *)

Lemma SFleb_rank (x y : spec_float) :
  SFleb x y = true <-> ~ isNaN x /\ ~ isNaN y /\ ~ lexlt (rank y) (rank x).
Proof.
  unfold SFleb, isNaN, lexlt.
  destruct x as [sx|sx| |sx mx ex], y as [sy|sy| |sy my ey];
    try destruct sx; try destruct sy; cbn;
    try (split; [intros H; try discriminate;
                 (split; [discriminate|split; [discriminate|lia]])
                |intros (H1 & H2 & H3); try reflexivity; try congruence; lia]).
  - destruct (Z.compare_spec ex ey) as [He|He|He].
    + subst. change (PosDef.Pos.compare_cont Eq mx my) with (Pos.compare mx my).
      destruct (Pos.compare_spec mx my) as [Hm|Hm|Hm]; cbn;
        (split; [intros H; try discriminate;
                 (split; [discriminate|split; [discriminate|lia]])
                |intros (H1 & H2 & H3); try reflexivity; lia]).
    + split; [intros H; try discriminate;
                 (split; [discriminate|split; [discriminate|lia]])
                |intros (H1 & H2 & H3); try reflexivity; lia].
    + split; [intros H; try discriminate;
                 (split; [discriminate|split; [discriminate|lia]])
                |intros (H1 & H2 & H3); try reflexivity; lia].
  - destruct (Z.compare_spec ex ey) as [He|He|He].
    + subst. change (PosDef.Pos.compare_cont Eq mx my) with (Pos.compare mx my).
      destruct (Pos.compare_spec mx my) as [Hm|Hm|Hm]; cbn;
        (split; [intros H; try discriminate;
                 (split; [discriminate|split; [discriminate|lia]])
                |intros (H1 & H2 & H3); try reflexivity; lia]).
    + split; [intros H; try discriminate;
                 (split; [discriminate|split; [discriminate|lia]])
                |intros (H1 & H2 & H3); try reflexivity; lia].
    + split; [intros H; try discriminate;
                 (split; [discriminate|split; [discriminate|lia]])
                |intros (H1 & H2 & H3); try reflexivity; lia].
Qed.

Lemma f64_leb_rank (a b : float) :
  PrimFloat.leb a b = true <->
  Prim2SF a <> S754_nan /\ Prim2SF b <> S754_nan /\
  ~ lexlt (rank (Prim2SF b)) (rank (Prim2SF a)).
Proof. rewrite FloatAxioms.leb_spec. apply SFleb_rank. Qed.

Lemma f64_ltb_rank_iff (a b : float) :
  PrimFloat.ltb a b = true <->
  Prim2SF a <> S754_nan /\ Prim2SF b <> S754_nan /\
  lexlt (rank (Prim2SF a)) (rank (Prim2SF b)).
Proof. rewrite FloatAxioms.ltb_spec. apply SFltb_rank. Qed.

Lemma F64_ordered : Ordered F64.
Proof.
  constructor; cbn [leb ltb eqb pinf ninf F64].
  - reflexivity.
  - reflexivity.
  - intros a. destruct (PrimFloat.ltb infinity a) eqn:H; [|reflexivity].
    apply f64_ltb_rank_iff in H. destruct H as (_ & Ha & Hl).
    change (Prim2SF infinity) with (S754_infinity false) in Hl.
    unfold lexlt in Hl.
    destruct (Prim2SF a) as [?|[]| |[] ? ?]; cbn in Hl; try lia; congruence.
  - intros a. destruct (PrimFloat.ltb a neg_infinity) eqn:H; [|reflexivity].
    apply f64_ltb_rank_iff in H. destruct H as (Ha & _ & Hl).
    change (Prim2SF neg_infinity) with (S754_infinity true) in Hl.
    unfold lexlt in Hl.
    destruct (Prim2SF a) as [?|[]| |[] ? ?]; cbn in Hl; try lia; congruence.
  - intros a b H. apply f64_number. apply f64_leb_rank in H. apply H.
  - intros a b H. apply f64_number. apply f64_leb_rank in H. apply H.
  - intros a H. apply f64_number in H. apply f64_leb_rank.
    split; [exact H|]. split; [exact H|]. unfold lexlt. lia.
  - intros a b H. apply f64_ltb_rank_iff in H. destruct H as (Ha & Hb & Hl).
    apply f64_leb_rank. split; [exact Ha|]. split; [exact Hb|].
    unfold lexlt in *. lia.
  - intros a b Ha Hb H. apply f64_number in Ha. apply f64_number in Hb.
    apply f64_leb_rank. split; [exact Hb|]. split; [exact Ha|].
    intros Hl. assert (PrimFloat.ltb a b = true) as E; [|congruence].
    apply f64_ltb_rank_iff. split; [exact Ha|]. split; [exact Hb|exact Hl].
  - intros a b c H1 H2. apply f64_leb_rank in H1. apply f64_leb_rank in H2.
    destruct H1 as (Ha & Hb & H1), H2 as (_ & Hc & H2).
    apply f64_leb_rank. split; [exact Ha|]. split; [exact Hc|].
    unfold lexlt in *. lia.
  - intros a b H. destruct (PrimFloat.leb b a) eqn:E; [|reflexivity].
    apply f64_ltb_rank_iff in H. apply f64_leb_rank in E.
    destruct H as (_ & _ & H), E as (_ & _ & E). contradiction.
Qed.

Lemma XR_ordered : Ordered XR.
Proof.
  constructor; cbn [leb ltb eqb pinf ninf XR].
  - reflexivity.
  - reflexivity.
  - intros [|[]|a]; reflexivity.
  - intros [|[]|a]; reflexivity.
  - intros [|[]|a] [|[]|b]; cbn; try discriminate; intros _; try reflexivity;
      apply Reqb_true; reflexivity.
  - intros [|[]|a] [|[]|b]; cbn; try discriminate; intros _; try reflexivity;
      apply Reqb_true; reflexivity.
  - intros [|[]|a]; cbn; try discriminate; intros _; try reflexivity.
    apply Rleb_true. lra.
  - intros [|[]|a] [|[]|b]; cbn; try discriminate; intros H; try reflexivity.
    unfold Rltb in H. destruct (Rlt_dec a b); [|discriminate].
    apply Rleb_true. lra.
  - intros [|[]|a] [|[]|b]; cbn; try discriminate; intros _ _ H;
      try reflexivity; try discriminate.
    unfold Rltb in H. destruct (Rlt_dec a b); [discriminate|].
    apply Rleb_true. lra.
  - intros [|[]|a] [|[]|b] [|[]|c]; cbn; try discriminate;
      intros H1 H2; try reflexivity.
    unfold Rleb in *. destruct (Rle_dec a b); [|discriminate].
    destruct (Rle_dec b c); [|discriminate].
    destruct (Rle_dec a c); [reflexivity|lra].
  - intros [|[]|a] [|[]|b]; cbn; try discriminate; intros H; try reflexivity.
    unfold Rltb in H. destruct (Rlt_dec a b); [|discriminate].
    apply Rleb_false. lra.
Qed.

(** ** The extremes of a bounding box *)

Section Extremes.

Variable A : Arith.
Hypothesis HO : Ordered A.

Local Abbreviation number a := (eqb A a a = true).

Lemma lower_number (c : value A) (m : num A) : number m -> number (lower c m).
Proof.
  intros Hm. destruct c as [|a]; simpl; [exact Hm|].
  destruct (ltb A a m) eqn:H; [|exact Hm]. exact (ord_left HO _ _ (ord_below HO _ _ H)).
Qed.

Lemma raise_number (c : value A) (m : num A) : number m -> number (raise c m).
Proof.
  intros Hm. destruct c as [|a]; simpl; [exact Hm|].
  destruct (ltb A m a) eqn:H; [|exact Hm]. exact (ord_right HO _ _ (ord_below HO _ _ H)).
Qed.

Lemma lower_below (c : value A) (m : num A) :
  number m -> leb A (lower c m) m = true.
Proof.
  intros Hm. destruct c as [|a]; simpl; [exact (ord_refl HO _ Hm)|].
  destruct (ltb A a m) eqn:H; [exact (ord_below HO _ _ H)|exact (ord_refl HO _ Hm)].
Qed.

Lemma raise_above (c : value A) (m : num A) :
  number m -> leb A m (raise c m) = true.
Proof.
  intros Hm. destruct c as [|a]; simpl; [exact (ord_refl HO _ Hm)|].
  destruct (ltb A m a) eqn:H; [exact (ord_below HO _ _ H)|exact (ord_refl HO _ Hm)].
Qed.

Lemma lower_reaches (a m : num A) :
  number a -> number m -> leb A (lower (VNumber a) m) a = true.
Proof.
  intros Ha Hm. simpl. destruct (ltb A a m) eqn:H.
  - exact (ord_refl HO _ Ha).
  - exact (ord_total HO _ _ Ha Hm H).
Qed.

Lemma raise_reaches (a m : num A) :
  number a -> number m -> leb A a (raise (VNumber a) m) = true.
Proof.
  intros Ha Hm. simpl. destruct (ltb A m a) eqn:H.
  - exact (ord_refl HO _ Ha).
  - exact (ord_total HO _ _ Hm Ha H).
Qed.

(** A running minimum over the coordinates [f] of a list: it stays a
    number, it only goes down, and it ends at or below every coordinate
    that is a number. *)
Lemma lower_fold {T : Type} (f : T -> value A) (l : list T) :
  forall m : num A, number m ->
    let m' := fold_left (fun m x => lower (f x) m) l m in
    number m' /\ leb A m' m = true /\
    forall x a, In x l -> f x = VNumber a -> number a -> leb A m' a = true.
Proof.
  induction l as [|y l IH]; intros m Hm; simpl.
  - split; [exact Hm|]. split; [exact (ord_refl HO _ Hm)|]. intros x a [].
  - destruct (IH (lower (f y) m) (lower_number (f y) m Hm)) as (H1 & H2 & H3).
    split; [exact H1|]. split.
    + exact (ord_trans HO _ _ _ H2 (lower_below (f y) m Hm)).
    + intros x a [<-|Hx] Hf Ha.
      * apply (ord_trans HO _ _ _ H2). rewrite Hf.
        exact (lower_reaches a m Ha Hm).
      * exact (H3 x a Hx Hf Ha).
Qed.

Lemma raise_fold {T : Type} (f : T -> value A) (l : list T) :
  forall m : num A, number m ->
    let m' := fold_left (fun m x => raise (f x) m) l m in
    number m' /\ leb A m m' = true /\
    forall x a, In x l -> f x = VNumber a -> number a -> leb A a m' = true.
Proof.
  induction l as [|y l IH]; intros m Hm; simpl.
  - split; [exact Hm|]. split; [exact (ord_refl HO _ Hm)|]. intros x a [].
  - destruct (IH (raise (f y) m) (raise_number (f y) m Hm)) as (H1 & H2 & H3).
    split; [exact H1|]. split.
    + exact (ord_trans HO _ _ _ (raise_above (f y) m Hm) H2).
    + intros x a [<-|Hx] Hf Ha.
      * refine (ord_trans HO _ _ _ _ H2). rewrite Hf.
        exact (raise_reaches a m Ha Hm).
      * exact (H3 x a Hx Hf Ha).
Qed.

(** The four extremes of [polygonInBounds] are four independent folds. *)
Lemma polygonExtent_folds (ring : GeoRing A) :
  forall e : num A * num A * num A * num A,
    fold_left (@extentStep A) ring e =
    (fold_left (fun m c => lower (at_ A c 0) m) ring (fst (fst (fst e))),
     fold_left (fun m c => raise (at_ A c 0) m) ring (snd (fst (fst e))),
     fold_left (fun m c => lower (at_ A c 1) m) ring (snd (fst e)),
     fold_left (fun m c => raise (at_ A c 1) m) ring (snd e)).
Proof.
  induction ring as [|c ring IH]; intros [[[a b] c'] d]; simpl.
  - reflexivity.
  - rewrite IH. reflexivity.
Qed.

(** So are those of [computeBBox], over the points of all rings. *)
Lemma bboxExtent_folds (segs : Shape A) :
  forall e : num A * num A * num A * num A,
    fold_left (fun b seg => fold_left (@bboxPoint A) seg b) segs e =
    (fold_left (fun m p => lower (px p) m) (concat segs) (fst (fst (fst e))),
     fold_left (fun m p => lower (py p) m) (concat segs) (snd (fst (fst e))),
     fold_left (fun m p => raise (px p) m) (concat segs) (snd (fst e)),
     fold_left (fun m p => raise (py p) m) (concat segs) (snd e)).
Proof.
  assert (Hring : forall (seg : Ring A) e,
    fold_left (@bboxPoint A) seg e =
    (fold_left (fun m p => lower (px p) m) seg (fst (fst (fst e))),
     fold_left (fun m p => lower (py p) m) seg (snd (fst (fst e))),
     fold_left (fun m p => raise (px p) m) seg (snd (fst e)),
     fold_left (fun m p => raise (py p) m) seg (snd e))).
  { induction seg as [|p seg IH]; intros [[[a b] c] d]; simpl.
    - reflexivity.
    - rewrite IH. reflexivity. }
  induction segs as [|seg segs IH]; intros [[[a b] c] d]; simpl.
  - reflexivity.
  - rewrite IH, Hring, !fold_left_app. reflexivity.
Qed.

End Extremes.

Lemma fold_lower_mem (A : Arith) {T : Type} (f : T -> value A) (l : list T) :
  forall m : num A,
    let m' := fold_left (fun m x => lower (f x) m) l m in
    m' = m \/ exists x, In x l /\ f x = VNumber m'.
Proof.
  induction l as [|y l IH]; intros m; simpl; [left; reflexivity|].
  destruct (IH (lower (f y) m)) as [H|(x & Hx & Hf)].
  - rewrite H. destruct (f y) as [|a] eqn:Hy; simpl; [left; reflexivity|].
    destruct (ltb A a m); [|left; reflexivity].
    right. exists y. split; [left; reflexivity|exact Hy].
  - right. exists x. split; [right; exact Hx|exact Hf].
Qed.

Lemma fold_raise_mem (A : Arith) {T : Type} (f : T -> value A) (l : list T) :
  forall m : num A,
    let m' := fold_left (fun m x => raise (f x) m) l m in
    m' = m \/ exists x, In x l /\ f x = VNumber m'.
Proof.
  induction l as [|y l IH]; intros m; simpl; [left; reflexivity|].
  destruct (IH (raise (f y) m)) as [H|(x & Hx & Hf)].
  - rewrite H. destruct (f y) as [|a] eqn:Hy; simpl; [left; reflexivity|].
    destruct (ltb A m a); [|left; reflexivity].
    right. exists y. split; [left; reflexivity|exact Hy].
  - right. exists x. split; [right; exact Hx|exact Hf].
Qed.

Lemma pointOf_concat (A : Arith) (segs : Shape A) (p : Point A) :
  pointOf segs p <-> In p (concat segs).
Proof.
  unfold pointOf. rewrite in_concat. split.
  - intros (seg & H1 & H2). exists seg. split; assumption.
  - intros (seg & H1 & H2). exists seg. split; assumption.
Qed.

Lemma bboxExtent_eq (A : Arith) (segs : Shape A) :
  bboxExtent segs =
  (fold_left (fun m p => lower (px p) m) (concat segs) (pinf A),
   fold_left (fun m p => lower (py p) m) (concat segs) (pinf A),
   fold_left (fun m p => raise (px p) m) (concat segs) (ninf A),
   fold_left (fun m p => raise (py p) m) (concat segs) (ninf A)).
Proof. unfold bboxExtent. rewrite bboxExtent_folds. reflexivity. Qed.

(** ** The extremes are attained *)

Lemma F64_extremal : Extremal F64.
Proof.
  constructor; cbn [leb pinf ninf F64]; intros a H;
    apply f64_leb_rank in H; destruct H as (H1 & H2 & H3);
    apply FloatAxioms.Prim2SF_inj.
  - change (Prim2SF infinity) with (S754_infinity false) in *.
    unfold lexlt in H3.
    destruct (Prim2SF a) as [?|[]| |[] ? ?]; cbn in H3; try lia; congruence.
  - change (Prim2SF neg_infinity) with (S754_infinity true) in *.
    unfold lexlt in H3.
    destruct (Prim2SF a) as [?|[]| |[] ? ?]; cbn in H3; try lia; congruence.
Qed.

Lemma XR_extremal : Extremal XR.
Proof.
  constructor; cbn [leb pinf ninf XR].
  - intros [|[]|a]; cbn; congruence.
  - intros [|[]|a]; cbn; congruence.
Qed.

Section Attained.

Variable A : Arith.
Hypothesis HO : Ordered A.
Hypothesis HE : Extremal A.

Local Abbreviation number a := (eqb A a a = true).

(** A running minimum from Infinity ends at a coordinate of the list as
    soon as one coordinate is a number. *)
Lemma lower_attained {T : Type} (f : T -> value A) (l : list T) (x : T)
    (a : num A) :
  In x l -> f x = VNumber a -> number a ->
  let m := fold_left (fun m x => lower (f x) m) l (pinf A) in
  number m /\ exists y, In y l /\ f y = VNumber m.
Proof.
  intros Hx Hf Ha m.
  destruct (lower_fold A HO f l (pinf A) (ord_pinf HO)) as (H1 & _ & H3).
  fold m in H1, H3. split; [exact H1|].
  destruct (fold_lower_mem A f l (pinf A)) as [E|H]; [|exact H].
  fold m in E. exists x. split; [exact Hx|].
  specialize (H3 x a Hx Hf Ha). rewrite E in H3.
  rewrite (top_only HE a H3) in Hf. rewrite E. exact Hf.
Qed.

Lemma raise_attained {T : Type} (f : T -> value A) (l : list T) (x : T)
    (a : num A) :
  In x l -> f x = VNumber a -> number a ->
  let m := fold_left (fun m x => raise (f x) m) l (ninf A) in
  number m /\ exists y, In y l /\ f y = VNumber m.
Proof.
  intros Hx Hf Ha m.
  destruct (raise_fold A HO f l (ninf A) (ord_ninf HO)) as (H1 & _ & H3).
  fold m in H1, H3. split; [exact H1|].
  destruct (fold_raise_mem A f l (ninf A)) as [E|H]; [|exact H].
  fold m in E. exists x. split; [exact Hx|].
  specialize (H3 x a Hx Hf Ha). rewrite E in H3.
  rewrite (bottom_only HE a H3) in Hf. rewrite E. exact Hf.
Qed.

(** Without a coordinate that is a number the two searches stay where
    they started. *)
Lemma lower_untouched {T : Type} (f : T -> value A) (l : list T) (m : num A) :
  (forall x, In x l -> ~ isNumber (f x)) ->
  fold_left (fun m x => lower (f x) m) l m = m.
Proof.
  induction l as [|y l IH]; intros H; simpl; [reflexivity|].
  assert (E : lower (f y) m = m).
  { destruct (f y) as [|a] eqn:Hy; simpl; [reflexivity|].
    destruct (ltb A a m) eqn:Hl; [|reflexivity].
    exfalso. apply (H y (or_introl eq_refl)). rewrite Hy. simpl.
    exact (ord_left HO _ _ (ord_below HO _ _ Hl)). }
  rewrite E. apply IH. intros x Hx. apply H. right. exact Hx.
Qed.

Lemma raise_untouched {T : Type} (f : T -> value A) (l : list T) (m : num A) :
  (forall x, In x l -> ~ isNumber (f x)) ->
  fold_left (fun m x => raise (f x) m) l m = m.
Proof.
  induction l as [|y l IH]; intros H; simpl; [reflexivity|].
  assert (E : raise (f y) m = m).
  { destruct (f y) as [|a] eqn:Hy; simpl; [reflexivity|].
    destruct (ltb A m a) eqn:Hl; [|reflexivity].
    exfalso. apply (H y (or_introl eq_refl)). rewrite Hy. simpl.
    exact (ord_right HO _ _ (ord_below HO _ _ Hl)). }
  rewrite E. apply IH. intros x Hx. apply H. right. exact Hx.
Qed.

(** The two folds along one coordinate span the shape. *)
Lemma folds_span (segs : Shape A) (coord : Point A -> value A) :
  (exists p, pointOf segs p /\ isNumber (coord p)) ->
  spans segs coord
        (fold_left (fun m p => lower (coord p) m) (concat segs) (pinf A))
        (sub A (fold_left (fun m p => raise (coord p) m) (concat segs) (ninf A))
               (fold_left (fun m p => lower (coord p) m) (concat segs) (pinf A))).
Proof.
  intros (p & Hp & Hn). apply pointOf_concat in Hp.
  destruct (coord p) as [|a] eqn:Hc; [destruct Hn|]. cbn [isNumber] in Hn.
  destruct (lower_attained coord (concat segs) p a Hp Hc Hn) as (N1 & lo & L1 & L2).
  destruct (raise_attained coord (concat segs) p a Hp Hc Hn) as (N2 & hi & R1 & R2).
  cbv zeta in N1, L2, N2, R2.
  exists lo, hi.
  split; [apply pointOf_concat; exact L1|].
  split; [apply pointOf_concat; exact R1|].
  rewrite L2, R2. cbn [isNumber ToNumber].
  split; [exact N1|]. split; [exact N2|].
  split; [reflexivity|]. split; [reflexivity|].
  intros q Hq Hqn. apply pointOf_concat in Hq.
  destruct (coord q) as [|b] eqn:Hb; [destruct Hqn|]. cbn [isNumber ToNumber] in *.
  split.
  - exact (proj2 (proj2 (lower_fold A HO coord (concat segs) (pinf A)
             (ord_pinf HO))) q b Hq Hb Hqn).
  - exact (proj2 (proj2 (raise_fold A HO coord (concat segs) (ninf A)
             (ord_ninf HO))) q b Hq Hb Hqn).
Qed.

End Attained.

Lemma pointOf_fin (s : list (list (R * R))) (q : Point XR) :
  pointOf (finShape s) q <-> exists c, pointIn s c /\ q = fin c.
Proof.
  unfold pointOf, pointIn, finShape, finRing. split.
  - intros (seg & H1 & H2). apply in_map_iff in H1. destruct H1 as (r & <- & Hr).
    apply in_map_iff in H2. destruct H2 as (c & <- & Hc).
    exists c. split; [exists r; split; assumption|reflexivity].
  - intros (c & (r & Hr & Hc) & ->). exists (map fin r).
    split; [apply in_map; exact Hr|apply in_map; exact Hc].
Qed.

Lemma fin_numbers (c : R * R) : isNumber (px (fin c)) /\ isNumber (py (fin c)).
Proof. split; cbn; apply Reqb_true; reflexivity. Qed.

Lemma Rleb_le (a b : R) : Rleb a b = true -> (a <= b)%R.
Proof. unfold Rleb. destruct (Rle_dec a b); [auto|discriminate]. Qed.

(** One coordinate of a box that spans a shape of finite points. *)
Lemma spans_fin (s : list (list (R * R))) (coord : Point XR -> value XR)
    (part : R * R -> R) (start size : XReal) :
  (forall c, coord (fin c) = @VNumber XR (XFin (part c))) ->
  spans (finShape s) coord start size ->
  exists x0 w : R,
    start = XFin x0 /\ size = XFin w /\
    (forall c, pointIn s c -> (x0 <= part c <= x0 + w)%R) /\
    (exists c, pointIn s c /\ part c = x0) /\
    (exists c, pointIn s c /\ part c = (x0 + w)%R).
Proof.
  intros Hc (lo & hi & L & H & _ & _ & -> & -> & Hall).
  apply pointOf_fin in L. destruct L as (cl & Hl & ->).
  apply pointOf_fin in H. destruct H as (ch & Hh & ->).
  rewrite !Hc in *. cbn [ToNumber sub XR xsub] in *.
  exists (part cl), (part ch - part cl)%R.
  split; [reflexivity|]. split; [reflexivity|]. split; [|split].
  - intros c Hin.
    destruct (Hall (fin c)) as [H1 H2].
    + apply pointOf_fin. exists c. split; [exact Hin|reflexivity].
    + rewrite Hc. cbn. apply Reqb_true. reflexivity.
    + rewrite Hc in H1, H2. cbn [ToNumber leb XR xleb] in H1, H2.
      apply Rleb_le in H1. apply Rleb_le in H2. lra.
  - exists cl. split; [exact Hl|reflexivity].
  - exists ch. split; [exact Hh|lra].
Qed.

(** X1: the box returned by [computeBBox] is the tight one.  Along x, as
    soon as one point of the shape has an x that is a number, [x] is the
    smallest such x and [width] is the largest such x minus the smallest,
    both taken at points of the shape, so that every x that is a number
    lies between them; without such a point the box is left at
    [x = Infinity] and [width = -Infinity - Infinity].  The same holds
    along y.  In exact arithmetic, on a shape of finite points with at
    least one point, every point lies in the rectangle from [(x, y)] to
    [(x + width, y + height)] and each of its four sides holds a point of
    the shape. *)
Theorem computeBBox_contains :
  (forall (A : Arith) (HO : Ordered A) (HE : Extremal A) (segs : Shape A),
      let b := computeBBox segs in
      ((exists p, pointOf segs p /\ isNumber (px p)) ->
       spans segs (@px A) (bx b) (width b)) /\
      ((exists p, pointOf segs p /\ isNumber (py p)) ->
       spans segs (@py A) (by_ b) (height b)) /\
      ((forall p, pointOf segs p -> ~ isNumber (px p)) ->
       bx b = pinf A /\ width b = sub A (ninf A) (pinf A)) /\
      ((forall p, pointOf segs p -> ~ isNumber (py p)) ->
       by_ b = pinf A /\ height b = sub A (ninf A) (pinf A))) /\
  (forall s : list (list (R * R)),
      (exists c, pointIn s c) ->
      exists x0 y0 w h : R,
        computeBBox (finShape s) =
        mkBBox (A := XR) (XFin x0) (XFin y0) (XFin w) (XFin h) /\
        (forall c, pointIn s c ->
                   (x0 <= fst c <= x0 + w)%R /\ (y0 <= snd c <= y0 + h)%R) /\
        (exists c, pointIn s c /\ fst c = x0) /\
        (exists c, pointIn s c /\ fst c = (x0 + w)%R) /\
        (exists c, pointIn s c /\ snd c = y0) /\
        (exists c, pointIn s c /\ snd c = (y0 + h)%R)).
Proof.
  assert (G : forall (A : Arith) (HO : Ordered A) (HE : Extremal A)
                     (segs : Shape A),
      let b := computeBBox segs in
      ((exists p, pointOf segs p /\ isNumber (px p)) ->
       spans segs (@px A) (bx b) (width b)) /\
      ((exists p, pointOf segs p /\ isNumber (py p)) ->
       spans segs (@py A) (by_ b) (height b)) /\
      ((forall p, pointOf segs p -> ~ isNumber (px p)) ->
       bx b = pinf A /\ width b = sub A (ninf A) (pinf A)) /\
      ((forall p, pointOf segs p -> ~ isNumber (py p)) ->
       by_ b = pinf A /\ height b = sub A (ninf A) (pinf A))).
  { intros A HO HE segs. unfold computeBBox. rewrite bboxExtent_eq.
    cbn [bx by_ width height].
    split; [exact (folds_span A HO HE segs (@px A))|].
    split; [exact (folds_span A HO HE segs (@py A))|].
    split.
    - intros H.
      assert (H' : forall p, In p (concat segs) -> ~ isNumber (px p)).
      { intros p Hp. apply H. apply pointOf_concat. exact Hp. }
      rewrite (lower_untouched A HO (@px A) (concat segs) (pinf A) H').
      rewrite (raise_untouched A HO (@px A) (concat segs) (ninf A) H').
      split; reflexivity.
    - intros H.
      assert (H' : forall p, In p (concat segs) -> ~ isNumber (py p)).
      { intros p Hp. apply H. apply pointOf_concat. exact Hp. }
      rewrite (lower_untouched A HO (@py A) (concat segs) (pinf A) H').
      rewrite (raise_untouched A HO (@py A) (concat segs) (ninf A) H').
      split; reflexivity. }
  split; [exact G|].
  intros s (c0 & Hc0).
  destruct (G XR XR_ordered XR_extremal (finShape s)) as (Hx & Hy & _ & _).
  cbv zeta in Hx, Hy.
  assert (P0 : pointOf (finShape s) (fin c0)).
  { apply pointOf_fin. exists c0. split; [exact Hc0|reflexivity]. }
  specialize (Hx (ex_intro _ (fin c0) (conj P0 (proj1 (fin_numbers c0))))).
  specialize (Hy (ex_intro _ (fin c0) (conj P0 (proj2 (fin_numbers c0))))).
  destruct (spans_fin s (@px XR) fst _ _ (fun c => eq_refl) Hx)
    as (x0 & w & Ex & Ew & Xall & Xlo & Xhi).
  destruct (spans_fin s (@py XR) snd _ _ (fun c => eq_refl) Hy)
    as (y0 & h & Ey & Eh & Yall & Ylo & Yhi).
  exists x0, y0, w, h.
  split.
  - destruct (computeBBox (finShape s)) as [b1 b2 b3 b4].
    cbn [bx by_ width height] in *. congruence.
  - split; [intros c Hc; split; [exact (Xall c Hc)|exact (Yall c Hc)]|].
    split; [exact Xlo|]. split; [exact Xhi|]. split; [exact Ylo|exact Yhi].
Qed.

Lemma computeBBox_contains_witness :
  spans squareA (@px F64) (bx (computeBBox squareA)) (width (computeBBox squareA)).
Proof.
  apply (proj1 (proj1 computeBBox_contains F64 F64_ordered F64_extremal squareA)).
  exists (pt F64 1 0)%float. split.
  - eexists. split; [left; reflexivity|]. right. left. reflexivity.
  - reflexivity.
Defined.

(** ** polygonInBounds *)

Lemma polygonExtent_eq (A : Arith) (ring : GeoRing A) :
  polygonExtent ring =
  (fold_left (fun m c => lower (at_ A c 0) m) ring (pinf A),
   fold_left (fun m c => raise (at_ A c 0) m) ring (ninf A),
   fold_left (fun m c => lower (at_ A c 1) m) ring (pinf A),
   fold_left (fun m c => raise (at_ A c 1) m) ring (ninf A)).
Proof. unfold polygonExtent. rewrite polygonExtent_folds. reflexivity. Qed.

(** X2: a polygon is kept whenever one position of its outer ring lies inside
    the crop rectangle; an outer ring without positions is dropped by every
    rectangle whose western edge is above -Infinity. *)
Theorem polygonInBounds_keeps (A : Arith) (HO : Ordered A) :
  (forall (outerRing : GeoRing A) (bounds : Bounds A) (coord : Position A),
      In coord outerRing ->
      within (lonMin bounds) (lonMax bounds) (at_ A coord 0) ->
      within (latMin bounds) (latMax bounds) (at_ A coord 1) ->
      polygonInBounds outerRing bounds = true) /\
  (forall bounds : Bounds A,
      ltb A (ninf A) (lonMin bounds) = true ->
      polygonInBounds [] bounds = false).
Proof.
  split.
  - intros ring b coord Hin Hlon Hlat.
    unfold polygonInBounds. rewrite polygonExtent_eq.
    destruct (at_ A coord 0) as [|lon] eqn:E0; [destruct Hlon|].
    destruct (at_ A coord 1) as [|lat] eqn:E1; [destruct Hlat|].
    destruct Hlon as [L1 L2], Hlat as [L3 L4].
    pose proof (ord_left HO _ _ L2) as Nlon.
    pose proof (ord_left HO _ _ L4) as Nlat.
    destruct (lower_fold A HO (fun c => at_ A c 0) ring (pinf A) (ord_pinf HO))
      as (_ & _ & M1).
    destruct (raise_fold A HO (fun c => at_ A c 0) ring (ninf A) (ord_ninf HO))
      as (_ & _ & M2).
    destruct (lower_fold A HO (fun c => at_ A c 1) ring (pinf A) (ord_pinf HO))
      as (_ & _ & M3).
    destruct (raise_fold A HO (fun c => at_ A c 1) ring (ninf A) (ord_ninf HO))
      as (_ & _ & M4).
    rewrite (ord_trans HO _ _ _ L1 (M2 coord lon Hin E0 Nlon)).
    rewrite (ord_trans HO _ _ _ (M1 coord lon Hin E0 Nlon) L2).
    rewrite (ord_trans HO _ _ _ L3 (M4 coord lat Hin E1 Nlat)).
    rewrite (ord_trans HO _ _ _ (M3 coord lat Hin E1 Nlat) L4).
    reflexivity.
  - intros b H. unfold polygonInBounds, polygonExtent. simpl.
    rewrite (ord_strict HO _ _ H). reflexivity.
Qed.

Lemma polygonInBounds_keeps_witness :
  polygonInBounds unitRing cropAround = true.
Proof.
  apply (proj1 (polygonInBounds_keeps F64 F64_ordered) unitRing cropAround
           [1; 0]%float).
  - right. left. reflexivity.
  - split; reflexivity.
  - split; reflexivity.
Defined.

(** ** The offline estimator on parsed paths *)

Section EstimatorTotal.

Variable A : Arith.
Hypothesis HO : Ordered A.

Lemma last_nonEmpty {T : Type} (l : list T) : l <> [] -> exists x, last l = Some x.
Proof.
  intros H. destruct (last l) as [x|] eqn:E; [exists x; reflexivity|].
  apply last_None in E. contradiction.
Qed.

Lemma pointAtLength_point (segs : Shape A) (totalLen targetLen : num A) :
  segs <> [] -> ringsNonEmpty segs ->
  exists p, pointAtLength segs totalLen targetLen = Ok (Some p).
Proof.
  intros Hne Hr. unfold pointAtLength.
  destruct (shapeWalk targetLen (of_Z A 0) segs) as [p|acc];
    [exists p; reflexivity|].
  destruct (last_nonEmpty segs Hne) as (lastSeg & Hl). rewrite Hl.
  assert (Hin : lastSeg <> []).
  { unfold ringsNonEmpty in Hr. rewrite List.Forall_forall in Hr. apply Hr.
    apply last_Some in Hl. destruct Hl as (l' & ->).
    apply in_or_app. right. left. reflexivity. }
  destruct (last_nonEmpty lastSeg Hin) as (p & Hp). rewrite Hp.
  exists p. reflexivity.
Qed.

Variables segmentsA segmentsB : Shape A.
Variables lenA lenB : num A.
Variable n : nat.
Variable thr : Z.

Hypothesis HB : forall t, exists b, pointAtLength segmentsB lenB t = Ok (Some b).

Lemma nearestStep_some (a b : Point A) (st : num A * option (Point A)) (j : Z) :
  pointAtLength segmentsB lenB
    (div A (mul A lenB (of_Z A j)) (of_Z A (Z.of_nat n))) = Ok (Some b) ->
  nearestStep segmentsB lenB n (Some a) st j =
  if ltb A (sqDist a b) (fst st) then Ok (sqDist a b, Some b) else Ok st.
Proof. intros H. unfold nearestStep. rewrite H. reflexivity. Qed.

(** The inner loop keeps [bestPt] set whenever [bestDist] has left
    [Infinity]. *)
Lemma nearest_total (a : Point A) (js : list Z) :
  forall st : num A * option (Point A),
    (snd st = None -> fst st = pinf A) ->
    exists st', foldM (nearestStep segmentsB lenB n (Some a)) js st = Ok st' /\
                (snd st' = None -> fst st' = pinf A).
Proof.
  induction js as [|j js IH]; intros st Hst; cbn [foldM].
  - exists st. split; [reflexivity|exact Hst].
  - destruct (HB (div A (mul A lenB (of_Z A j)) (of_Z A (Z.of_nat n))))
      as (b & Hb).
    rewrite (nearestStep_some a b st j Hb).
    destruct (ltb A (sqDist a b) (fst st)); cbn [mbind result_bind].
    + apply IH. simpl. discriminate.
    + apply IH. exact Hst.
Qed.

Hypothesis HA : forall t, exists a, pointAtLength segmentsA lenA t = Ok (Some a).

Lemma borderStep_some (a : Point A) (bp : list (Point A)) (i : Z) :
  pointAtLength segmentsA lenA
    (div A (mul A lenA (of_Z A i)) (of_Z A (Z.of_nat n))) = Ok (Some a) ->
  exists bp', borderStep segmentsA segmentsB lenA lenB n thr bp i = Ok bp'.
Proof.
  intros Ha. unfold borderStep. rewrite Ha. cbn [mbind result_bind].
  unfold nearest.
  destruct (nearest_total a (upto n) (pinf A, None) (fun _ => eq_refl))
    as ([d o] & Hn & Ho).
  rewrite Hn. cbn [mbind result_bind fst snd] in *.
  destruct (ltb A d (mul A (of_Z A thr) (of_Z A thr))) eqn:Hd;
    cbn [mbind result_bind deref].
  - destruct o as [b|]; cbn [mbind result_bind deref];
      [eexists; reflexivity|].
    rewrite (Ho eq_refl), (ord_top HO) in Hd. discriminate.
  - eexists; reflexivity.
Qed.

Lemma borderPoints_total (is_ : list Z) :
  forall bp : list (Point A),
    exists bp', foldM (borderStep segmentsA segmentsB lenA lenB n thr) is_ bp
                = Ok bp'.
Proof.
  induction is_ as [|i is_ IH]; intros bp; cbn [foldM].
  - exists bp. reflexivity.
  - destruct (HA (div A (mul A lenA (of_Z A i)) (of_Z A (Z.of_nat n))))
      as (a & Ha).
    destruct (borderStep_some a bp i Ha) as (bp1 & H1). rewrite H1.
    cbn [mbind result_bind]. apply IH.
Qed.

End EstimatorTotal.

Lemma parsePath_ringsNonEmpty (A : Arith) (d : string) (s : Shape A) :
  parsePath A d = Ok s -> ringsNonEmpty s.
Proof.
  unfold parsePath.
  destruct (foldM (@parseStep A) (commands A d) (initial A)) as [st|] eqn:H;
    [|discriminate].
  simpl. intros E. injection E as <-. apply flush_nonEmpty.
  apply (@foldM_nonEmpty A (commands A d) (initial A) st H). constructor.
Qed.

Lemma borderStep_throws (A : Arith) (sA sB : Shape A) (lenA lenB : num A)
    (n : nat) (thr : Z) (bp : list (Point A)) (i : Z) :
  sA = [] \/ sB = [] -> borderStep sA sB lenA lenB n thr bp i = TypeError.
Proof.
  intros H. unfold borderStep. destruct H as [-> | ->]; [reflexivity|].
  destruct (pointAtLength sA lenA _) as [ptA|]; [|reflexivity].
  cbn [mbind result_bind]. unfold nearest.
  change (upto n) with (0%Z :: map Z.of_nat (seq 1 n)).
  cbn [foldM]. reflexivity.
Qed.

Lemma estimator_throws (A : Arith) (sA sB : Shape A) :
  sA = [] \/ sB = [] -> computeBorderMidpointFromPaths sA sB = TypeError.
Proof.
  intros H. unfold computeBorderMidpointFromPaths, borderPoints.
  change (upto N_offline) with (0%Z :: map Z.of_nat (seq 1 N_offline)).
  cbn [foldM]. rewrite (borderStep_throws A sA sB _ _ _ _ _ _ H). reflexivity.
Qed.

Lemma estimator_returns (A : Arith) (HO : Ordered A) (sA sB : Shape A) :
  ringsNonEmpty sA -> ringsNonEmpty sB -> sA <> [] -> sB <> [] ->
  exists p, computeBorderMidpointFromPaths sA sB = Ok (Some p).
Proof.
  intros RA RB NA NB. unfold computeBorderMidpointFromPaths, borderPoints.
  destruct (borderPoints_total A HO sA sB (computeTotalLength sA)
              (computeTotalLength sB) N_offline threshold_offline
              (fun t => pointAtLength_point A sB _ t NB RB)
              (fun t => pointAtLength_point A sA _ t NA RA)
              (upto N_offline) []) as (bp & Hbp).
  rewrite Hbp. cbn [mbind result_bind].
  destruct bp as [|q bp]; [eexists; reflexivity|].
  destruct (@middleOfRun_some A (q :: bp)) as (p & Hp); [discriminate|].
  rewrite Hp. exists p. reflexivity.
Qed.

(** X3: the offline estimator on shapes without empty rings, which is what
    [parsePath] returns: it throws exactly when one of the two shapes has
    no ring, and otherwise returns a point.  So for two path strings that
    parse, the midpoint is a point unless one of them parses to the empty
    shape. *)
Theorem estimator_on_parsed_paths (A : Arith) (HO : Ordered A) :
  (forall sA sB : Shape A,
      ringsNonEmpty sA -> ringsNonEmpty sB ->
      (computeBorderMidpointFromPaths sA sB = TypeError <-> sA = [] \/ sB = []) /\
      (sA <> [] -> sB <> [] ->
       exists p, computeBorderMidpointFromPaths sA sB = Ok (Some p))) /\
  (forall (dA dB : string) (sA sB : Shape A),
      parsePath A dA = Ok sA -> parsePath A dB = Ok sB ->
      sA <> [] -> sB <> [] ->
      exists p, computeBorderMidpointFromPaths sA sB = Ok (Some p)).
Proof.
  split.
  - intros sA sB RA RB. split.
    + split; [|apply estimator_throws].
      intros H. destruct sA as [|rA sA]; [left; reflexivity|].
      destruct sB as [|rB sB]; [right; reflexivity|].
      destruct (estimator_returns A HO (rA :: sA) (rB :: sB) RA RB) as (p & Hp);
        [discriminate|discriminate|congruence].
    + apply (estimator_returns A HO sA sB RA RB).
  - intros dA dB sA sB PA PB. apply (estimator_returns A HO sA sB).
    + apply (parsePath_ringsNonEmpty A dA sA PA).
    + apply (parsePath_ringsNonEmpty A dB sB PB).
Qed.

Lemma estimator_on_parsed_paths_witness :
  exists p, computeBorderMidpointFromPaths squareA squareB = Ok (Some p).
Proof.
  apply (proj2 (estimator_on_parsed_paths F64 F64_ordered)
           "M0,0 L1,0 L1,1 L0,1 Z" "M10,0 L11,0 L11,1 L10,1 Z" squareA squareB).
  - vm_refl.
  - vm_refl.
  - discriminate.
  - discriminate.
Defined.

(** ** Command letters of a path *)

Lemma commandOf_upper (c : ascii) : commandOf (upperCommand c) = commandOf c.
Proof. destruct c as [[] [] [] [] [] [] [] []]; reflexivity. Qed.

Lemma isSpace_upper (c : ascii) : isSpace (upperCommand c) = isSpace c.
Proof. destruct c as [[] [] [] [] [] [] [] []]; reflexivity. Qed.

Lemma isOperandChar_upper (c : ascii) :
  isOperandChar (upperCommand c) = isOperandChar c /\
  (isOperandChar c = true -> upperCommand c = c).
Proof. destruct c as [[] [] [] [] [] [] [] []]; split; (reflexivity || discriminate). Qed.

Lemma dropWhile_upper (s : string) :
  dropWhile isSpace (mapString upperCommand s)
  = mapString upperCommand (dropWhile isSpace s).
Proof.
  induction s as [|c s IH]; simpl; [reflexivity|].
  rewrite isSpace_upper. destruct (isSpace c); [exact IH|reflexivity].
Qed.

Lemma takeWhile_upper (s : string) :
  takeWhile isOperandChar (mapString upperCommand s) = takeWhile isOperandChar s.
Proof.
  induction s as [|c s IH]; simpl; [reflexivity|].
  destruct (isOperandChar_upper c) as [H1 H2]. rewrite H1.
  destruct (isOperandChar c); [|reflexivity].
  rewrite IH, (H2 eq_refl). reflexivity.
Qed.

Lemma matches_upper (d : string) :
  matches (mapString upperCommand d) = matches d.
Proof.
  induction d as [|c d IH]; simpl; [reflexivity|].
  rewrite commandOf_upper, IH. unfold operandText.
  rewrite dropWhile_upper, takeWhile_upper. reflexivity.
Qed.

(** X4: the lower-case command letters, which in SVG take coordinates relative
    to the current point, are read exactly as their upper-case forms:
    replacing each of [m], [l], [c], [z] by its capital changes nothing in
    what [parsePath] returns. *)
Theorem parsePath_ignores_case (A : Arith) (d : string) :
  parsePath A (mapString upperCommand d) = parsePath A d.
Proof. unfold parsePath, commands. rewrite matches_upper. reflexivity. Qed.

Section EmptyShape.

Variable A : Arith.

Lemma flush_keeps (segs : Shape A) (cur : Ring A) :
  segs <> [] \/ cur <> [] -> flush segs cur <> [].
Proof.
  intros [H|H]; destruct cur as [|p cur]; simpl; try exact H; try congruence.
  - intros E. apply app_eq_nil in E. destruct E as [_ E]. discriminate E.
  - intros E. apply app_eq_nil in E. destruct E as [_ E]. discriminate E.
Qed.

Lemma flush_nil (segs : Shape A) (cur : Ring A) :
  flush segs cur = [] -> segs = [] /\ cur = [].
Proof.
  destruct cur as [|p cur]; simpl; intros E; [split; [exact E|reflexivity]|].
  apply app_eq_nil in E. destruct E as [_ E]. discriminate E.
Qed.

Lemma closeRing_keeps (cur : Ring A) (start : option (Point A)) :
  cur <> [] -> closeRing cur start <> [].
Proof.
  intros H. unfold closeRing. destruct start as [s|]; [|exact H].
  destruct (last cur) as [l|]; [|exact H].
  destruct (strictNe (px l) (px s) || strictNe (py l) (py s)); [|exact H].
  intros E. apply app_eq_nil in E. destruct E as [_ E]. discriminate E.
Qed.

(** Once a ring has been started the result cannot be empty any more. *)
Lemma parseStep_started (st st' : ParseState A) (c : Command * list (num A)) :
  parseStep st c = Ok st' ->
  segments st <> [] \/ current st <> [] ->
  segments st' <> [] \/ current st' <> [].
Proof.
  destruct c as [[] nums]; unfold parseStep; cbn [fst snd].
  - intros E _. injection E as <-. right. discriminate.
  - intros E _. injection E as <-. right. cbn [current].
    intros E. apply app_eq_nil in E. destruct E as [_ E]. discriminate E.
  - destruct (curPt st) as [p0|]; cbn [mbind result_bind deref]; [|discriminate].
    intros E _. injection E as <-. right. cbn [current].
    intros E. apply app_eq_nil in E. destruct E as [_ E]. discriminate E.
  - intros E H. injection E as <-. left. cbn [segments].
    apply flush_keeps. destruct H as [H|H]; [left; exact H|].
    right. apply closeRing_keeps. exact H.
Qed.

Lemma foldM_started (cmds : list (Command * list (num A))) :
  forall st st' : ParseState A,
    foldM (@parseStep A) cmds st = Ok st' ->
    segments st <> [] \/ current st <> [] ->
    segments st' <> [] \/ current st' <> [].
Proof.
  induction cmds as [|c cmds IH]; intros st st' H Hs; cbn [foldM] in H.
  - injection H as <-. exact Hs.
  - destruct (parseStep st c) as [st1|] eqn:H1; [|discriminate].
    cbn [mbind result_bind] in H.
    apply (IH st1 st' H). apply (parseStep_started st st1 c H1 Hs).
Qed.

Lemma foldM_closes (cmds : list (Command * list (num A))) :
  Forall (fun c => fst c = CmdZ) cmds ->
  foldM (@parseStep A) cmds (initial A) = Ok (initial A).
Proof.
  induction 1 as [|[c nums] cmds Hc _ IH]; cbn [foldM]; [reflexivity|].
  cbn [fst] in Hc. subst c. exact IH.
Qed.

Lemma foldM_opens (cmds : list (Command * list (num A))) (st : ParseState A) :
  foldM (@parseStep A) cmds (initial A) = Ok st ->
  segments st = [] -> current st = [] ->
  Forall (fun c => fst c = CmdZ) cmds.
Proof.
  induction cmds as [|[c nums] cmds IH]; intros H Hs Hc; [constructor|].
  cbn [foldM] in H. destruct c.
  - exfalso. cbn in H.
    destruct (foldM_started cmds _ st H) as [E|E]; [right; discriminate|..];
      contradiction.
  - exfalso. cbn in H.
    destruct (foldM_started cmds _ st H) as [E|E]; [right; discriminate|..];
      contradiction.
  - discriminate H.
  - constructor; [reflexivity|]. apply IH; assumption.
Qed.

End EmptyShape.

(** X5: [parsePath] returns the empty shape exactly when the text holds no
    command letter other than [Z] or [z]: text without any command letter,
    the empty string included, parses to no ring, and a single move or line
    is enough for a ring. *)
Theorem parsePath_empty_shape (A : Arith) (d : string) :
  parsePath A d = Ok [] <-> Forall (fun c => c = CmdZ) (letters d).
Proof.
  unfold letters. rewrite <- (commands_letters A), Forall_map.
  unfold parsePath. split.
  - destruct (foldM (@parseStep A) (commands A d) (initial A)) as [st|] eqn:H;
      [|discriminate].
    cbn [mbind result_bind]. intros E.
    injection E as E. apply flush_nil in E. destruct E as [E1 E2].
    apply (foldM_opens A (commands A d) st H E1 E2).
  - intros H. rewrite (foldM_closes A (commands A d) H). reflexivity.
Qed.

(** ** The text of a ring, read back *)

Lemma append_cons (c : ascii) (a b : string) :
  String c a +:+ b = String c (a +:+ b).
Proof. reflexivity. Qed.

Lemma append_nil_l (b : string) : "" +:+ b = b.
Proof. reflexivity. Qed.

Lemma append_assoc (a b c : string) : (a +:+ b) +:+ c = a +:+ (b +:+ c).
Proof.
  induction a as [|x a IH]; [reflexivity|].
  rewrite !append_cons, IH. reflexivity.
Qed.

Lemma append_nil_r (a : string) : a +:+ "" = a.
Proof.
  induction a as [|x a IH]; [reflexivity|]. rewrite append_cons, IH. reflexivity.
Qed.

Lemma allChars_app (f : ascii -> bool) (a b : string) :
  allChars f (a +:+ b) = allChars f a && allChars f b.
Proof.
  induction a as [|x a IH]; [reflexivity|].
  rewrite append_cons. simpl. rewrite IH, andb_assoc. reflexivity.
Qed.

Lemma allChars_impl (f g : ascii -> bool) (s : string) :
  (forall c, f c = true -> g c = true) ->
  allChars f s = true -> allChars g s = true.
Proof.
  intros Hfg. induction s as [|c s IH]; simpl; [reflexivity|].
  rewrite !andb_true_iff. intros [H1 H2]. split; [apply Hfg; exact H1|apply IH; exact H2].
Qed.

Lemma numberChar_facts (c : ascii) :
  isNumberChar c = true ->
  commandOf c = None /\ isOperandChar c = true /\ isSeparator c = false /\
  isSpace c = false.
Proof.
  destruct c as [[] [] [] [] [] [] [] []]; intros H;
    first [discriminate H | repeat split].
Qed.

Lemma operandChar_no_command (c : ascii) :
  isOperandChar c = true -> commandOf c = None.
Proof. destruct c as [[] [] [] [] [] [] [] []]; intros H; first [discriminate H | reflexivity]. Qed.

Lemma matches_skip (s rest : string) :
  allChars isOperandChar s = true -> matches (s +:+ rest) = matches rest.
Proof.
  induction s as [|c s IH]; [reflexivity|].
  rewrite append_cons. simpl. rewrite andb_true_iff. intros [H1 H2].
  rewrite (operandChar_no_command c H1). apply IH. exact H2.
Qed.

(** The rest of the text begins with a character outside the operand
    class, or is empty. *)
Lemma takeWhile_app (s rest : string) :
  allChars isOperandChar s = true ->
  takeWhile isOperandChar rest = EmptyString ->
  takeWhile isOperandChar (s +:+ rest) = s.
Proof.
  intros Hs Hr. induction s as [|c s IH]; [exact Hr|].
  rewrite append_cons. simpl in *.
  apply andb_true_iff in Hs. destruct Hs as [H1 H2].
  rewrite H1, (IH H2). reflexivity.
Qed.

Lemma dropWhile_none (s : string) :
  allChars (fun c => negb (isSpace c)) s = true -> dropWhile isSpace s = s.
Proof.
  destruct s as [|c s]; simpl; [reflexivity|].
  rewrite andb_true_iff, negb_true_iff. intros [-> _]. reflexivity.
Qed.

Lemma revString_chars (f : ascii -> bool) (s acc : string) :
  allChars f (revString s acc) = allChars f s && allChars f acc.
Proof.
  revert acc. induction s as [|c s IH]; intros acc; simpl; [reflexivity|].
  rewrite IH. simpl. rewrite !andb_assoc. f_equal. apply andb_comm.
Qed.

Lemma revString_twice (s a b : string) :
  revString (revString s a) b = revString a (s +:+ b).
Proof.
  revert a b. induction s as [|c s IH]; intros a b; simpl; [reflexivity|].
  rewrite IH. reflexivity.
Qed.

Lemma trim_none (s : string) :
  allChars (fun c => negb (isSpace c)) s = true -> trim s = s.
Proof.
  intros H. unfold trim. rewrite (dropWhile_none s H).
  rewrite dropWhile_none.
  - rewrite revString_twice. simpl. apply append_nil_r.
  - rewrite revString_chars, H. reflexivity.
Qed.

Lemma splitLoop_piece (s rest cur : string) (sep : bool) :
  s <> EmptyString ->
  allChars (fun c => negb (isSeparator c)) s = true ->
  splitLoop (s +:+ rest) cur sep = splitLoop rest (cur +:+ s) false.
Proof.
  revert cur sep. induction s as [|c s IH]; intros cur sep Hne Hs; [congruence|].
  simpl in Hs. apply andb_true_iff in Hs. destruct Hs as [H1 H2].
  apply negb_true_iff in H1. rewrite append_cons. simpl. rewrite H1.
  destruct s as [|c' s'].
  - reflexivity.
  - rewrite IH; [|discriminate|exact H2].
    rewrite append_assoc. reflexivity.
Qed.

Section ReadBack.

Variable A : Arith.

Lemma numeral_chars (s : string) :
  allChars isNumberChar s = true ->
  allChars isOperandChar s = true /\
  allChars (fun c => negb (isSeparator c)) s = true /\
  allChars (fun c => negb (isSpace c)) s = true.
Proof.
  intros H. split; [|split]; revert H; apply allChars_impl; intros c Hc;
    destruct (numberChar_facts c Hc) as (_ & H1 & H2 & H3).
  - exact H1.
  - rewrite H2. reflexivity.
  - rewrite H3. reflexivity.
Qed.

Lemma operands_pair (sx sy : string) :
  numeral_ok sx -> numeral_ok sy ->
  operands A (sx +:+ "," +:+ sy) = [Number A sx; Number A sy].
Proof.
  intros [Nx Hx] [Ny Hy].
  destruct (numeral_chars sx Hx) as (_ & X2 & X3).
  destruct (numeral_chars sy Hy) as (_ & Y2 & Y3).
  unfold operands. rewrite trim_none.
  2:{ rewrite !allChars_app, X3, Y3. reflexivity. }
  destruct (sx +:+ "," +:+ sy) as [|c0 s0] eqn:E.
  { destruct sx; [congruence|discriminate E]. }
  rewrite <- E. unfold split.
  rewrite (splitLoop_piece sx _ "" false Nx X2). simpl.
  rewrite !append_nil_l. rewrite <- (append_nil_r sy) at 1.
  rewrite (splitLoop_piece sy "" "" true Ny Y2). reflexivity.
Qed.

End ReadBack.

Section RoundTrip.

Variable A : Arith.
Variable show : num A -> string.
Variable proj : value A -> value A -> num A * num A.

Local Abbreviation xOf c := (fst (proj (at_ A c 0) (at_ A c 1))).
Local Abbreviation yOf c := (snd (proj (at_ A c 0) (at_ A c 1))).

Lemma project_eq (c : Position A) : project proj c = pt A (xOf c) (yOf c).
Proof. unfold project. destruct (proj (at_ A c 0) (at_ A c 1)). reflexivity. Qed.

Lemma ringToPath_fold (ring : GeoRing A) :
  forall (d : string) (i : nat),
    fst (fold_left (ringToPathStep show proj) ring (d, S i))
    = d +:+ lineText show proj ring.
Proof.
  induction ring as [|c ring IH]; intros d i; cbn [fold_left lineText].
  - cbn [fst]. rewrite append_nil_r. reflexivity.
  - unfold ringToPathStep at 2. destruct (proj (at_ A c 0) (at_ A c 1)) as [x y].
    cbn [fst snd Nat.eqb]. rewrite IH, !append_assoc. reflexivity.
Qed.

Lemma ringToPath_cons (c : Position A) (ring : GeoRing A) :
  ringToPath show proj (c :: ring)
  = String "M" (show (xOf c) +:+ "," +:+ show (yOf c)
                +:+ lineText show proj ring +:+ "Z").
Proof.
  unfold ringToPath. cbn [fold_left]. unfold ringToPathStep at 2.
  destruct (proj (at_ A c 0) (at_ A c 1)) as [x y]. cbn [fst snd Nat.eqb].
  rewrite ringToPath_fold, !append_assoc. reflexivity.
Qed.

Lemma dropWhile_numeral (s rest : string) :
  numeral_ok s -> dropWhile isSpace (s +:+ rest) = s +:+ rest.
Proof.
  intros [Hne Hs]. destruct s as [|c s]; [congruence|].
  rewrite append_cons. simpl in *. apply andb_true_iff in Hs.
  destruct Hs as [Hc _]. destruct (numberChar_facts c Hc) as (_ & _ & _ & ->).
  reflexivity.
Qed.

(** A command letter with its two numerals, in front of text that starts
    outside the operand class. *)
Lemma commands_pair (l : ascii) (cmd : Command) (sx sy rest : string) :
  commandOf l = Some cmd -> numeral_ok sx -> numeral_ok sy ->
  takeWhile isOperandChar rest = EmptyString ->
  commands A (String l (sx +:+ "," +:+ sy +:+ rest))
  = (cmd, [Number A sx; Number A sy]) :: commands A rest.
Proof.
  intros Hl Hx Hy Hr. unfold commands. cbn [matches]. rewrite Hl. cbn [map fst snd].
  destruct (numeral_chars sx (proj2 Hx)) as (X1 & _ & _).
  destruct (numeral_chars sy (proj2 Hy)) as (Y1 & _ & _).
  assert (Hall : allChars isOperandChar (sx +:+ "," +:+ sy) = true).
  { rewrite !allChars_app, X1, Y1. reflexivity. }
  f_equal.
  - f_equal. unfold operandText. rewrite (dropWhile_numeral sx _ Hx).
    rewrite <- (operands_pair A sx sy Hx Hy). f_equal.
    replace (sx +:+ "," +:+ sy +:+ rest) with ((sx +:+ "," +:+ sy) +:+ rest)
      by (rewrite !append_assoc; reflexivity).
    apply takeWhile_app; assumption.
  - f_equal.
    replace (sx +:+ "," +:+ sy +:+ rest) with ((sx +:+ "," +:+ sy) +:+ rest)
      by (rewrite !append_assoc; reflexivity).
    apply matches_skip. exact Hall.
Qed.

Lemma parseStep_line (st : ParseState A) (x y : num A) :
  parseStep st (CmdL, [x; y])
  = Ok (mkState (segments st) (current st ++ [pt A x y]) (startPt st)
                (Some (pt A x y))).
Proof. reflexivity. Qed.

Lemma parseStep_move (st : ParseState A) (x y : num A) :
  parseStep st (CmdM, [x; y])
  = Ok (mkState (flush (segments st) (current st)) [pt A x y]
                (Some (pt A x y)) (Some (pt A x y))).
Proof. reflexivity. Qed.

Lemma parseStep_close (st : ParseState A) (nums : list (num A)) :
  parseStep st (CmdZ, nums)
  = Ok (mkState (flush (segments st) (closeRing (current st) (startPt st))) []
                (startPt st) (curPt st)).
Proof. reflexivity. Qed.

Lemma commands_close (rest : string) :
  commands A ("Z" +:+ rest)
  = (CmdZ, operands A (operandText rest)) :: commands A rest.
Proof. reflexivity. Qed.

Lemma lineText_stops (ring : GeoRing A) (rest : string) :
  takeWhile isOperandChar (lineText show proj ring +:+ "Z" +:+ rest) = EmptyString.
Proof. destruct ring; reflexivity. Qed.

Lemma lines_parsed (ring : GeoRing A) :
  ringReadsBack show proj ring ->
  forall (st : ParseState A) (rest : string),
  exists cp,
    foldM (@parseStep A) (commands A (lineText show proj ring +:+ "Z" +:+ rest)) st
    = foldM (@parseStep A) (commands A ("Z" +:+ rest))
        (mkState (segments st) (current st ++ map (project proj) ring)
                 (startPt st) cp).
Proof.
  induction ring as [|c ring IH]; intros Hrb st rest.
  - exists (curPt st). cbn [lineText map]. rewrite append_nil_l, app_nil_r.
    destruct st; reflexivity.
  - destruct (Hrb c (or_introl eq_refl)) as [(X1 & X2 & X3) (Y1 & Y2 & Y3)].
    assert (Hrb' : ringReadsBack show proj ring).
    { intros c' Hc'. apply Hrb. right. exact Hc'. }
    cbn [lineText]. rewrite !append_assoc.
    rewrite (append_cons "L" ""), append_nil_l.
    rewrite (commands_pair "L" CmdL _ _ _ eq_refl (conj X1 X2) (conj Y1 Y2)
               (lineText_stops ring rest)).
    cbn [foldM]. rewrite X3, Y3, parseStep_line. cbn [mbind result_bind].
    destruct (IH Hrb' (mkState (segments st) (current st ++ [pt A (xOf c) (yOf c)])
                (startPt st) (Some (pt A (xOf c) (yOf c)))) rest) as (cp & Hcp).
    exists cp. rewrite Hcp. cbn [segments current startPt map].
    rewrite <- app_assoc, project_eq. reflexivity.
Qed.

Lemma ring_parsed (ring : GeoRing A) :
  ringReadsBack show proj ring ->
  forall (segs : Shape A) (sp cp : option (Point A)) (rest : string),
  exists sp' cp',
    foldM (@parseStep A) (commands A (ringToPath show proj ring +:+ rest))
          (mkState segs [] sp cp)
    = foldM (@parseStep A) (commands A rest)
        (mkState (flush segs (decoded proj ring)) [] sp' cp').
Proof.
  intros Hrb segs sp cp rest. destruct ring as [|c ring].
  - exists sp, cp. change (ringToPath show proj []) with "Z".
    rewrite commands_close. cbn [foldM]. rewrite parseStep_close.
    cbn [mbind result_bind segments current startPt curPt].
    destruct sp; reflexivity.
  - destruct (Hrb c (or_introl eq_refl)) as [(X1 & X2 & X3) (Y1 & Y2 & Y3)].
    assert (Hrb' : ringReadsBack show proj ring).
    { intros c' Hc'. apply Hrb. right. exact Hc'. }
    rewrite ringToPath_cons, append_cons, !append_assoc.
    rewrite (commands_pair "M" CmdM _ _ _ eq_refl (conj X1 X2) (conj Y1 Y2)
               (lineText_stops ring rest)).
    cbn [foldM]. rewrite X3, Y3, parseStep_move.
    cbn [mbind result_bind segments current].
    destruct (lines_parsed ring Hrb'
                (mkState (flush segs []) [pt A (xOf c) (yOf c)]
                   (Some (pt A (xOf c) (yOf c))) (Some (pt A (xOf c) (yOf c))))
                rest) as (cp' & Hcp).
    cbn [segments current startPt] in Hcp.
    rewrite Hcp. eexists. exists cp'.
    cbn [flush app].
    rewrite commands_close. cbn [foldM]. rewrite parseStep_close.
    cbn [mbind result_bind segments current startPt curPt].
    unfold decoded. cbn [map head]. rewrite project_eq. reflexivity.
Qed.

Lemma flush_decoded (rings : list (GeoRing A)) :
  forall segs : Shape A,
    fold_left (@flush A) (map (decoded proj) rings) segs
    = segs ++ map (decoded proj) (List.filter (@hasPosition A) rings).
Proof.
  induction rings as [|r rings IH]; intros segs; cbn [map fold_left List.filter].
  - rewrite app_nil_r. reflexivity.
  - rewrite IH. destruct r as [|c r]; cbn [hasPosition map].
    + reflexivity.
    + assert (H : decoded proj (c :: r) <> []).
      { unfold decoded. apply closeRing_keeps. discriminate. }
      destruct (decoded proj (c :: r)) as [|q ring]; [congruence|].
      cbn [flush]. rewrite <- app_assoc. reflexivity.
Qed.

Lemma rings_parsed (rings : list (GeoRing A)) :
  Forall (ringReadsBack show proj) rings ->
  forall (segs : Shape A) (sp cp : option (Point A)),
  exists sp' cp',
    foldM (@parseStep A)
          (commands A (join " " (map (ringToPath show proj) rings)))
          (mkState segs [] sp cp)
    = Ok (mkState (fold_left (@flush A) (map (decoded proj) rings) segs) []
                  sp' cp').
Proof.
  induction rings as [|r rings IH]; intros Hall segs sp cp.
  - exists sp, cp. reflexivity.
  - inversion Hall as [|? ? Hr Hrest]; subst.
    destruct rings as [|r2 rings].
    + destruct (ring_parsed r Hr segs sp cp "") as (sp' & cp' & H).
      rewrite append_nil_r in H. exists sp', cp'.
      cbn [map join String.concat fold_left]. rewrite H. reflexivity.
    + destruct (ring_parsed r Hr segs sp cp
                  (" " +:+ join " " (map (ringToPath show proj) (r2 :: rings))))
        as (sp' & cp' & H).
      destruct (IH Hrest (flush segs (decoded proj r)) sp' cp') as (sp2 & cp2 & H2).
      exists sp2, cp2.
      change (join " " (map (ringToPath show proj) (r :: r2 :: rings)))
        with (ringToPath show proj r +:+ " "
              +:+ join " " (map (ringToPath show proj) (r2 :: rings))).
      rewrite H. exact H2.
Qed.

End RoundTrip.

Section GeometryText.

Variable A : Arith.
Variable show : num A -> string.
Variable proj : value A -> value A -> num A * num A.

Lemma rings_round_trip (rings : list (GeoRing A)) :
  Forall (ringReadsBack show proj) rings ->
  parsePath A (join " " (map (ringToPath show proj) rings))
  = Ok (map (decoded proj) (List.filter (@hasPosition A) rings)).
Proof.
  intros H. unfold parsePath.
  destruct (rings_parsed A show proj rings H [] None None) as (sp & cp & E).
  change (initial A) with (mkState (A := A) [] [] None None).
  rewrite E. cbn [mbind result_bind segments current flush].
  rewrite flush_decoded. reflexivity.
Qed.

Lemma outOfBounds_none (polygon : list (GeoRing A)) :
  outOfBounds None polygon = Ok false.
Proof. reflexivity. Qed.

(** The parts collected over the polygons of a multi-polygon are the texts
    of a selection of its rings, all of them when there is no crop. *)
Lemma multiPolygon_parts (lonBounds : option (Bounds A))
    (polys : list (list (GeoRing A))) :
  forall (kept : list (GeoRing A)) (parts : list string),
    foldM (fun pathParts polygon =>
             out ← outOfBounds lonBounds polygon;
             if (out : bool) then Ok pathParts
             else Ok (pathParts ++ map (ringToPath show proj) polygon))
          polys (map (ringToPath show proj) kept) = Ok parts ->
    exists more,
      parts = map (ringToPath show proj) (kept ++ more) /\
      sublist more (concat polys) /\
      (lonBounds = None -> more = concat polys).
Proof.
  induction polys as [|poly polys IH]; intros kept parts H; cbn [foldM] in H.
  - injection H as <-. exists []. rewrite app_nil_r.
    split; [reflexivity|]. split; [constructor|reflexivity].
  - destruct (outOfBounds lonBounds poly) as [[|]|] eqn:E;
      cbn [mbind result_bind] in H; [| |discriminate H].
    + destruct (IH kept parts H) as (more & H1 & H2 & H3).
      exists more. split; [exact H1|]. split.
      * cbn [concat]. apply sublist_inserts_l. exact H2.
      * intros ->. rewrite outOfBounds_none in E. discriminate E.
    + rewrite <- map_app in H.
      destruct (IH (kept ++ poly) parts H) as (more & H1 & H2 & H3).
      exists (poly ++ more). rewrite app_assoc. split; [exact H1|]. split.
      * cbn [concat]. apply sublist_app; [reflexivity|exact H2].
      * intros Hn. cbn [concat]. rewrite (H3 Hn). reflexivity.
Qed.

Lemma geometryToPath_text (geometry : Geometry A)
    (lonBounds : option (Bounds A)) (text : string) :
  geometryToPath show proj geometry lonBounds = Ok text ->
  exists rings,
    sublist rings (ringsOf geometry) /\
    (lonBounds = None -> rings = ringsOf geometry) /\
    text = join " " (map (ringToPath show proj) rings).
Proof.
  destruct geometry as [rings|polys|]; cbn [geometryToPath ringsOf].
  - destruct (outOfBounds lonBounds rings) as [[|]|] eqn:E;
      cbn [mbind result_bind]; [| |discriminate].
    + intros H. injection H as <-. exists [].
      split; [apply sublist_nil_l|]. split; [|reflexivity].
      intros ->. rewrite outOfBounds_none in E. discriminate E.
    + intros H. injection H as <-. exists rings.
      split; [reflexivity|]. split; reflexivity.
  - destruct (foldM _ polys []) as [parts|] eqn:E;
      cbn [mbind result_bind]; [|discriminate].
    intros H. injection H as <-.
    destruct (multiPolygon_parts lonBounds polys [] parts E) as (more & H1 & H2 & H3).
    exists more. split; [exact H2|]. split; [exact H3|]. rewrite H1. reflexivity.
  - intros H. injection H as <-. exists [].
    split; [constructor|]. split; reflexivity.
Qed.

End GeometryText.

(** X6: the path text that the build writes for a geometry is read back by
    [parsePath] as the projected rings: the text is the join of the texts
    of a selection of the rings of the geometry, all of them when there is
    no crop rectangle, and as long as the text of every projected
    coordinate is a numeral that reads back as that coordinate, parsing the
    text gives, ring for ring, the projected points closed by their first
    point; rings without positions leave nothing. *)
Theorem path_text_round_trip (A : Arith) (show : num A -> string)
    (proj : value A -> value A -> num A * num A) :
  (forall rings : list (GeoRing A),
      Forall (ringReadsBack show proj) rings ->
      parsePath A (join " " (map (ringToPath show proj) rings))
      = Ok (map (decoded proj) (List.filter (@hasPosition A) rings))) /\
  (forall (geometry : Geometry A) (lonBounds : option (Bounds A))
          (text : string),
      Forall (ringReadsBack show proj) (ringsOf geometry) ->
      geometryToPath show proj geometry lonBounds = Ok text ->
      exists rings : list (GeoRing A),
        sublist rings (ringsOf geometry) /\
        (lonBounds = None -> rings = ringsOf geometry) /\
        parsePath A text
        = Ok (map (decoded proj) (List.filter (@hasPosition A) rings))).
Proof.
  split; [apply rings_round_trip|].
  intros geometry lonBounds text Hall Htext.
  destruct (geometryToPath_text A show proj geometry lonBounds text Htext)
    as (rings & H1 & H2 & ->).
  exists rings. split; [exact H1|]. split; [exact H2|].
  apply rings_round_trip. rewrite Forall_forall in *.
  intros r Hr. apply Hall. exact (elem_of_sublist _ _ _ Hr H1).
Qed.

Lemma path_text_round_trip_witness :
  parsePath F64 (join " " (map (ringToPath (A := F64) showSmall doubling)
                               [triangle]))
  = Ok (map (decoded (A := F64) doubling)
            (List.filter (@hasPosition F64) [triangle])).
Proof.
  apply (proj1 (path_text_round_trip F64 showSmall doubling) [triangle]).
  constructor; [|constructor].
  intros coord [<-|[<-|[<-|[]]]]; split; (split; [discriminate|split; reflexivity]).
Defined.

(** ** stitchRings *)

Section StitchFacts.

Variable A : Arith.
Variable abs : num A -> num A.

Lemma firstShared_bound (p : Position A) (candidates : GeoRing A) :
  forall j k, firstShared abs p candidates j = Some k ->
              j <= k < j + length candidates.
Proof.
  induction candidates as [|q rest IH]; intros j k; cbn [firstShared length].
  - discriminate.
  - destruct (coincide abs p q).
    + intros E. injection E as <-. lia.
    + intros E. apply IH in E. lia.
Qed.

Lemma firstShared_exists (p : Position A) (candidates : GeoRing A) :
  forall j, is_Some (firstShared abs p candidates j)
            <-> existsb (coincide abs p) candidates = true.
Proof.
  induction candidates as [|q rest IH]; intros j; cbn [firstShared existsb].
  - split; [intros [x Hx]; discriminate Hx|discriminate].
  - destruct (coincide abs p q); cbn [orb].
    + split; [reflexivity|]. intros _. eexists. reflexivity.
    + apply IH.
Qed.

(** What the outer loop has collected: indices into the two open rings, as
    many of each as positions of [mergeRing] coincide with one of
    [mainRing]. *)
Lemma sharedStep_fold (mainRing : GeoRing A) (bound : nat)
    (ips : list (nat * Position A)) :
  Forall (fun ip => fst ip < bound) ips ->
  forall st : list nat * list nat,
    Forall (fun j => j < length (open mainRing)) (fst st) ->
    Forall (fun i => i < bound) (snd st) ->
    let st' := fold_left (sharedStep abs mainRing) ips st in
    Forall (fun j => j < length (open mainRing)) (fst st') /\
    Forall (fun i => i < bound) (snd st') /\
    length (fst st') =
      length (fst st)
      + length (List.filter (fun p => existsb (coincide abs p) (open mainRing))
                            (map snd ips)) /\
    length (snd st') = length (snd st) + (length (fst st') - length (fst st)).
Proof.
  induction 1 as [|[i p] ips Hi _ IH]; intros st H1 H2; cbn [fold_left map List.filter].
  - split; [exact H1|]. split; [exact H2|]. cbn [length]. lia.
  - cbn [fst snd] in *.
    pose proof (firstShared_exists p (open mainRing) 0) as Hex.
    destruct (firstShared abs p (open mainRing) 0) as [j|] eqn:E.
    + rewrite (proj1 Hex (ex_intro _ j eq_refl)).
      replace (sharedStep abs mainRing st (i, p))
        with (fst st ++ [j], snd st ++ [i])
        by (unfold sharedStep; cbn [fst snd]; rewrite E; reflexivity).
      apply firstShared_bound in E.
      destruct (IH (fst st ++ [j], snd st ++ [i])) as (G1 & G2 & G3 & G4).
      * cbn [fst]. apply Forall_app. split; [exact H1|].
        constructor; [lia|constructor].
      * cbn [snd]. apply Forall_app. split; [exact H2|].
        constructor; [exact Hi|constructor].
      * cbn [fst snd] in *. rewrite !length_app in *. cbn [length] in *.
        split; [exact G1|]. split; [exact G2|]. lia.
    + replace (sharedStep abs mainRing st (i, p)) with st
        by (unfold sharedStep; cbn [fst snd]; rewrite E; reflexivity).
      destruct (existsb (coincide abs p) (open mainRing)) eqn:Ex.
      * destruct (proj2 Hex eq_refl) as [x Hx]. discriminate Hx.
      * apply (IH st H1 H2).
Qed.

Lemma imap_pair_snd {T : Type} (l : list T) :
  forall k, map snd (imap (fun i x => (k + i, x)) l) = l.
Proof.
  induction l as [|x l IH]; intros k; cbn [imap map]; [reflexivity|].
  cbn [snd]. f_equal.
  rewrite (imap_ext _ (fun i x => (S k + i, x))); [apply IH|].
  intros i y _. cbn. f_equal. lia.
Qed.

Lemma imap_pair_fst {T : Type} (l : list T) :
  forall k, Forall (fun ip : nat * T => fst ip < k + length l)
                   (imap (fun i x => (k + i, x)) l).
Proof.
  induction l as [|x l IH]; intros k; cbn [imap]; [constructor|].
  constructor; [cbn; lia|].
  rewrite (imap_ext _ (fun i x => (S k + i, x))).
  - specialize (IH (S k)). cbn [length].
    eapply Forall_impl; [exact IH|]. cbn. intros ip Hip. lia.
  - intros i y _. cbn. f_equal. lia.
Qed.

Lemma imap_pair_positions {T : Type} (l : list T) :
  map snd (imap pair l) = l.
Proof. exact (imap_pair_snd l 0). Qed.

Lemma imap_pair_indices {T : Type} (l : list T) :
  Forall (fun ip : nat * T => fst ip < length l) (imap pair l).
Proof. exact (imap_pair_fst l 0). Qed.

Lemma sharedIndices_spec (mainRing mergeRing : GeoRing A) :
  let st := sharedIndices abs mainRing mergeRing in
  Forall (fun j => j < length mainRing - 1) (fst st) /\
  Forall (fun i => i < length mergeRing - 1) (snd st) /\
  length (fst st) = length (sharedPositions abs mainRing mergeRing) /\
  length (snd st) = length (fst st).
Proof.
  assert (Hopen : forall r : GeoRing A, length (open r) = length r - 1).
  { intros r. unfold open. rewrite length_take. lia. }
  unfold sharedIndices, sharedPositions.
  destruct (sharedStep_fold mainRing (length (open mergeRing))
              (imap pair (open mergeRing))
              (imap_pair_indices (open mergeRing)) ([], [])
              (List.Forall_nil _) (List.Forall_nil _)) as (G1 & G2 & G3 & G4).
  rewrite (imap_pair_positions (open mergeRing)) in G3.
  cbn [fst snd length] in *. rewrite !Hopen in *.
  split; [exact G1|]. split; [exact G2|]. split; [exact G3|]. lia.
Qed.

Lemma fold_min_spec (l : list nat) (d : nat) :
  fold_right Nat.min d l <= d /\
  (forall x, In x l -> fold_right Nat.min d l <= x) /\
  (fold_right Nat.min d l = d \/ In (fold_right Nat.min d l) l).
Proof.
  induction l as [|y l (IH1 & IH2 & IH3)]; cbn [fold_right In].
  - split; [lia|]. split; [intros x []|left; reflexivity].
  - split; [lia|]. split.
    + intros x [<-|Hx]; [lia|]. specialize (IH2 x Hx). lia.
    + destruct (Nat.min_spec y (fold_right Nat.min d l)) as [[_ ->]|[_ ->]].
      * right. left. reflexivity.
      * destruct IH3 as [E|E]; [left; exact E|right; right; exact E].
Qed.

Lemma fold_max_spec (l : list nat) :
  (forall x, In x l -> x <= fold_right Nat.max 0 l) /\
  (l <> [] -> In (fold_right Nat.max 0 l) l).
Proof.
  induction l as [|y l (IH1 & IH2)]; cbn [fold_right In].
  - split; [intros x []|congruence].
  - split.
    + intros x [<-|Hx]; [lia|]. specialize (IH1 x Hx). lia.
    + intros _.
      destruct (Nat.max_spec y (fold_right Nat.max 0 l)) as [[Hlt ->]|[_ ->]].
      * right. apply IH2. intros ->. cbn in Hlt. lia.
      * left. reflexivity.
Qed.

Lemma minIndex_spec (l : list nat) (n : nat) :
  l <> [] -> Forall (fun j => j < n) l -> minIndex l <= maxIndex l < n.
Proof.
  intros Hne Hall. rewrite List.Forall_forall in Hall.
  destruct (fold_max_spec l) as [M1 M2]. specialize (M2 Hne).
  unfold minIndex, maxIndex.
  destruct (fold_min_spec l (hd 0 l)) as (m1 & m2 & m3).
  split; [|apply Hall; exact M2].
  exact (m2 _ M2).
Qed.

Lemma take_drop_cons (ring : GeoRing A) (k i : nat) :
  i < length ring ->
  exists x, ring !! i = Some x /\
            take (S k) (drop i ring) = x :: take k (drop (S i) ring).
Proof.
  intros Hi. destruct (lookup_lt_is_Some_2 ring i Hi) as [x Hx].
  exists x. split; [exact Hx|]. rewrite (drop_S ring x i Hx). reflexivity.
Qed.

Lemma walk_low (ring : GeoRing A) (s : nat) :
  s < length ring - 1 ->
  forall (k i fuel : nat) (acc : list (option (Position A))),
    i + k = s -> k < fuel ->
    walk fuel ring i s acc = Some (acc ++ map Some (take k (drop i ring))).
Proof.
  intros Hs. induction k as [|k IH]; intros i fuel acc Hik Hf.
  - destruct fuel as [|fuel]; [lia|]. cbn [walk].
    replace i with s by lia. rewrite Nat.eqb_refl. cbn [take map].
    rewrite app_nil_r. reflexivity.
  - destruct fuel as [|fuel]; [lia|]. cbn [walk].
    destruct (Nat.eqb_spec i s) as [E|_]; [lia|].
    rewrite (Nat.mod_small (i + 1) (length ring - 1)) by lia.
    rewrite (IH (i + 1) fuel) by lia.
    destruct (take_drop_cons ring k i) as (x & Hx & ->); [lia|].
    rewrite Hx. replace (i + 1) with (S i) by lia.
    cbn [map]. rewrite <- app_assoc. reflexivity.
Qed.

Lemma walk_high (ring : GeoRing A) (s : nat) :
  s < length ring - 1 ->
  forall (k i fuel : nat) (acc : list (option (Position A))),
    i + S k = length ring - 1 -> s < i -> S k + s < fuel ->
    walk fuel ring i s acc
    = Some (acc ++ map Some (take (S k) (drop i ring) ++ take s ring)).
Proof.
  intros Hs. induction k as [|k IH]; intros i fuel acc Hik Hi Hf.
  - destruct fuel as [|fuel]; [lia|]. cbn [walk].
    destruct (Nat.eqb_spec i s) as [E|_]; [lia|].
    replace (i + 1) with (length ring - 1) by lia.
    rewrite Nat.Div0.mod_same.
    rewrite (walk_low ring s Hs s 0 fuel) by lia.
    destruct (take_drop_cons ring 0 i) as (x & Hx & ->); [lia|].
    rewrite Hx. cbn [take map app drop]. rewrite <- app_assoc. reflexivity.
  - destruct fuel as [|fuel]; [lia|]. cbn [walk].
    destruct (Nat.eqb_spec i s) as [E|_]; [lia|].
    rewrite (Nat.mod_small (i + 1) (length ring - 1)) by lia.
    rewrite (IH (i + 1) fuel) by lia.
    destruct (take_drop_cons ring (S k) i) as (x & Hx & ->); [lia|].
    rewrite Hx. replace (i + 1) with (S i) by lia.
    cbn [map app]. rewrite <- app_assoc. reflexivity.
Qed.

(** From [e] around to [s] the walk ends within [ring.length] tests and
    has pushed the positions of [around]. *)
Lemma walk_around (ring : GeoRing A) (e s : nat)
    (acc : list (option (Position A))) :
  s <= e < length ring - 1 ->
  walk (length ring) ring e s acc = Some (acc ++ map Some (around ring e s)).
Proof.
  intros H. unfold around, slice.
  destruct (Nat.eqb_spec e s) as [E|E].
  - subst e. rewrite (walk_low ring s (proj2 H) 0 s (length ring) acc) by lia.
    reflexivity.
  - destruct (length ring - 1 - e) as [|k] eqn:Ek; [lia|].
    rewrite (walk_high ring s) with (k := k) by lia.
    rewrite Nat.sub_0_r. cbn [drop]. reflexivity.
Qed.

End StitchFacts.

Lemma slice_one (A : Arith) (ring : GeoRing A) (i : nat) :
  i < length ring ->
  exists x, ring !! i = Some x /\ slice ring i (S i) = [x].
Proof.
  intros Hi. destruct (take_drop_cons A ring 0 i Hi) as (x & Hx & E).
  exists x. split; [exact Hx|]. unfold slice.
  replace (S i - i) with 1 by lia. rewrite E. reflexivity.
Qed.

Lemma around_head (A : Arith) (ring : GeoRing A) (e s : nat)
    (y z : Position A) (rest : GeoRing A) :
  s <= e < length ring - 1 -> ring !! e = Some y -> ring !! s = Some z ->
  head (around ring e s ++ z :: rest) = Some y.
Proof.
  intros H Hy Hz. unfold around, slice.
  destruct (Nat.eqb_spec e s) as [E|E].
  - subst e. rewrite Hy in Hz. injection Hz as <-. reflexivity.
  - destruct (length ring - 1 - e) as [|k] eqn:Ek; [lia|].
    destruct (take_drop_cons A ring k e) as (y' & Hy' & ->); [lia|].
    rewrite Hy in Hy'. injection Hy' as <-. reflexivity.
Qed.

Lemma stitchRings_eq (A : Arith) (abs : num A -> num A)
    (mainRing mergeRing : GeoRing A) :
  let mainShared := fst (sharedIndices abs mainRing mergeRing) in
  let mergeShared := snd (sharedIndices abs mainRing mergeRing) in
  stitchRings abs mainRing mergeRing =
  if Nat.ltb (length (sharedPositions abs mainRing mergeRing)) 2 then NoStitch
  else Stitched
         (map Some
            (around mainRing (maxIndex mainShared) (minIndex mainShared)
             ++ slice mainRing (minIndex mainShared) (S (minIndex mainShared))
             ++ around mergeRing (maxIndex mergeShared) (minIndex mergeShared)
             ++ slice mainRing (maxIndex mainShared) (S (maxIndex mainShared)))).
Proof.
  cbv zeta. unfold stitchRings.
  destruct (sharedIndices_spec A abs mainRing mergeRing) as (H1 & H2 & H3 & H4).
  cbv zeta in H1, H2, H3, H4.
  destruct (sharedIndices abs mainRing mergeRing) as [ms gs].
  cbn [fst snd] in *. rewrite <- H3.
  destruct (Nat.ltb_spec (length ms) 2) as [Hlt|Hge]; [reflexivity|].
  assert (Nms : ms <> []) by (intros ->; cbn in Hge; lia).
  assert (Ngs : gs <> []) by (intros ->; cbn in H4; lia).
  pose proof (minIndex_spec ms _ Nms H1) as Bm.
  pose proof (minIndex_spec gs _ Ngs H2) as Bg.
  rewrite (walk_around A mainRing _ _ [] Bm).
  rewrite (walk_around A mergeRing _ _ _ Bg).
  destruct (slice_one A mainRing (minIndex ms)) as (x & Hx & Sx); [lia|].
  destruct (slice_one A mainRing (maxIndex ms)) as (y & Hy & Sy); [lia|].
  rewrite Hx, Sx, Sy. cbn [app].
  set (part1 := around mainRing (maxIndex ms) (minIndex ms)).
  set (part2 := around mergeRing (maxIndex gs) (minIndex gs)).
  assert (Hh : head ((map Some part1 ++ [Some x]) ++ map Some part2)
               = Some (Some y)).
  { pose proof (around_head A mainRing (maxIndex ms) (minIndex ms) y x part2
                  Bm Hy Hx) as Hh.
    fold part1 in Hh.
    replace ((map Some part1 ++ [Some x]) ++ map Some part2)
      with (map Some (part1 ++ x :: part2))
      by (rewrite map_app, <- app_assoc; reflexivity).
    destruct (part1 ++ x :: part2) as [|h t]; [discriminate Hh|].
    cbn in Hh. injection Hh as ->. reflexivity. }
  rewrite Hh. cbn [mjoin option_join].
  f_equal. rewrite !map_app, <- !app_assoc. cbn [map app].
  rewrite map_app. reflexivity.
Qed.

(** X7: [stitchRings] always comes to an end, and what it returns has a closed
    form.  With fewer than two positions of [mergeRing] (closing duplicate
    left out) that coincide with a position of [mainRing] it returns
    [null].  Otherwise the stitched ring is: [mainRing] from its last shared
    index around its end to just before its first shared index, the
    position at the first shared index, [mergeRing] from its last shared
    index around its end to just before its first shared index, and the
    first position again; no element of it is [undefined]. *)
Theorem stitchRings_closed_form (A : Arith) (abs : num A -> num A)
    (mainRing mergeRing : GeoRing A) :
  let mainShared := fst (sharedIndices abs mainRing mergeRing) in
  let mergeShared := snd (sharedIndices abs mainRing mergeRing) in
  stitchRings abs mainRing mergeRing =
  if Nat.ltb (length (sharedPositions abs mainRing mergeRing)) 2 then NoStitch
  else Stitched
         (map Some
            (around mainRing (maxIndex mainShared) (minIndex mainShared)
             ++ slice mainRing (minIndex mainShared) (S (minIndex mainShared))
             ++ around mergeRing (maxIndex mergeShared) (minIndex mergeShared)
             ++ slice mainRing (maxIndex mainShared) (S (maxIndex mainShared)))).
Proof. exact (stitchRings_eq A abs mainRing mergeRing). Qed.

Lemma In_slice (A : Arith) (ring : GeoRing A) (i j : nat) (p : Position A) :
  In p (slice ring i j) -> In p ring.
Proof.
  unfold slice. rewrite <- !list_elem_of_In. intros H.
  apply (elem_of_sublist _ _ _ H).
  transitivity (drop i ring); [apply sublist_take|apply sublist_drop].
Qed.

Lemma In_around (A : Arith) (ring : GeoRing A) (e s : nat) (p : Position A) :
  In p (around ring e s) -> In p ring.
Proof.
  unfold around. destruct (Nat.eqb e s); [intros []|].
  intros H. apply in_app_or in H. destruct H as [H|H]; apply In_slice in H; exact H.
Qed.

(** X8: what a caller of [stitchRings] gets.  The two wrap-around loops always
    come to an end.  The result is [null] exactly when fewer than two
    positions of [mergeRing], closing duplicate left out, coincide with a
    position of [mainRing].  A stitched ring holds no [undefined], has at
    least two positions, all of them positions of one of the two rings, and
    is closed: its last position is its first. *)
Theorem stitchRings_returns (A : Arith) (abs : num A -> num A)
    (mainRing mergeRing : GeoRing A) :
  stitchRings abs mainRing mergeRing <> Unfinished /\
  (stitchRings abs mainRing mergeRing = NoStitch <->
   length (sharedPositions abs mainRing mergeRing) < 2) /\
  (forall merged,
      stitchRings abs mainRing mergeRing = Stitched merged ->
      exists ring : GeoRing A,
        merged = map Some ring /\ 2 <= length ring /\
        head ring = last ring /\
        forall p, In p ring -> In p mainRing \/ In p mergeRing).
Proof.
  pose proof (stitchRings_eq A abs mainRing mergeRing) as E. cbv zeta in E.
  destruct (sharedIndices_spec A abs mainRing mergeRing) as (H1 & H2 & H3 & H4).
  cbv zeta in H1, H2, H3, H4.
  destruct (Nat.ltb_spec (length (sharedPositions abs mainRing mergeRing)) 2)
    as [Hlt|Hge].
  - rewrite E. split; [discriminate|]. split; [split; [intros _; exact Hlt|reflexivity]|].
    discriminate.
  - rewrite E. split; [discriminate|]. split; [split; [discriminate|lia]|].
    intros merged Hm. injection Hm as <-.
    set (ms := fst (sharedIndices abs mainRing mergeRing)) in *.
    set (gs := snd (sharedIndices abs mainRing mergeRing)) in *.
    assert (Nms : ms <> []) by (intros Hn; rewrite Hn in H3; cbn in H3; lia).
    pose proof (minIndex_spec ms _ Nms H1) as Bm.
    destruct (slice_one A mainRing (minIndex ms)) as (x & Hx & Sx); [lia|].
    destruct (slice_one A mainRing (maxIndex ms)) as (y & Hy & Sy); [lia|].
    eexists. split; [reflexivity|]. rewrite Sx, Sy. split; [|split].
    + rewrite !length_app. cbn [length]. lia.
    + cbn [app].
      rewrite (around_head A mainRing (maxIndex ms) (minIndex ms) y x _ Bm Hy Hx).
      change (x :: around mergeRing (maxIndex gs) (minIndex gs) ++ [y])
        with ((x :: around mergeRing (maxIndex gs) (minIndex gs)) ++ [y]).
      rewrite app_assoc, last_snoc. reflexivity.
    + intros p Hp. apply in_app_or in Hp. destruct Hp as [Hp|Hp].
      { left. apply (In_around A _ _ _ _ Hp). }
      apply in_app_or in Hp. destruct Hp as [Hp|Hp].
      { left. destruct Hp as [<-|[]].
        apply (In_slice A mainRing (minIndex ms) (S (minIndex ms))).
        rewrite Sx. left. reflexivity. }
      apply in_app_or in Hp. destruct Hp as [Hp|Hp].
      { right. apply (In_around A _ _ _ _ Hp). }
      left. destruct Hp as [<-|[]].
      apply (In_slice A mainRing (maxIndex ms) (S (maxIndex ms))).
      rewrite Sy. left. reflexivity.
Qed.

Lemma stitchRings_returns_witness :
  exists ring : GeoRing F64,
    [Some [1; 1]; Some [0; 1]; Some [0; 0]; Some [1; 0];
     Some [1; 0]; Some [2; 0]; Some [2; 1]; Some [1; 1]]%float
    = map Some ring /\ 2 <= length ring /\
    head ring = last ring /\
    forall p, In p ring -> In p westSquare \/ In p eastSquare.
Proof.
  apply (proj2 (proj2 (stitchRings_returns F64 PrimFloat.abs westSquare eastSquare))).
  vm_refl.
Defined.

(** ** Conflict markers *)

Section MarkerFacts.

Variable A : Arith.
Variable svgEl : SVGElement A.

Lemma computeBorderMidpoint_defined (a b : N) :
  N.to_nat a < length svgEl -> N.to_nat b < length svgEl ->
  exists p, computeBorderMidpoint svgEl a b = Ok p.
Proof.
  intros Ha Hb. unfold computeBorderMidpoint. unfold SVGElement in *.
  destruct (lookup_lt_is_Some_2 svgEl (N.to_nat a) Ha) as [pa Hpa].
  destruct (lookup_lt_is_Some_2 svgEl (N.to_nat b) Hb) as [pb Hpb].
  rewrite Hpa, Hpb. cbn [deref mbind result_bind].
  destruct (sharedPoints pa pb); eexists; reflexivity.
Qed.

Lemma getBorderMidpoint_defined (s : Session A) (a b : N) :
  N.to_nat a < length svgEl -> N.to_nat b < length svgEl ->
  exists r, getBorderMidpoint s svgEl a b = Ok r.
Proof.
  intros Ha Hb. unfold getBorderMidpoint.
  destruct (cache s !! cacheKey a b); [eexists; reflexivity|].
  destruct (computeBorderMidpoint_defined a b Ha Hb) as [p ->].
  eexists. reflexivity.
Qed.

Lemma drawCrosses_spec (edges : list (N * N)) :
  forall (s : Session A) (g : list (Line A)),
    let r := drawCrosses svgEl edges s g in
    (snd r = false ->
     length (snd (fst r)) = length g + 2 * length edges /\
     queries svgEl s edges = Ok (fst (fst r))) /\
    (Forall (fun edge : N * N => N.to_nat (fst edge) < length svgEl
                                 /\ N.to_nat (snd edge) < length svgEl) edges ->
     snd r = false).
Proof.
  induction edges as [|[a b] edges IH]; intros s g; cbn [drawCrosses fst snd].
  - split; [|reflexivity]. intros _. split; [cbn; lia|reflexivity].
  - unfold queries. cbn [foldM fst snd].
    destruct (getBorderMidpoint s svgEl a b) as [[mid s']|] eqn:E.
    + cbn [mbind result_bind snd]. destruct (IH s' (g ++ cross mid)) as [I1 I2].
      split.
      * intros Hr. destruct (I1 Hr) as [L Q]. split; [|exact Q].
        rewrite L, length_app. cbn [cross length]. lia.
      * intros Hall. inversion Hall; subst. apply I2. assumption.
    + cbn [snd fst]. split; [discriminate|].
      intros Hall. inversion Hall as [|? ? [Ha Hb] _]; subst. cbn [fst snd] in *.
      destruct (getBorderMidpoint_defined s a b Ha Hb) as [r Hr]. congruence.
Qed.

End MarkerFacts.

Lemma conflicting_spec (regionColors : list Slot) (a b : N) :
  conflicting regionColors (a, b) = true <->
  readSlot regionColors a = readSlot regionColors b /\
  readSlot regionColors a <> Null.
Proof.
  unfold conflicting, sameSlot. cbn [fst snd].
  rewrite !andb_true_iff, bool_decide_eq_true. split.
  - intros [[H1 _] H2]. split; [exact H2|]. intros E. rewrite E in H1. discriminate.
  - intros [H1 H2]. rewrite <- H1.
    destruct (readSlot regionColors a); try congruence; repeat split.
Qed.

Lemma queries_keeps (A : Arith) (svgEl : SVGElement A) (edges : list (N * N)) :
  forall s s' : Session A,
    queries svgEl s edges = Ok s' ->
    forall k q, cache s !! k = Some q -> cache s' !! k = Some q.
Proof.
  unfold queries.
  induction edges as [|[a b] edges IH]; intros s s' H k q Hk; cbn [foldM] in H.
  - injection H as <-. exact Hk.
  - cbn [fst snd] in H.
    destruct (getBorderMidpoint s svgEl a b) as [[mid s1]|] eqn:E;
      [|discriminate H].
    cbn [mbind result_bind snd] in H. apply (IH s1 s' H).
    unfold getBorderMidpoint in E.
    destruct (cache s !! cacheKey a b) as [c|] eqn:Ec.
    + injection E as _ <-. exact Hk.
    + destruct (computeBorderMidpoint svgEl a b) as [m|]; [|discriminate E].
      cbn [mbind result_bind] in E. injection E as _ <-. cbn [cache].
      rewrite lookup_insert_ne; [exact Hk|]. intros <-. congruence.
Qed.

(** With every index of [adjacency] in range the engine does not throw,
    leaves a marker group exactly when there is a conflict, and drops
    nothing from the cache. *)
Lemma drawConflictMarkers_facts (A : Arith) (svgEl : SVGElement A)
    (adjacency : list (N * N)) (regionColors : list Slot) (s : Session A) :
  adjacencyInRange adjacency svgEl ->
  let d := drawConflictMarkers svgEl adjacency regionColors s in
  drawnThrew d = false /\
  (drawnGroup d = None <-> conflictEdges adjacency regionColors = []) /\
  (forall k q, cache s !! k = Some q -> cache (drawnCache d) !! k = Some q).
Proof.
  intros Hin. cbv zeta.
  assert (Hin' : Forall (fun edge : N * N =>
                           N.to_nat (fst edge) < length svgEl
                           /\ N.to_nat (snd edge) < length svgEl)
                        (conflictEdges adjacency regionColors)).
  { unfold adjacencyInRange in Hin. rewrite List.Forall_forall in *.
    intros e He. apply Hin. unfold conflictEdges in He.
    apply filter_In in He. apply He. }
  unfold drawConflictMarkers.
  destruct (conflictEdges adjacency regionColors) as [|e edges] eqn:E.
  - cbn. split; [reflexivity|]. split; [split; reflexivity|]. intros k q H; exact H.
  - destruct (drawCrosses_spec A svgEl (e :: edges) s []) as [I1 I2].
    specialize (I2 Hin').
    destruct (drawCrosses svgEl (e :: edges) s []) as [[s' g] threw].
    cbn [fst snd drawnThrew drawnGroup drawnCache] in *. subst threw.
    split; [reflexivity|]. split; [split; discriminate|].
    destruct (I1 eq_refl) as [_ Q]. apply (queries_keeps A svgEl _ _ _ Q).
Qed.

(** X9: [drawConflictMarkers] marks exactly the edges whose two ends read the
    same value other than [null]; an uncoloured region never conflicts.
    Without such an edge the call leaves no marker group and does not touch
    the cache.  When every such edge has its two paths the call does not
    throw; and a call that does not throw leaves a group of two lines for
    each such edge, and the cache in the state that querying these edges
    one after the other leads to. *)
Theorem drawConflictMarkers_spec (A : Arith) (svgEl : SVGElement A)
    (adjacency : list (N * N)) (regionColors : list Slot) (s : Session A) :
  let d := drawConflictMarkers svgEl adjacency regionColors s in
  let edges := conflictEdges adjacency regionColors in
  (forall a b, In (a, b) edges <->
               In (a, b) adjacency /\
               readSlot regionColors a = readSlot regionColors b /\
               readSlot regionColors a <> Null) /\
  (edges = [] -> d = mkDrawn s None false) /\
  (Forall (fun edge : N * N => N.to_nat (fst edge) < length svgEl
                               /\ N.to_nat (snd edge) < length svgEl) edges ->
   drawnThrew d = false) /\
  (edges <> [] -> drawnThrew d = false ->
   exists g, drawnGroup d = Some g /\ length g = 2 * length edges /\
             queries svgEl s edges = Ok (drawnCache d)).
Proof.
  cbv zeta. split; [|split; [|split]].
  - intros a b. unfold conflictEdges. rewrite filter_In, conflicting_spec.
    reflexivity.
  - intros E. unfold drawConflictMarkers. rewrite E. reflexivity.
  - intros Hall. unfold drawConflictMarkers.
    destruct (conflictEdges adjacency regionColors) as [|e edges] eqn:E;
      [reflexivity|].
    pose proof (proj2 (drawCrosses_spec A svgEl (e :: edges) s []) Hall) as H.
    destruct (drawCrosses svgEl (e :: edges) s []) as [[s' g] threw].
    cbn [snd drawnThrew] in *. exact H.
  - intros Hne Ht. unfold drawConflictMarkers in *.
    destruct (conflictEdges adjacency regionColors) as [|e edges] eqn:E;
      [congruence|].
    pose proof (proj1 (drawCrosses_spec A svgEl (e :: edges) s [])) as H.
    destruct (drawCrosses svgEl (e :: edges) s []) as [[s' g] threw].
    cbn [fst snd drawnThrew drawnGroup drawnCache] in *. subst threw.
    destruct (H eq_refl) as [L Q]. exists g. split; [reflexivity|].
    split; [exact L|exact Q].
Qed.

Lemma drawConflictMarkers_spec_witness :
  exists g,
    drawnGroup (drawConflictMarkers threePaths threeBorders
                  [Color 1; Color 1; Null] freshSession) = Some g /\
    length g = 2 * length (conflictEdges threeBorders [Color 1; Color 1; Null]) /\
    queries threePaths freshSession
            (conflictEdges threeBorders [Color 1; Color 1; Null])
    = Ok (drawnCache (drawConflictMarkers threePaths threeBorders
                        [Color 1; Color 1; Null] freshSession)).
Proof.
  apply (proj2 (proj2 (proj2 (drawConflictMarkers_spec F64 threePaths threeBorders
                                [Color 1; Color 1; Null] freshSession)))).
  - discriminate.
  - vm_compute. reflexivity.
Defined.

(** ** The page script *)

Lemma readSlot_notNull (rc : list Slot) (i : N) :
  allColored rc = true -> notNull (readSlot rc i) = true.
Proof.
  unfold allColored, readSlot. rewrite forallb_forall. intros H.
  destruct (rc !! N.to_nat i) as [c|] eqn:E; [|reflexivity].
  apply H. apply list_elem_of_In. apply (list_elem_of_lookup_2 rc _ c E).
Qed.

Lemma validColoring_conflicts (adjacency : list (N * N)) (rc : list Slot) :
  allColored rc = true ->
  (validColoring adjacency rc = true <-> conflictEdges adjacency rc = []).
Proof.
  intros Hall. unfold validColoring, conflictEdges.
  induction adjacency as [|[a b] adj IH]; cbn [forallb List.filter fst snd].
  - split; reflexivity.
  - unfold conflicting at 1. cbn [fst snd].
    rewrite !(readSlot_notNull rc _ Hall). cbn [andb].
    destruct (sameSlot (readSlot rc a) (readSlot rc b)); cbn [negb andb].
    + split; discriminate.
    + exact IH.
Qed.

Section PageFacts.

Variable A : Arith.
Variable COUNTRIES : list string.
Variable adjacency : list (N * N).
Variable svgEl : SVGElement A.

Local Abbreviation Page := (Page A).

Lemma redraw_spec (p : Page) :
  adjacencyInRange adjacency svgEl ->
  exists (s : Session A) (g : option (list (Line A))),
    redraw adjacency svgEl p
    = (mkPage (regionColors p) (solved p) (paletteState p) s g
              (coloredCount p) (storedColors p) (storedCompleted p), false) /\
    (g = None <-> conflictEdges adjacency (regionColors p) = []) /\
    (forall k q, cache (borderMidpointCache p) !! k = Some q ->
                 cache s !! k = Some q).
Proof.
  intros Hin. unfold redraw.
  destruct (drawConflictMarkers_facts A svgEl adjacency (regionColors p)
              (borderMidpointCache p) Hin) as (Ht & Hg & Hc).
  rewrite Ht. eexists. eexists. split; [reflexivity|]. split; [exact Hg|exact Hc].
Qed.

End PageFacts.

Lemma checkCompletion_facts (A : Arith) (adjacency : list (N * N))
    (p : Page A) :
  let p' := checkCompletion adjacency p in
  let done := allColored (regionColors p) = true
              /\ conflictEdges adjacency (regionColors p) = [] in
  (solved p' = true <-> solved p = true \/ done) /\
  (storedCompleted p' = true <-> storedCompleted p = true \/ done) /\
  regionColors p' = regionColors p /\
  paletteState p' = paletteState p /\
  borderMidpointCache p' = borderMidpointCache p /\
  conflictMarkers p' = conflictMarkers p /\
  coloredCount p' = coloredCount p /\
  storedColors p' = storedColors p.
Proof.
  cbv zeta. unfold checkCompletion.
  destruct (allColored (regionColors p)) eqn:Hall; cbn [andb].
  - pose proof (validColoring_conflicts adjacency (regionColors p) Hall) as Hv.
    destruct (validColoring adjacency (regionColors p)) eqn:V.
    + pose proof (proj1 Hv eq_refl) as E. cbn.
      split; [split; [intros _; right; split; [reflexivity|exact E]|reflexivity]|].
      split; [split; [intros _; right; split; [reflexivity|exact E]|reflexivity]|].
      repeat split.
    + split; [split; [intros H; left; exact H|]|].
      { intros [H|[_ E]]; [exact H|]. apply Hv in E. discriminate E. }
      split; [split; [intros H; left; exact H|]|].
      { intros [H|[_ E]]; [exact H|]. apply Hv in E. discriminate E. }
      repeat split.
  - split; [split; [intros H; left; exact H|]|].
    { intros [H|[E _]]; [exact H|discriminate E]. }
    split; [split; [intros H; left; exact H|]|].
    { intros [H|[E _]]; [exact H|discriminate E]. }
    repeat split.
Qed.

(** X10: [checkCompletion] declares the puzzle solved exactly when no slot of
    [regionColors] is [null] and [drawConflictMarkers] would find no edge
    to mark; it then also stores the completion item.  It never takes
    [solved] back, and changes nothing else. *)
Theorem checkCompletion_spec (A : Arith) (adjacency : list (N * N))
    (p : Page A) :
  let p' := checkCompletion adjacency p in
  let done := allColored (regionColors p) = true
              /\ conflictEdges adjacency (regionColors p) = [] in
  (solved p' = true <-> solved p = true \/ done) /\
  (storedCompleted p' = true <-> storedCompleted p = true \/ done) /\
  regionColors p' = regionColors p /\
  paletteState p' = paletteState p /\
  borderMidpointCache p' = borderMidpointCache p /\
  conflictMarkers p' = conflictMarkers p /\
  coloredCount p' = coloredCount p /\
  storedColors p' = storedColors p.
Proof. exact (checkCompletion_facts A adjacency p). Qed.

(** X11: [paintRegion] on a page that is solved does nothing.  On a page that
    is not, with a path for the index and for every index of [adjacency],
    and ids that are no names of [Object.prototype], it returns without
    throwing, and then: the slot holds what the tool
    writes; the counter shows the number of coloured slots; the stored
    colours are those of the page; there is a marker group exactly when
    some edge conflicts; nothing has left the midpoint cache; and the page
    is solved exactly when the tool was a colour, no slot is [null] and no
    edge conflicts.  An index without a path makes it throw. *)
Theorem paintRegion_spec (A : Arith) (COUNTRIES : list string)
    (adjacency : list (N * N)) (svgEl : SVGElement A) (p : Page A)
    (index : N) :
  (solved p = true ->
   paintRegion COUNTRIES adjacency svgEl p index = (p, false)) /\
  (solved p = false -> length svgEl <= N.to_nat index ->
   snd (paintRegion COUNTRIES adjacency svgEl p index) = true) /\
  (solved p = false -> N.to_nat index < length svgEl ->
   adjacencyInRange adjacency svgEl -> plainIds COUNTRIES ->
   exists p',
     paintRegion COUNTRIES adjacency svgEl p index = (p', false) /\
     regionColors p' = writeSlot (regionColors p) index (toolValue p) /\
     coloredCount p' = colored (regionColors p') /\
     storedColors p' = Some (savedColors COUNTRIES (regionColors p')) /\
     (conflictMarkers p' = None <->
      conflictEdges adjacency (regionColors p') = []) /\
     (forall k q, cache (borderMidpointCache p) !! k = Some q ->
                  cache (borderMidpointCache p') !! k = Some q) /\
     (solved p' = true <->
      selectedEraser (paletteState p) = false /\
      allColored (regionColors p') = true /\
      conflictEdges adjacency (regionColors p') = []) /\
     paletteState p' = paletteState p).
Proof.
  split; [|split].
  - intros Hs. unfold paintRegion. rewrite Hs. reflexivity.
  - intros Hs Hi. unfold paintRegion. rewrite Hs.
    destruct (Nat.leb_spec (length svgEl) (N.to_nat index)) as [_|H]; [reflexivity|lia].
  - intros Hs Hi Hin _. unfold paintRegion. rewrite Hs.
    destruct (Nat.leb_spec (length svgEl) (N.to_nat index)) as [H|_]; [lia|].
    fold (toolValue p).
    set (p1 := mkPage (writeSlot (regionColors p) index (toolValue p)) false
                 (paletteState p) (borderMidpointCache p) (conflictMarkers p)
                 (coloredCount p) (storedColors p) (storedCompleted p)).
    destruct (redraw_spec A adjacency svgEl p1 Hin) as (s & g & Hr & Hg & Hc).
    rewrite Hr. cbn [regionColors solved paletteState coloredCount storedColors
                     storedCompleted p1] in *.
    set (p3 := updateCounter (saveState COUNTRIES _)).
    assert (R3 : regionColors p3 = writeSlot (regionColors p) index (toolValue p))
      by reflexivity.
    destruct (selectedEraser (paletteState p)) eqn:He.
    + exists p3. split; [reflexivity|]. split; [exact R3|].
      split; [reflexivity|]. split; [reflexivity|]. split; [exact Hg|].
      split; [exact Hc|]. split; [|reflexivity].
      cbn. split; [discriminate|]. intros [E _]. discriminate E.
    + exists (checkCompletion adjacency p3).
      destruct (checkCompletion_facts A adjacency p3)
        as (C1 & _ & C3 & C4 & C5 & C6 & C7 & C8).
      cbv zeta in C1. rewrite R3 in *.
      split; [reflexivity|]. split; [exact C3|].
      split; [rewrite C7, C3; reflexivity|].
      split; [rewrite C8, C3; reflexivity|].
      split; [rewrite C6, C3; exact Hg|].
      split; [rewrite C5; exact Hc|].
      split; [|rewrite C4; reflexivity].
      rewrite C1, C3. cbn [solved p3 updateCounter saveState].
      split.
      * intros [E|[E1 E2]]; [discriminate E|]. split; [reflexivity|]. split; assumption.
      * intros (_ & E1 & E2). right. split; assumption.
Qed.

Lemma paintRegion_spec_witness :
  let p := freshPage threeCountries freshSession None false in
  exists p',
    paintRegion threeCountries threeBorders threePaths p 0 = (p', false) /\
    regionColors p' = writeSlot (regionColors p) 0 (toolValue p) /\
    coloredCount p' = colored (regionColors p') /\
    storedColors p' = Some (savedColors threeCountries (regionColors p')) /\
    (conflictMarkers p' = None <->
     conflictEdges threeBorders (regionColors p') = []) /\
    (forall k q, cache (borderMidpointCache p) !! k = Some q ->
                 cache (borderMidpointCache p') !! k = Some q) /\
    (solved p' = true <->
     selectedEraser (paletteState p) = false /\
     allColored (regionColors p') = true /\
     conflictEdges threeBorders (regionColors p') = []) /\
    paletteState p' = paletteState p.
Proof.
  apply (proj2 (proj2 (paintRegion_spec F64 threeCountries threeBorders threePaths
                         (freshPage threeCountries freshSession None false) 0))).
  - reflexivity.
  - simpl. lia.
  - repeat constructor.
  - reflexivity.
Defined.

(** ** Stored colours *)

Lemma saveStep_lookup (rc : list Slot) (m : gmap string N) (i : nat)
    (id k : string) :
  saveStep rc m (i, id) !! k
  = if decide (k = id) then slotValue (readSlot rc (N.of_nat i)) (m !! k)
    else m !! k.
Proof.
  unfold saveStep. cbn [fst snd].
  destruct (decide (k = id)) as [->|Hne].
  - destruct (readSlot rc (N.of_nat i)); cbn [slotValue].
    + apply lookup_delete_eq.
    + reflexivity.
    + apply lookup_insert_eq.
  - destruct (readSlot rc (N.of_nat i)).
    + apply lookup_delete_ne. congruence.
    + reflexivity.
    + apply lookup_insert_ne. congruence.
Qed.

Lemma savedColors_fold (rc : list Slot) (ics : list (nat * string)) :
  NoDup (map snd ics) ->
  forall (m : gmap string N) (k : string),
    (forall i, In (i, k) ics ->
               fold_left (saveStep rc) ics m !! k
               = slotValue (readSlot rc (N.of_nat i)) (m !! k)) /\
    ((forall i, ~ In (i, k) ics) -> fold_left (saveStep rc) ics m !! k = m !! k).
Proof.
  induction ics as [|[j id] ics IH]; intros Hnd m k; cbn [fold_left].
  - split; [intros i []|reflexivity].
  - cbn [map snd] in Hnd. apply NoDup_cons in Hnd. destruct Hnd as [Hid Hnd].
    destruct (IH Hnd (saveStep rc m (j, id)) k) as [I1 I2].
    assert (Hfresh : forall i, ~ In (i, id) ics).
    { intros i Hi. apply Hid. apply list_elem_of_In.
      apply (in_map snd) in Hi. exact Hi. }
    split.
    + intros i [E|Hi].
      * injection E as -> ->. rewrite (I2 Hfresh), saveStep_lookup.
        destruct (decide (k = k)); [reflexivity|congruence].
      * rewrite (I1 i Hi), saveStep_lookup.
        destruct (decide (k = id)) as [->|_]; [|reflexivity].
        exfalso. apply (Hfresh i Hi).
    + intros Hk. rewrite I2 by (intros i Hi; apply (Hk i); right; exact Hi).
      rewrite saveStep_lookup.
      destruct (decide (k = id)) as [->|_]; [|reflexivity].
      exfalso. apply (Hk j). left. reflexivity.
Qed.

Lemma imap_pair_In {T : Type} (l : list T) (i : nat) (x : T) :
  In (i, x) (imap pair l) <-> l !! i = Some x.
Proof.
  rewrite <- list_elem_of_In, list_elem_of_lookup. split.
  - intros (j & Hj). rewrite list_lookup_imap in Hj.
    destruct (l !! j) as [y|] eqn:E; [|discriminate Hj].
    cbn in Hj. injection Hj as <- <-. exact E.
  - intros H. exists i. rewrite list_lookup_imap, H. reflexivity.
Qed.

(** Under distinct ids the stored object holds, for each country, the
    colour of its slot, and nothing for a slot that is [null]. *)
Lemma savedColors_lookup (COUNTRIES : list string) (rc : list Slot)
    (i : nat) (id : string) :
  NoDup COUNTRIES -> COUNTRIES !! i = Some id ->
  savedColors COUNTRIES rc !! id = slotValue (readSlot rc (N.of_nat i)) None.
Proof.
  intros Hnd Hi. unfold savedColors.
  assert (Hnd' : NoDup (map snd (imap pair COUNTRIES))).
  { rewrite imap_pair_positions. exact Hnd. }
  destruct (savedColors_fold rc (imap pair COUNTRIES) Hnd' ∅ id) as [H _].
  rewrite (H i); [rewrite lookup_empty; reflexivity|].
  apply imap_pair_In. exact Hi.
Qed.

Section Restore.

Variable A : Arith.
Variable svgEl : SVGElement A.
Variable saved : gmap string N.

Lemma writeSlot_inside (rc : list Slot) (i : nat) (v : Slot) :
  i < length rc -> writeSlot rc (N.of_nat i) v = <[i := v]> rc.
Proof.
  intros H. unfold writeSlot. rewrite Nat2N.id.
  destruct (Nat.ltb_spec i (length rc)); [reflexivity|lia].
Qed.

(** The loop over the countries from index [k] on, with a path and a slot
    for each: it does not throw, keeps the length, and writes the stored
    colour of each country into its slot. *)
Lemma restore_spec (CS : list string) :
  forall (k : nat) (rc : list Slot),
    k + length CS <= length svgEl -> k + length CS <= length rc ->
    exists rc',
      restore svgEl (imap (fun i c => (k + i, c)) CS) saved rc = (rc', false) /\
      length rc' = length rc /\
      (forall j, j < k \/ k + length CS <= j -> rc' !! j = rc !! j) /\
      (forall i c, CS !! i = Some c ->
                   rc' !! (k + i) = match saved !! c with
                                    | Some v => Some (Color v)
                                    | None => rc !! (k + i)
                                    end).
Proof.
  induction CS as [|c CS IH]; intros k rc H1 H2; cbn [imap restore length] in *.
  - exists rc. split; [reflexivity|]. split; [reflexivity|].
    split; [reflexivity|]. intros i c Hc. rewrite lookup_nil in Hc. discriminate Hc.
  - cbn [fst snd].
    rewrite (imap_ext _ (fun i c => (S k + i, c)))
      by (intros i y _; cbn; f_equal; lia).
    replace (k + 0) with k by lia.
    destruct (saved !! c) as [v|] eqn:Ev.
    + destruct (Nat.leb_spec (length svgEl) k) as [Hk|_]; [lia|].
      rewrite writeSlot_inside by lia.
      destruct (IH (S k) (<[k := Color v]> rc)) as (rc' & R1 & R2 & R3 & R4);
        [lia|rewrite length_insert; lia|].
      exists rc'. split; [exact R1|]. split; [rewrite R2; apply length_insert|].
      split.
      * intros j Hj. rewrite R3 by lia. apply list_lookup_insert_ne. lia.
      * intros [|i] c' Hc'.
        { cbn in Hc'. injection Hc' as <-. rewrite Ev.
          replace (k + 0) with k by lia. rewrite R3 by lia.
          apply list_lookup_insert_eq. lia. }
        cbn in Hc'. replace (k + S i) with (S k + i) by lia.
        rewrite (R4 i c' Hc'). destruct (saved !! c'); [reflexivity|].
        apply list_lookup_insert_ne. lia.
    + destruct (IH (S k) rc) as (rc' & R1 & R2 & R3 & R4); [lia|lia|].
      exists rc'. split; [exact R1|]. split; [exact R2|]. split.
      * intros j Hj. apply R3. lia.
      * intros [|i] c' Hc'.
        { cbn in Hc'. injection Hc' as <-. rewrite Ev.
          replace (k + 0) with k by lia. apply R3. lia. }
        cbn in Hc'. replace (k + S i) with (S k + i) by lia.
        apply (R4 i c' Hc').
Qed.

End Restore.

Lemma restore_saved (A : Arith) (svgEl : SVGElement A)
    (COUNTRIES : list string) (rc0 : list Slot) :
  NoDup COUNTRIES ->
  length COUNTRIES <= length svgEl ->
  length rc0 = length COUNTRIES ->
  Forall (fun c => c <> Hole) rc0 ->
  restore svgEl (imap pair COUNTRIES) (savedColors COUNTRIES rc0)
          (replicate (length COUNTRIES) Null)
  = (rc0, false).
Proof.
  intros Hnd Hp Hl Hh.
  destruct (restore_spec A svgEl (savedColors COUNTRIES rc0) COUNTRIES 0
              (replicate (length COUNTRIES) Null))
    as (rc' & R1 & R2 & R3 & R4); [lia|rewrite length_replicate; lia|].
  change (imap (fun i c => (0 + i, c)) COUNTRIES) with (imap pair COUNTRIES) in R1.
  rewrite R1. f_equal. rewrite length_replicate in R2.
  apply list_eq. intros j.
  destruct (COUNTRIES !! j) as [c|] eqn:Ec.
  - specialize (R4 j c Ec). cbn [Nat.add] in R4. rewrite R4.
    rewrite (savedColors_lookup COUNTRIES rc0 j c Hnd Ec).
    apply lookup_lt_Some in Ec.
    unfold readSlot. rewrite Nat2N.id.
    destruct (lookup_lt_is_Some_2 rc0 j) as [x Hx]; [lia|]. rewrite Hx.
    cbn [default]. rewrite List.Forall_forall in Hh.
    assert (Hx' : x <> Hole).
    { apply Hh. apply list_elem_of_In. apply (list_elem_of_lookup_2 rc0 j x Hx). }
    destruct x; cbn [slotValue]; [congruence| |reflexivity].
    apply lookup_replicate_2. lia.
  - apply lookup_ge_None in Ec. rewrite R3 by lia.
    transitivity (@None Slot);
      [apply lookup_replicate_None; lia|symmetry; apply lookup_ge_None; lia].
Qed.

(** X12: reloading a page brings back what was saved.  With distinct country
    ids, none of them a name of [Object.prototype], a path for every country, and colours without holes, one for each
    country: [loadState], run on the page as the script sets it up, with
    the colours that [saveState] stored, restores exactly these colours.
    When every index of [adjacency] has its path it goes on to show their
    count, to leave a marker group exactly when some edge conflicts, and
    to make the page solved exactly when the completion item is stored. *)
Theorem loadState_restores (A : Arith) (COUNTRIES : list string)
    (adjacency : list (N * N)) (svgEl : SVGElement A) (s : Session A)
    (rc0 : list Slot) (completed : bool) :
  plainIds COUNTRIES ->
  NoDup COUNTRIES ->
  length COUNTRIES <= length svgEl ->
  length rc0 = length COUNTRIES ->
  Forall (fun c => c <> Hole) rc0 ->
  let p := loadState COUNTRIES adjacency svgEl
             (freshPage COUNTRIES s (Some (savedColors COUNTRIES rc0))
                        completed) in
  regionColors p = rc0 /\
  (adjacencyInRange adjacency svgEl ->
   coloredCount p = colored rc0 /\
   solved p = completed /\
   (conflictMarkers p = None <-> conflictEdges adjacency rc0 = [])).
Proof.
  intros _ Hnd Hp Hl Hh. cbv zeta. unfold loadState, freshPage.
  cbn [storedColors regionColors].
  rewrite (restore_saved A svgEl COUNTRIES rc0 Hnd Hp Hl Hh).
  cbn [solved paletteState borderMidpointCache conflictMarkers coloredCount
       storedCompleted].
  set (p1 := mkPage rc0 false (mkPalette 0 false) s None 0
               (Some (savedColors COUNTRIES rc0)) completed).
  split.
  - unfold redraw.
    destruct (drawnThrew (drawConflictMarkers svgEl adjacency (regionColors p1)
                            (borderMidpointCache p1))); [reflexivity|].
    cbn [updateCounter storedCompleted].
    destruct (storedCompleted p1); reflexivity.
  - intros Hin.
    destruct (redraw_spec A adjacency svgEl p1 Hin) as (s' & g & Hr & Hg & _).
    rewrite Hr. cbn [updateCounter storedCompleted regionColors solved p1] in *.
    destruct completed; cbn; (split; [reflexivity|]; split; [reflexivity|exact Hg]).
Qed.

Lemma loadState_restores_witness :
  let p := loadState threeCountries threeBorders threePaths
             (freshPage threeCountries freshSession
                (Some (savedColors threeCountries [Color 2; Null; Color 0]))
                false) in
  regionColors p = [Color 2; Null; Color 0] /\
  (adjacencyInRange threeBorders threePaths ->
   coloredCount p = colored [Color 2; Null; Color 0] /\
   solved p = false /\
   (conflictMarkers p = None <->
    conflictEdges threeBorders [Color 2; Null; Color 0] = [])).
Proof.
  apply (loadState_restores F64 threeCountries threeBorders threePaths
           freshSession [Color 2; Null; Color 0] false).
  - reflexivity.
  - unfold threeCountries. repeat constructor; cbn; intros H;
      repeat (apply elem_of_cons in H; destruct H as [H|H]; [discriminate H|]);
      inversion H.
  - simpl. lia.
  - reflexivity.
  - repeat constructor; discriminate.
Defined.

(** ** Cache keys *)

Lemma pretty_N_char_dashFree (x : N) :
  negb (Ascii.eqb (pretty_N_char x) "-") = true.
Proof. unfold pretty_N_char. repeat case_match; reflexivity. Qed.

Lemma pretty_N_go_dashFree (x : N) :
  forall s, dashFree s -> dashFree (pretty_N_go x s).
Proof.
  induction (N.lt_wf_0 x) as [x _ IH]; intros s Hs.
  destruct (N.eq_dec x 0%N) as [->|Hx]; [rewrite pretty_N_go_0; exact Hs|].
  rewrite pretty_N_go_step by lia. apply IH.
  - apply N.div_lt; lia.
  - unfold dashFree in *. cbn [allChars].
    rewrite pretty_N_char_dashFree, Hs. reflexivity.
Qed.

Lemma pretty_N_dashFree (x : N) : dashFree (pretty x).
Proof.
  unfold pretty, pretty_N. destruct (decide (x = 0%N)); [reflexivity|].
  apply pretty_N_go_dashFree. reflexivity.
Qed.

(** Two texts joined by a dash come apart in one way only when the first
    ones hold no dash. *)
Lemma dash_split (s1 s2 t1 t2 : string) :
  dashFree s1 -> dashFree s2 ->
  s1 +:+ "-" +:+ t1 = s2 +:+ "-" +:+ t2 -> s1 = s2 /\ t1 = t2.
Proof.
  unfold dashFree. revert s2.
  induction s1 as [|c s1 IH]; intros [|d s2] H1 H2 E.
  - injection E as E. split; [reflexivity|exact E].
  - exfalso. rewrite append_cons in E. injection E as E _.
    cbn [allChars] in H2. rewrite <- E in H2. discriminate H2.
  - exfalso. rewrite append_cons in E. injection E as E _.
    cbn [allChars] in H1. rewrite E in H1. discriminate H1.
  - rewrite !append_cons in E. injection E as -> E.
    cbn [allChars] in H1, H2. apply andb_true_iff in H1, H2.
    destruct (IH s2 (proj2 H1) (proj2 H2) E) as [-> ->]. split; reflexivity.
Qed.

(** X13: distinct pairs of regions never share a cache entry: two index pairs
    have the same key only when they are the same unordered pair. *)
Theorem cacheKey_injective (a b c d : N) :
  cacheKey a b = cacheKey c d <-> (a = c /\ b = d) \/ (a = d /\ b = c).
Proof.
  split.
  - unfold cacheKey. intros E.
    apply dash_split in E; try apply pretty_N_dashFree.
    destruct E as [E1 E2].
    apply (inj pretty) in E1. apply (inj pretty) in E2. lia.
  - intros [[-> ->]|[-> ->]]; [reflexivity|apply cacheKey_sym].
Qed.

(** ** Growth of the total length *)

Lemma totalLength_nonneg (A : Arith) (HA : Accumulates A) (segs : Shape A) :
  forall total : num A,
    leb A (of_Z A 0) total = true ->
    eqb A (fold_left (@addRing A) segs total) (fold_left (@addRing A) segs total)
    = true ->
    leb A (of_Z A 0) (fold_left (@addRing A) segs total) = true.
Proof.
  induction segs as [|seg segs IH]; intros total H0 H; cbn [fold_left] in *.
  - exact H0.
  - apply IH; [|exact H]. apply (@addRing_nonneg A HA total seg H0).
    apply (@totalLength_number A HA segs _ H).
Qed.

(** X14: the total length never goes down, rounding included.  Whenever the
    total length of a shape is a number it is at or above zero, and the
    total length of any leading rings of the shape is a number at or above
    zero and at or below it. *)
Theorem computeTotalLength_grows (A : Arith) (HA : Accumulates A)
    (HO : Ordered A) (front back : Shape A) :
  eqb A (computeTotalLength (front ++ back))
        (computeTotalLength (front ++ back)) = true ->
  leb A (of_Z A 0) (computeTotalLength (front ++ back)) = true /\
  leb A (of_Z A 0) (computeTotalLength front) = true /\
  leb A (computeTotalLength front) (computeTotalLength (front ++ back)) = true.
Proof.
  unfold computeTotalLength. rewrite fold_left_app. intros H.
  set (partial := fold_left (@addRing A) front (of_Z A 0)) in *.
  assert (Np : eqb A partial partial = true)
    by apply (@totalLength_number A HA back partial H).
  assert (Pp : leb A (of_Z A 0) partial = true)
    by apply (totalLength_nonneg A HA front _ (acc_zero HA) Np).
  split; [apply (totalLength_nonneg A HA back partial Pp H)|].
  split; [exact Pp|].
  apply (ord_total HO _ _ H Np).
  destruct (ltb A (fold_left (@addRing A) back partial) partial) eqn:E;
    [|reflexivity].
  pose proof (@totalLength_prefix A HA partial back partial Pp E) as Hlt.
  pose proof (ord_below HO _ _ Hlt) as H1.
  rewrite (ord_strict HO _ _ Hlt) in H1. discriminate H1.
Qed.

Lemma computeTotalLength_grows_witness :
  PrimFloat.leb 0 (computeTotalLength (squareA ++ squareC)) = true /\
  PrimFloat.leb 0 (computeTotalLength squareA) = true /\
  PrimFloat.leb (computeTotalLength squareA)
                (computeTotalLength (squareA ++ squareC)) = true.
Proof.
  apply (computeTotalLength_grows F64 F64_accumulates F64_ordered squareA squareC).
  vm_compute. reflexivity.
Defined.

(** ** The adjacency list of a generated page *)

Lemma edgeKey_joins (a b c d : string) :
  dashFree a -> dashFree b -> dashFree c -> dashFree d ->
  edgeKey (a, b) = edgeKey (c, d) -> joins a b (c, d).
Proof.
  unfold edgeKey, joins. cbn [fst snd]. intros Ha Hb Hc Hd.
  destruct (String.leb a b), (String.leb c d); intros E;
    apply dash_split in E; try assumption; destruct E as [-> ->];
    [left|right|right|left]; reflexivity.
Qed.

Lemma edgeKey_swap (a b : string) : edgeKey (a, b) = edgeKey (b, a).
Proof.
  unfold edgeKey. cbn [fst snd].
  destruct (String.leb a b) eqn:E1, (String.leb b a) eqn:E2; try reflexivity.
  - rewrite (String.leb_antisym a b E1 E2). reflexivity.
  - destruct (String.leb_total a b) as [H|H]; congruence.
Qed.

Section Adjacency.

Variable ids : list string.

Local Abbreviation present pair :=
  (hasCountry ids (fst pair) && hasCountry ids (snd pair)).

Lemma adjStep_fold (adjacency : list (string * string)) :
  forall (seen : gset string) (out : list (string * string)),
  exists extra,
    snd (fold_left (adjStep ids) adjacency (seen, out)) = out ++ extra /\
    sublist extra adjacency /\
    Forall (fun pair => (edgeKey pair ∉ seen) /\ present pair = true) extra /\
    NoDup (map edgeKey extra) /\
    ((forall p q, In p adjacency -> In q adjacency -> edgeKey p = edgeKey q ->
                  present p = present q) ->
     forall p, In p adjacency -> edgeKey p ∉ seen -> present p = true ->
               exists q, In q extra /\ edgeKey q = edgeKey p).
Proof.
  induction adjacency as [|x adj IH]; intros seen out; cbn [fold_left].
  - exists []. rewrite app_nil_r. split; [reflexivity|]. split; [constructor|].
    split; [constructor|]. split; [constructor|]. intros _ p [].
  - unfold adjStep at 2. cbn [fst snd].
    destruct (bool_decide (edgeKey x ∈ seen)) eqn:Hseen.
    + apply bool_decide_eq_true in Hseen.
      destruct (IH seen out) as (extra & E1 & E2 & E3 & E4 & E5).
      exists extra. split; [exact E1|]. split; [apply sublist_cons; exact E2|].
      split; [exact E3|]. split; [exact E4|].
      intros Hc p [<-|Hp] Hk Hpr; [contradiction|].
      apply E5; try assumption.
      intros p' q' Hp' Hq'. apply Hc; right; assumption.
    + apply bool_decide_eq_false in Hseen.
      destruct (present x) eqn:Hx.
      * destruct (IH ({[edgeKey x]} ∪ seen) (out ++ [x]))
          as (extra & E1 & E2 & E3 & E4 & E5).
        exists (x :: extra). rewrite E1, <- app_assoc.
        split; [reflexivity|]. split; [apply sublist_skip; exact E2|].
        split.
        { constructor; [split; [exact Hseen|exact Hx]|].
          eapply Forall_impl; [exact E3|]. cbn. intros p [Hp1 Hp2].
          split; [|exact Hp2]. intros Hin. apply Hp1.
          apply elem_of_union. right. exact Hin. }
        split.
        { cbn [map]. apply NoDup_cons. split; [|exact E4].
          intros Hin. apply list_elem_of_In, in_map_iff in Hin.
          destruct Hin as (q & Hq1 & Hq2).
          destruct (proj1 (List.Forall_forall _ _) E3 q Hq2) as [Hq3 _].
          apply Hq3. rewrite Hq1. apply elem_of_union. left.
          apply elem_of_singleton. reflexivity. }
        intros Hc p Hp Hk Hpr.
        destruct (decide (edgeKey p = edgeKey x)) as [Ek|Ek].
        { exists x. split; [left; reflexivity|]. symmetry. exact Ek. }
        destruct Hp as [<-|Hp]; [congruence|].
        destruct (E5 (fun p' q' Hp' Hq' => Hc p' q' (or_intror Hp') (or_intror Hq'))
                     p Hp) as (q & Hq1 & Hq2); [|exact Hpr|].
        { rewrite elem_of_union, elem_of_singleton. tauto. }
        exists q. split; [right; exact Hq1|exact Hq2].
      * destruct (IH ({[edgeKey x]} ∪ seen) out)
          as (extra & E1 & E2 & E3 & E4 & E5).
        exists extra. split; [exact E1|]. split; [apply sublist_cons; exact E2|].
        split.
        { eapply Forall_impl; [exact E3|]. cbn. intros p [Hp1 Hp2].
          split; [|exact Hp2]. intros Hin. apply Hp1.
          apply elem_of_union. right. exact Hin. }
        split; [exact E4|].
        intros Hc p Hp Hk Hpr.
        destruct (decide (edgeKey p = edgeKey x)) as [Ek|Ek].
        { exfalso. destruct Hp as [<-|Hp]; [congruence|].
          rewrite (Hc p x (or_intror Hp) (or_introl eq_refl) Ek) in Hpr.
          congruence. }
        destruct Hp as [<-|Hp]; [congruence|].
        apply (E5 (fun p' q' Hp' Hq' => Hc p' q' (or_intror Hp') (or_intror Hq'))
                  p Hp); [|exact Hpr].
        rewrite elem_of_union, elem_of_singleton. tauto.
Qed.

End Adjacency.

Lemma hasCountry_In (ids : list string) (id : string) :
  hasCountry ids id = true <-> In id ids.
Proof.
  unfold hasCountry. rewrite existsb_exists. split.
  - intros (x & Hx & E). apply String.eqb_eq in E. subst x. exact Hx.
  - intros H. exists id. split; [exact H|apply String.eqb_refl].
Qed.

(** X15: the adjacency list written into a page keeps the order of the source
    list, holds no edge twice in either order of its ids, and, as long as
    no id holds a dash, holds exactly the edges of the source list that
    join two countries of the page. *)
Theorem adjPairs_spec (ids : list string)
    (adjacency : list (string * string)) :
  sublist (adjPairs ids adjacency) adjacency /\
  NoDup (map edgeKey (adjPairs ids adjacency)) /\
  (forall a b, edgeKey (a, b) = edgeKey (b, a)) /\
  (Forall (fun pair => dashFree (fst pair) /\ dashFree (snd pair)) adjacency ->
   forall a b,
     (exists pair, In pair (adjPairs ids adjacency) /\ joins a b pair) <->
     (exists pair, In pair adjacency /\ joins a b pair) /\
     In a ids /\ In b ids).
Proof.
  unfold adjPairs.
  destruct (adjStep_fold ids adjacency ∅ []) as (extra & E1 & E2 & E3 & E4 & E5).
  rewrite E1. cbn [app].
  split; [exact E2|]. split; [exact E4|]. split; [exact edgeKey_swap|].
  intros Hd a b. rewrite List.Forall_forall in Hd, E3.
  assert (Hjoin : forall p q, In p adjacency -> In q adjacency ->
                    edgeKey p = edgeKey q -> joins (fst p) (snd p) q).
  { intros [p1 p2] [q1 q2] Hp Hq E.
    destruct (Hd _ Hp) as [D1 D2]. destruct (Hd _ Hq) as [D3 D4].
    apply (edgeKey_joins p1 p2 q1 q2 D1 D2 D3 D4 E). }
  split.
  - intros (pair & Hin & Hj). destruct (E3 pair Hin) as [_ Hp].
    apply andb_true_iff in Hp. rewrite !hasCountry_In in Hp.
    split.
    + exists pair. split; [|exact Hj].
      apply list_elem_of_In. apply (elem_of_sublist _ _ _ (proj2 (list_elem_of_In _ _) Hin) E2).
    + destruct Hj as [-> | ->]; cbn [fst snd] in Hp; tauto.
  - intros ((pair & Hin & Hj) & Ha & Hb).
    assert (Hc : forall p q, In p adjacency -> In q adjacency ->
                   edgeKey p = edgeKey q ->
                   hasCountry ids (fst p) && hasCountry ids (snd p)
                   = hasCountry ids (fst q) && hasCountry ids (snd q)).
    { intros p q Hp Hq E. destruct (Hjoin p q Hp Hq E) as [-> | ->].
      - reflexivity.
      - cbn [fst snd]. apply andb_comm. }
    destruct (E5 Hc pair Hin) as (q & Hq1 & Hq2).
    + apply not_elem_of_empty.
    + apply andb_true_iff. rewrite !hasCountry_In.
      destruct Hj as [-> | ->]; cbn [fst snd]; tauto.
    + exists q. split; [exact Hq1|].
      assert (Hq : In q adjacency).
      { apply list_elem_of_In.
        apply (elem_of_sublist _ _ _ (proj2 (list_elem_of_In _ _) Hq1) E2). }
      pose proof (Hjoin pair q Hin Hq (eq_sym Hq2)) as J.
      destruct Hj as [-> | ->]; cbn [fst snd] in J; unfold joins in *; tauto.
Qed.

Lemma adjPairs_spec_witness :
  (exists pair, In pair (adjPairs someCountries someBorders)
                /\ joins "se" "no" pair) <->
  (exists pair, In pair someBorders /\ joins "se" "no" pair) /\
  In "se"%string someCountries /\ In "no"%string someCountries.
Proof.
  apply (proj2 (proj2 (proj2 (adjPairs_spec someCountries someBorders)))).
  repeat constructor.
Defined.

(** ** When the runtime estimator throws *)

Lemma computeBorderMidpoint_throws (A : Arith) (svgEl : SVGElement A) (a b : N) :
  computeBorderMidpoint svgEl a b = TypeError <->
  length svgEl <= N.to_nat a \/ length svgEl <= N.to_nat b.
Proof.
  split.
  - intros E.
    destruct (Nat.le_gt_cases (length svgEl) (N.to_nat a)) as [Ha|Ha];
      [left; exact Ha|].
    destruct (Nat.le_gt_cases (length svgEl) (N.to_nat b)) as [Hb|Hb];
      [right; exact Hb|].
    destruct (computeBorderMidpoint_defined A svgEl a b Ha Hb) as [p Hp].
    congruence.
  - unfold computeBorderMidpoint, SVGElement. intros [H|H].
    + rewrite (proj2 (lookup_ge_None svgEl (N.to_nat a)) H). reflexivity.
    + rewrite (proj2 (lookup_ge_None svgEl (N.to_nat b)) H).
      match goal with
      | |- context [deref ?x ≫= _] => destruct x; reflexivity
      end.
Qed.

(** X16: the runtime estimator throws exactly when one of the two regions has
    no path element; a cache query throws exactly when, in addition, the
    pair is not in the cache: a pair that is cached is answered without
    any path. *)
Theorem getBorderMidpoint_throws (A : Arith) (svgEl : SVGElement A)
    (s : Session A) (a b : N) :
  (computeBorderMidpoint svgEl a b = TypeError <->
   length svgEl <= N.to_nat a \/ length svgEl <= N.to_nat b) /\
  (getBorderMidpoint s svgEl a b = TypeError <->
   cache s !! cacheKey a b = None /\
   (length svgEl <= N.to_nat a \/ length svgEl <= N.to_nat b)).
Proof.
  split; [apply computeBorderMidpoint_throws|].
  rewrite <- computeBorderMidpoint_throws. unfold getBorderMidpoint.
  destruct (cache s !! cacheKey a b) as [p|].
  - split; [discriminate|]. intros [E _]. discriminate E.
  - destruct (computeBorderMidpoint svgEl a b) as [p|]; cbn [mbind result_bind].
    + split; [discriminate|]. intros [_ E]. discriminate E.
    + split; [intros _; split; reflexivity|reflexivity].
Qed.

(** ** A target length that is not a number *)

Section NotANumber.

Variable A : Arith.
Hypothesis HO : Ordered A.

Lemma leb_nan (t x : num A) : eqb A t t = false -> leb A t x = false.
Proof.
  intros H. destruct (leb A t x) eqn:E; [|reflexivity].
  rewrite (ord_left HO _ _ E) in H. discriminate H.
Qed.

Lemma ringWalk_nan (t : num A) (rest : list (Point A)) :
  eqb A t t = false ->
  forall (acc : num A) (prev : Point A),
    exists acc', ringWalk t acc prev rest = inr acc'.
Proof.
  intros Ht. induction rest as [|q rest IH]; intros acc prev; cbn [ringWalk].
  - eexists. reflexivity.
  - rewrite (leb_nan t _ Ht). apply IH.
Qed.

Lemma shapeWalk_nan (t : num A) (segs : Shape A) :
  eqb A t t = false ->
  forall acc : num A, exists acc', shapeWalk t acc segs = inr acc'.
Proof.
  intros Ht. induction segs as [|seg segs IH]; intros acc; cbn [shapeWalk].
  - eexists. reflexivity.
  - destruct seg as [|p rest]; cbn [walkRing]; [apply IH|].
    destruct (ringWalk_nan t rest Ht acc p) as [acc' ->]. apply IH.
Qed.

End NotANumber.

(** X17: a target length that is NaN stops the walk nowhere: [pointAtLength]
    then returns what the fallback reads, the last point of the last ring,
    [undefined] when that ring is empty, and throws on the empty shape. *)
Theorem pointAtLength_nan (A : Arith) (HO : Ordered A) (segs : Shape A)
    (totalLen targetLen : num A) :
  eqb A targetLen targetLen = false ->
  pointAtLength segs totalLen targetLen =
  match last segs with
  | Some lastSeg => Ok (last lastSeg)
  | None => TypeError
  end.
Proof.
  intros Ht. unfold pointAtLength.
  destruct (shapeWalk_nan A HO targetLen segs Ht (of_Z A 0)) as [acc ->].
  reflexivity.
Qed.

Lemma pointAtLength_nan_witness :
  pointAtLength squareA 4%float PrimFloat.nan =
  match last squareA with
  | Some lastSeg => Ok (last lastSeg)
  | None => TypeError
  end.
Proof.
  apply (pointAtLength_nan F64 F64_ordered squareA 4%float PrimFloat.nan).
  reflexivity.
Defined.

(** ** The view box stays on the map *)

Lemma Rltb_cases (a b : R) :
  (Rltb a b = true /\ (a < b)%R) \/ (Rltb a b = false /\ (b <= a)%R).
Proof.
  unfold Rltb. destruct (Rlt_dec a b); [left|right]; split;
    try reflexivity; lra.
Qed.

Lemma xltb_fin (a b : R) : xltb (XFin a) (XFin b) = Rltb a b.
Proof. reflexivity. Qed.

Lemma xadd_fin (a b : R) : xadd (XFin a) (XFin b) = XFin (a + b).
Proof. reflexivity. Qed.

Lemma xsub_fin (a b : R) : xsub (XFin a) (XFin b) = XFin (a - b).
Proof. reflexivity. Qed.

Lemma xmul_fin (a b : R) : xmul (XFin a) (XFin b) = XFin (a * b).
Proof. reflexivity. Qed.

(** X18: after [clampViewBox] the width of the view box lies between a fifth
    of the base width and the base width, so that the zoom stays between 1
    and 5: this holds in every ordered arithmetic, binary64 included, when
    the widths are numbers.  In exact arithmetic on finite numbers, with a
    base box of positive width and of height at or above zero, the whole
    view box then lies inside the base box, and its height is its width
    times the aspect ratio of the base box. *)
Theorem clampViewBox_inside :
  (forall (A : Arith) (HO : Ordered A) (BASE_VB vb : ViewBox A),
      eqb A (vw vb) (vw vb) = true ->
      leb A (div A (vw BASE_VB) (of_Z A MAX_ZOOM)) (vw BASE_VB) = true ->
      leb A (div A (vw BASE_VB) (of_Z A MAX_ZOOM))
            (vw (clampViewBox BASE_VB vb)) = true /\
      leb A (vw (clampViewBox BASE_VB vb)) (vw BASE_VB) = true) /\
  (forall bx0 by0 bw bh x y w h : R,
      (0 < bw)%R -> (0 <= bh)%R ->
      exists x' y' w' h' : R,
        clampViewBox (finBox bx0 by0 bw bh) (finBox x y w h)
        = finBox x' y' w' h' /\
        (bw / 5 <= w' <= bw)%R /\ h' = (w' * (bh / bw))%R /\
        (bx0 <= x')%R /\ (x' + w' <= bx0 + bw)%R /\
        (by0 <= y')%R /\ (y' + h' <= by0 + bh)%R).
Proof.
  split.
  - intros A HO B vb Nw Hm. unfold clampViewBox. cbn [vw].
    pose proof (ord_left HO _ _ Hm) as Nm.
    pose proof (ord_right HO _ _ Hm) as NB.
    set (m := div A (vw B) (of_Z A MAX_ZOOM)) in *.
    set (w1 := if ltb A (vw B) (vw vb) then vw B else vw vb).
    assert (H1 : leb A w1 (vw B) = true /\ eqb A w1 w1 = true).
    { unfold w1. destruct (ltb A (vw B) (vw vb)) eqn:E.
      - split; [exact (ord_refl HO _ NB)|exact NB].
      - split; [exact (ord_total HO _ _ NB Nw E)|exact Nw]. }
    destruct H1 as [H1 N1].
    destruct (ltb A w1 m) eqn:E.
    + split; [exact (ord_refl HO _ Nm)|exact Hm].
    + split; [exact (ord_total HO _ _ N1 Nm E)|exact H1].
  - intros bx0 by0 bw bh x y w h Hw Hh.
    set (k := (bh / bw)%R).
    assert (Hk : (0 <= k)%R).
    { unfold k. apply Rmult_le_pos; [lra|].
      apply Rlt_le, Rinv_0_lt_compat. lra. }
    assert (Ek : (bw * k = bh)%R) by (unfold k; field; lra).
    assert (Hprod : forall r : R, (bw / 5 <= r <= bw)%R ->
                                  (0 <= r * k <= bh)%R).
    { intros r Hr. rewrite <- Ek. split.
      - apply Rmult_le_pos; lra.
      - apply Rmult_le_compat_r; lra. }
    unfold clampViewBox, finBox. cbn [vx vy vw vh].
    change (ltb XR) with xltb. change (add XR) with xadd.
    change (sub XR) with xsub. change (mul XR) with xmul.
    change (div XR) with xdiv. change (of_Z XR MAX_ZOOM) with (XFin 5).
    rewrite !xdiv_fin by lra. fold k.
    rewrite !xltb_fin.
    destruct (Rltb_cases bw w) as [[E1 H1]|[E1 H1]]; rewrite !E1; cbv iota;
      rewrite !xltb_fin;
      match goal with
      | |- context [Rltb ?a (bw / 5)] =>
          destruct (Rltb_cases a (bw / 5)) as [[E2 H2]|[E2 H2]]
      end; rewrite !E2; cbv iota;
      rewrite !xmul_fin;
      destruct (Rltb_cases x bx0) as [[E3 H3]|[E3 H3]]; rewrite !E3; cbv iota;
      destruct (Rltb_cases y by0) as [[E4 H4]|[E4 H4]]; rewrite !E4; cbv iota;
      rewrite !xadd_fin, !xltb_fin;
      match goal with
      | |- context [Rltb (bx0 + bw) ?a] =>
          destruct (Rltb_cases (bx0 + bw) a) as [[E5 H5]|[E5 H5]]
      end; rewrite !E5; cbv iota;
      match goal with
      | |- context [Rltb (by0 + bh) ?a] =>
          destruct (Rltb_cases (by0 + bh) a) as [[E6 H6]|[E6 H6]]
      end; rewrite !E6; cbv iota;
      rewrite ?xsub_fin;
      eexists; eexists; eexists; eexists;
      (split; [reflexivity|]);
      match goal with
      | |- (_ <= ?r <= _)%R /\ _ =>
          pose proof (Hprod r) as Hp;
          assert (Hr : (bw / 5 <= r <= bw)%R) by lra;
          specialize (Hp Hr)
      end;
      repeat split; lra.
Qed.

Lemma clampViewBox_inside_witness :
  PrimFloat.leb (800 / 5)%float (vw (clampViewBox europeBox strayBox)) = true /\
  PrimFloat.leb (vw (clampViewBox europeBox strayBox)) 800%float = true.
Proof.
  apply (proj1 clampViewBox_inside F64 F64_ordered europeBox strayBox).
  - reflexivity.
  - reflexivity.
Defined.

(** ** The palette shows the selected tool *)

Lemma renderPalette_lookup (numColors : N) (state : Palette)
    (enableEraser : bool) (i : nat) (s : Swatch) :
  snd (renderPalette numColors state enableEraser) !! i = Some s ->
  let state' := fst (renderPalette numColors state enableEraser) in
  (i < N.to_nat numColors /\
   s = mkSwatch false (negb (selectedEraser state')
                       && (N.of_nat i =? selectedColorIndex state')%N)) \/
  (i = N.to_nat numColors /\ enableEraser = true /\
   s = mkSwatch true (selectedEraser state')).
Proof.
  unfold renderPalette. cbn [fst snd].
  set (state' := if (numColors <=? selectedColorIndex state)%N
                 then mkPalette 0 (selectedEraser state) else state).
  intros H. apply lookup_app_Some in H. destruct H as [H|[Hl H]].
  - left. rewrite map_map in H. apply list_lookup_fmap_Some in H.
    destruct H as (k & -> & Hk).
    apply lookup_seq in Hk. destruct Hk as [-> Hk]. cbn [Nat.add].
    split; [exact Hk|reflexivity].
  - right. rewrite !length_map, length_seq in *.
    destruct enableEraser; [|rewrite lookup_nil in H; discriminate H].
    destruct (i - N.to_nat numColors) as [|j] eqn:E; [|discriminate H].
    cbn in H. injection H as <-. split; [lia|]. split; reflexivity.
Qed.

(** X19: after [renderPalette] the buttons show the tool of the state, and a
    colour that is selected is one of the colours of the palette.  From
    there, [selectColor] on one of these colours and [selectEraser] keep
    the buttons and the state in step. *)
Theorem palette_shows_selection (numColors : N) (state : Palette)
    (enableEraser : bool) :
  let rendered := renderPalette numColors state enableEraser in
  shows rendered /\
  selectedEraser (fst rendered) = selectedEraser state /\
  ((0 < numColors)%N -> (selectedColorIndex (fst rendered) < numColors)%N) /\
  (forall index : N,
      (index < numColors)%N ->
      shows (selectColor (snd rendered) (fst rendered) index)) /\
  shows (selectEraser (snd rendered) (fst rendered)).
Proof.
  cbv zeta. split; [|split; [|split; [|split]]].
  - intros i s H. apply renderPalette_lookup in H. cbv zeta in H.
    destruct H as [[_ ->]|(_ & _ & ->)]; reflexivity.
  - unfold renderPalette. cbn [fst].
    destruct (numColors <=? selectedColorIndex state)%N; reflexivity.
  - intros Hn. unfold renderPalette. cbn [fst].
    destruct (N.leb_spec numColors (selectedColorIndex state)); [exact Hn|assumption].
  - intros index Hi i s H. unfold selectColor in *. cbn [fst snd] in *.
    rewrite list_lookup_imap in H.
    destruct (snd (renderPalette numColors state enableEraser) !! i) as [s0|] eqn:E;
      [|discriminate H].
    cbn in H. injection H as <-. cbn [isEraser isSelected selectedEraser negb andb
                                            selectedColorIndex].
    apply renderPalette_lookup in E. cbv zeta in E.
    destruct E as [[_ ->]|(-> & _ & ->)]; cbn [isEraser]; [reflexivity|].
    apply N.eqb_neq. lia.
  - intros i s H. unfold selectEraser in *. cbn [fst snd] in *.
    cbn [selectedEraser negb andb].
    assert (G : forall (l : list Swatch) i s,
               selectFirstEraser (map (fun s => mkSwatch (isEraser s) false) l) !! i
               = Some s ->
               (forall j t, l !! j = Some t -> isEraser t = true ->
                            forall j', j' < j -> forall t', l !! j' = Some t' ->
                                                            isEraser t' = false) ->
               isSelected s = if isEraser s then true else false).
    { clear. induction l as [|t l IH]; intros i s H Hone; cbn in H.
      - rewrite lookup_nil in H. discriminate H.
      - destruct (isEraser t) eqn:Et.
        + destruct i as [|i]; cbn in H.
          * injection H as <-. reflexivity.
          * apply list_lookup_fmap_Some in H. destruct H as (t' & -> & Ht').
            cbn. destruct (isEraser t') eqn:Et'; [|reflexivity].
            exfalso. pose proof (Hone (S i) t' Ht' Et' 0 (Nat.lt_0_succ i) t eq_refl).
            congruence.
        + destruct i as [|i]; cbn in H.
          * injection H as <-. cbn. rewrite ?Et. reflexivity.
          * apply (IH i s H). intros j u Hu Eu j' Hj' u' Hu'.
            apply (Hone (S j) u Hu Eu (S j')); [lia|exact Hu']. }
    apply (G _ i s H).
    intros j t Ht Et j' Hj' t' Ht'.
    apply renderPalette_lookup in Ht, Ht'. cbv zeta in Ht, Ht'.
    destruct Ht as [[_ ->]|(-> & _ & ->)]; [discriminate Et|].
    destruct Ht' as [[_ ->]|(-> & _ & ->)]; [reflexivity|lia].
Qed.

Lemma palette_shows_selection_witness :
  shows (selectColor (snd (renderPalette 4 (mkPalette 7 false) true))
                     (fst (renderPalette 4 (mkPalette 7 false) true)) 2).
Proof.
  apply (proj1 (proj2 (proj2 (proj2
           (palette_shows_selection 4 (mkPalette 7 false) true)))) 2%N).
  reflexivity.
Defined.

(** ** Starting over *)

Lemma conflictEdges_blank (adjacency : list (N * N)) (n : nat) :
  Forall (fun edge : N * N => N.to_nat (fst edge) < n /\ N.to_nat (snd edge) < n)
         adjacency ->
  conflictEdges adjacency (replicate n Null) = [].
Proof.
  intros H. unfold conflictEdges.
  induction H as [|[a b] adj [Ha Hb] _ IH]; cbn [List.filter]; [reflexivity|].
  cbn [fst snd] in *. unfold conflicting at 1, readSlot. cbn [fst snd].
  rewrite (lookup_replicate_2 n Null (N.to_nat a) Ha). cbn. exact IH.
Qed.

(** X20: [startOver] on a page with as many paths as countries, and with a path
    for every index of [adjacency], does not throw and leaves the page as
    the script first set it up: no slot coloured, not solved, the first
    colour selected, no marker group, a counter of 0 and nothing stored.
    Only the midpoint cache is kept; and [loadState] then changes
    nothing. *)
Theorem startOver_resets (A : Arith) (COUNTRIES : list string)
    (adjacency : list (N * N)) (svgEl : SVGElement A) (p : Page A) :
  length svgEl = length COUNTRIES ->
  adjacencyInRange adjacency svgEl ->
  startOver COUNTRIES adjacency svgEl p
  = (freshPage COUNTRIES (borderMidpointCache p) None false, false) /\
  loadState COUNTRIES adjacency svgEl
            (freshPage COUNTRIES (borderMidpointCache p) None false)
  = freshPage COUNTRIES (borderMidpointCache p) None false.
Proof.
  intros Hl Hin. split; [|reflexivity].
  unfold startOver, redraw, drawConflictMarkers. cbn [regionColors].
  rewrite (conflictEdges_blank adjacency (length COUNTRIES)).
  - cbn. unfold updateCounter, freshPage. cbn. f_equal. f_equal.
    unfold colored. clear. induction (length COUNTRIES) as [|n IH]; [reflexivity|exact IH].
  - unfold adjacencyInRange in Hin. rewrite Hl in Hin. exact Hin.
Qed.

Lemma startOver_resets_witness :
  let p := fst (paintRegion threeCountries threeBorders threePaths
                  (freshPage threeCountries freshSession None false) 0) in
  startOver threeCountries threeBorders threePaths p
  = (freshPage threeCountries (borderMidpointCache p) None false, false) /\
  loadState threeCountries threeBorders threePaths
            (freshPage threeCountries (borderMidpointCache p) None false)
  = freshPage threeCountries (borderMidpointCache p) None false.
Proof.
  apply (startOver_resets F64 threeCountries threeBorders threePaths).
  - reflexivity.
  - repeat constructor.
Defined.

(** ** When geometryToPath throws *)

Lemma outOfBounds_throws (A : Arith) (lonBounds : option (Bounds A))
    (polygon : list (GeoRing A)) :
  outOfBounds lonBounds polygon = TypeError <->
  lonBounds <> None /\ polygon = [].
Proof.
  unfold outOfBounds. destruct lonBounds as [b|].
  - destruct polygon as [|r polygon]; cbn.
    + split; [intros _; split; [discriminate|reflexivity]|reflexivity].
    + split; [discriminate|]. intros [_ E]. discriminate E.
  - split; [discriminate|]. intros [E _]. congruence.
Qed.

(** X21: [geometryToPath] throws exactly when a crop rectangle is given and the
    geometry is a polygon without rings or a multi-polygon one of whose
    polygons has no ring: the crop test then reads the outer ring of
    nothing.  Without a crop rectangle, and for a geometry of any other
    type, it always returns a text. *)
Theorem geometryToPath_throws (A : Arith) (show : num A -> string)
    (proj : value A -> value A -> num A * num A) (geometry : Geometry A)
    (lonBounds : option (Bounds A)) :
  geometryToPath show proj geometry lonBounds = TypeError <->
  lonBounds <> None /\
  match geometry with
  | Polygon coordinates => coordinates = []
  | MultiPolygon coordinates => In [] coordinates
  | OtherGeometry => False
  end.
Proof.
  destruct geometry as [rings|polys|]; cbn [geometryToPath].
  - rewrite <- outOfBounds_throws.
    destruct (outOfBounds lonBounds rings) as [[|]|]; cbn [mbind result_bind].
    + split; discriminate.
    + split; discriminate.
    + split; reflexivity.
  - assert (G : forall parts,
               foldM (fun pathParts polygon =>
                        out ← outOfBounds lonBounds polygon;
                        if (out : bool) then Ok pathParts
                        else Ok (pathParts ++ map (ringToPath show proj) polygon))
                     polys parts = TypeError <->
               lonBounds <> None /\ In [] polys).
    { induction polys as [|poly polys IH]; intros parts; cbn [foldM In].
      - split; [discriminate|]. intros [_ []].
      - pose proof (outOfBounds_throws A lonBounds poly) as Ho.
        destruct (outOfBounds lonBounds poly) as [[|]|]; cbn [mbind result_bind].
        + rewrite IH. split; [intros [H1 H2]; split; [exact H1|right; exact H2]|].
          intros [H1 [H2|H2]]; [|split; assumption].
          discriminate (proj2 Ho (conj H1 H2)).
        + rewrite IH. split; [intros [H1 H2]; split; [exact H1|right; exact H2]|].
          intros [H1 [H2|H2]]; [|split; assumption].
          discriminate (proj2 Ho (conj H1 H2)).
        + destruct (proj1 Ho eq_refl) as [H1 H2].
          split; [intros _; split; [exact H1|left; exact H2]|reflexivity]. }
    specialize (G []).
    destruct (foldM _ polys []) as [parts|]; cbn [mbind result_bind].
    + rewrite <- G. split; discriminate.
    + rewrite <- G. split; reflexivity.
  - split; [discriminate|]. intros [_ []].
Qed.

(** * Shapes of several rings, and rounding *)

(** ** The round trip on shapes of several rings *)

Lemma shapeWalk_app (A : Arith) (t : num A) (s1 s2 : Shape A) :
  forall acc : num A,
    shapeWalk t acc (s1 ++ s2) =
    match shapeWalk t acc s1 with
    | inl p => inl p
    | inr acc' => shapeWalk t acc' s2
    end.
Proof.
  induction s1 as [|seg s1 IH]; intros acc; cbn [app shapeWalk]; [reflexivity|].
  destruct (walkRing t acc seg) as [p|acc']; [reflexivity|apply IH].
Qed.

Lemma addRing_fin (total : R) (ring : list (R * R)) :
  addRing (A := XR) (XFin total) (finRing ring) = XFin (addRingR total ring).
Proof.
  destruct ring as [|p rest]; [reflexivity|]. apply ringLength_fin.
Qed.

Lemma shapeLength_fin (s : list (list (R * R))) :
  forall total : R,
    fold_left (@addRing XR) (finShape s) (XFin total)
    = XFin (shapeLengthR total s).
Proof.
  induction s as [|ring s IH]; intros total; [reflexivity|].
  cbn [finShape map fold_left]. fold (finShape s).
  rewrite addRing_fin. apply IH.
Qed.

Lemma totalLength_fin (s : list (list (R * R))) :
  computeTotalLength (finShape s) = XFin (shapeLengthR 0 s).
Proof. exact (shapeLength_fin s 0). Qed.

Lemma lengthAt_fin (pre : list (list (R * R))) (p : R * R)
    (rest : list (R * R)) (i : nat) :
  lengthAt (finShape pre) (finRing (p :: rest)) i
  = XFin (ringLengthR (shapeLengthR 0 pre) p (take i rest)).
Proof.
  unfold lengthAt, computeTotalLength. rewrite fold_left_app.
  change (of_Z XR 0) with (XFin 0). rewrite shapeLength_fin.
  cbn [finRing map take fold_left addRing].
  rewrite (firstn_map fin i rest). apply ringLength_fin.
Qed.

Lemma addRingR_ge (total : R) (ring : list (R * R)) :
  (total <= addRingR total ring)%R.
Proof.
  destruct ring as [|p rest]; simpl; [lra|apply ringLengthR_ge].
Qed.

Lemma shapeLengthR_ge (s : list (list (R * R))) :
  forall total : R, (total <= shapeLengthR total s)%R.
Proof.
  induction s as [|ring s IH]; intros total; simpl; [lra|].
  pose proof (IH (addRingR total ring)). pose proof (addRingR_ge total ring).
  unfold shapeLengthR in *. lra.
Qed.

Lemma shapeLengthR_short (s : list (list (R * R))) (total : R) :
  Forall short s -> shapeLengthR total s = total.
Proof.
  induction 1 as [|ring s Hr _ IH]; [reflexivity|].
  unfold shapeLengthR in *. cbn [fold_left].
  replace (addRingR total ring) with total; [exact IH|].
  unfold short in Hr. destruct ring as [|p [|q rest]]; simpl in *; [reflexivity|reflexivity|lia].
Qed.

Lemma finShape_short (s : list (list (R * R))) :
  Forall short s -> Forall short (finShape s).
Proof.
  intros H. apply Forall_map. eapply Forall_impl; [exact H|].
  intros r Hr. unfold short, finRing in *. rewrite length_map. exact Hr.
Qed.

(** A target beyond the end of a ring lets the walk run through it. *)
Lemma ringWalk_beyond (rest : list (R * R)) :
  forall (acc t : R) (p : R * R),
    (ringLengthR acc p rest < t)%R ->
    ringWalk (A := XR) (XFin t) (XFin acc) (fin p) (finRing rest)
    = inr (XFin (ringLengthR acc p rest)).
Proof.
  induction rest as [|q rest IH]; intros acc t p H; [reflexivity|].
  cbn [finRing map ringWalk ringLengthR] in *. rewrite segLength_fin.
  cbn [add leb XR xadd xleb].
  pose proof (ringLengthR_ge rest (acc + distR p q) q).
  rewrite Rleb_false by lra. apply IH. exact H.
Qed.

Lemma walkRing_beyond (ring : list (R * R)) (acc t : R) :
  (addRingR acc ring < t)%R ->
  walkRing (A := XR) (XFin t) (XFin acc) (finRing ring)
  = inr (XFin (addRingR acc ring)).
Proof.
  destruct ring as [|p rest]; [reflexivity|]. apply ringWalk_beyond.
Qed.

(** Called with the length at which a shape ends, the walk stops at a
    vertex of the shape as soon as the shape has a segment. *)
Lemma shapeWalk_stops (s : list (list (R * R))) :
  forall acc : R,
    ~ Forall short s ->
    exists r w, In r s /\ In w r /\
      shapeWalk (A := XR) (XFin (shapeLengthR acc s)) (XFin acc) (finShape s)
      = inl (fin w).
Proof.
  induction s as [|ring s IH]; intros acc Hn.
  - exfalso. apply Hn. constructor.
  - cbn [finShape map shapeWalk]. fold (finShape s).
    change (shapeLengthR acc (ring :: s))
      with (shapeLengthR (addRingR acc ring) s).
    destruct (Rlt_le_dec (addRingR acc ring) (shapeLengthR (addRingR acc ring) s))
      as [Hlt|Hle].
    + rewrite (walkRing_beyond ring acc _ Hlt).
      destruct (IH (addRingR acc ring)) as (r & w & Hr & Hw & Hs).
      { intros Hs. rewrite (shapeLengthR_short s _ Hs) in Hlt. lra. }
      exists r, w. split; [right; exact Hr|]. split; [exact Hw|exact Hs].
    + assert (E : shapeLengthR (addRingR acc ring) s = addRingR acc ring).
      { pose proof (shapeLengthR_ge s (addRingR acc ring)). lra. }
      rewrite E.
      destruct ring as [|p [|q rest]].
      * cbn [finRing map walkRing addRingR] in *.
        destruct (IH acc) as (r & w & Hr & Hw & Hs).
        { intros Hs. apply Hn. constructor; [unfold short; simpl; lia|exact Hs]. }
        exists r, w. split; [right; exact Hr|]. split; [exact Hw|].
        cbn [addRingR] in E. rewrite E in Hs. exact Hs.
      * cbn [finRing map walkRing ringWalk addRingR ringLengthR] in *.
        destruct (IH acc) as (r & w & Hr & Hw & Hs).
        { intros Hs. apply Hn. constructor; [unfold short; simpl; lia|exact Hs]. }
        exists r, w. split; [right; exact Hr|]. split; [exact Hw|].
        rewrite E in Hs. exact Hs.
      * assert (Hv : exists v, (p :: q :: rest) !! length (q :: rest) = Some v).
        { apply lookup_lt_is_Some. simpl. lia. }
        destruct Hv as [v Hv].
        destruct (ringWalk_vertex (q :: rest) acc p (length (q :: rest)) Hv)
          as [Hw|[Hw _]]; [|discriminate Hw].
        rewrite firstn_all in Hw.
        exists (p :: q :: rest), v. split; [left; reflexivity|].
        split.
        -- apply list_elem_of_In. apply list_elem_of_lookup. eexists. exact Hv.
        -- cbn [walkRing finRing map addRingR]. cbn [finRing map] in Hw.
           rewrite Hw. reflexivity.
Qed.

Section SeveralRings.

Variables pre post : list (list (R * R)).
Variable ring : list (R * R).
Variable i : nat.
Variable v : R * R.
Variable totalLen : XReal.

Hypothesis Hv : ring !! i = Some v.

Local Abbreviation target := (lengthAt (finShape pre) (finRing ring) i).

Lemma finShape_split :
  finShape (pre ++ ring :: post) = finShape pre ++ finRing ring :: finShape post.
Proof. unfold finShape. rewrite map_app. reflexivity. Qed.

(** A vertex beyond the start of its ring. *)
Lemma vertex_beyond_start :
  ltb XR (computeTotalLength (finShape pre)) target = true ->
  pointAtLength (finShape (pre ++ ring :: post)) totalLen target
  = Ok (Some (fin v)).
Proof.
  intros H. unfold pointAtLength. rewrite finShape_split, shapeWalk_app.
  rewrite (shapeWalk_past XR_accumulates target (finShape pre) (of_Z XR 0)
             (acc_zero XR_accumulates) H).
  fold (computeTotalLength (finShape pre)).
  destruct ring as [|p rest]; [rewrite lookup_nil in Hv; discriminate Hv|].
  rewrite lengthAt_fin, totalLength_fin in *.
  cbn [shapeWalk walkRing finRing map].
  destruct (ringWalk_vertex rest (shapeLengthR 0 pre) p i Hv) as [Hw|[-> ->]].
  - change (map fin rest) with (finRing rest). rewrite Hw. reflexivity.
  - cbn [take ringLengthR ltb XR xltb] in H.
    unfold Rltb in H. destruct (Rlt_dec _ _) in H; [lra|discriminate H].
Qed.

(** A vertex of a ring before which no ring has a segment. *)
Lemma vertex_without_segment_before :
  Forall short pre -> 2 <= length ring \/ post = [] ->
  pointAtLength (finShape (pre ++ ring :: post)) totalLen target
  = Ok (Some (fin v)).
Proof.
  intros Hs Hr. unfold pointAtLength. rewrite finShape_split.
  rewrite (proj1 (@short_rings_skipped XR target (finShape pre) _
                    (finShape_short pre Hs) (of_Z XR 0))).
  destruct ring as [|p rest]; [rewrite lookup_nil in Hv; discriminate Hv|].
  rewrite lengthAt_fin, (shapeLengthR_short pre 0 Hs).
  change (of_Z XR 0) with (XFin 0).
  cbn [shapeWalk walkRing finRing map].
  destruct (ringWalk_vertex rest 0 p i Hv) as [Hw|[-> ->]].
  - change (map fin rest) with (finRing rest). rewrite Hw. reflexivity.
  - destruct Hr as [Hr| ->]; [simpl in Hr; lia|].
    cbn [map ringWalk finShape shapeWalk]. rewrite last_snoc.
    simpl in Hv. injection Hv as <-. reflexivity.
Qed.

(** A vertex at the length at which the rings before it end: the walk
    stops on one of them. *)
Lemma vertex_at_end_of_previous :
  target = computeTotalLength (finShape pre) -> ~ Forall short pre ->
  exists r w, In r pre /\ In w r /\
    pointAtLength (finShape (pre ++ ring :: post)) totalLen target
    = Ok (Some (fin w)).
Proof.
  intros He Hn. rewrite He, totalLength_fin.
  destruct (shapeWalk_stops pre 0 Hn) as (r & w & Hr & Hw & Hs).
  exists r, w. split; [exact Hr|]. split; [exact Hw|].
  unfold pointAtLength. rewrite finShape_split, shapeWalk_app.
  change (of_Z XR 0) with (XFin 0). rewrite Hs. reflexivity.
Qed.

End SeveralRings.

(** *** The walk never passes the vertex, in any arithmetic *)

Section NeverPast.

Variable A : Arith.

(** A walk that stops on a ring cut short stops there on the whole
    ring. *)
Lemma ringWalk_take (t : num A) (rest : list (Point A)) :
  forall (k : nat) (acc : num A) (p x : Point A),
    ringWalk t acc p (take k rest) = inl x -> ringWalk t acc p rest = inl x.
Proof.
  induction rest as [|q rest IH]; intros k acc p x H.
  - rewrite take_nil in H. exact H.
  - destruct k as [|k]; [discriminate H|].
    cbn [take ringWalk] in *.
    destruct (leb A t (add A acc (segLength p q))); [exact H|].
    exact (IH k _ _ _ H).
Qed.

(** The length a walk has accumulated when it leaves a ring or a shape is
    the one that [computeTotalLength] adds up. *)
Lemma ringWalk_through (t : num A) (rest : list (Point A)) :
  forall (acc a : num A) (p : Point A),
    ringWalk t acc p rest = inr a -> a = ringLength acc p rest.
Proof.
  induction rest as [|q rest IH]; intros acc a p H; cbn [ringWalk ringLength] in *.
  - injection H as <-. reflexivity.
  - destruct (leb A t (add A acc (segLength p q))); [discriminate H|].
    exact (IH _ _ _ H).
Qed.

Lemma shapeWalk_through (t : num A) (segs : Shape A) :
  forall acc a : num A,
    shapeWalk t acc segs = inr a -> a = fold_left (@addRing A) segs acc.
Proof.
  induction segs as [|seg segs IH]; intros acc a H; cbn [shapeWalk fold_left] in *.
  - injection H as <-. reflexivity.
  - destruct (walkRing t acc seg) as [x|acc'] eqn:Hw; [discriminate H|].
    rewrite (IH _ _ H). f_equal.
    destruct seg as [|p rest]; cbn [walkRing addRing] in *.
    + injection Hw as <-. reflexivity.
    + exact (ringWalk_through _ _ _ _ _ Hw).
Qed.

(** The walk over a ring stops at the latest on the segment at whose end
    the accumulated length is the target. *)
Lemma ringWalk_reaches (rest : list (Point A)) :
  forall (acc : num A) (p : Point A),
    rest <> [] ->
    leb A (ringLength acc p rest) (ringLength acc p rest) = true ->
    exists x, ringWalk (ringLength acc p rest) acc p rest = inl x.
Proof.
  induction rest as [|q rest IH]; intros acc p Hne Hl; [congruence|].
  destruct rest as [|q' rest].
  - cbn [ringLength ringWalk] in *. rewrite Hl. eexists. reflexivity.
  - change (ringLength acc p (q :: q' :: rest))
      with (ringLength (add A acc (segLength p q)) q (q' :: rest)) in *.
    set (t := ringLength (add A acc (segLength p q)) q (q' :: rest)) in *.
    cbn [ringWalk].
    destruct (leb A t (add A acc (segLength p q))); [eexists; reflexivity|].
    apply IH; [discriminate|exact Hl].
Qed.

Lemma walk_never_past (pre post : Shape A) (ring : Ring A) (i : nat)
    (totalLen : num A) :
  S i < length ring ->
  leb A (lengthAt pre ring (S i)) (lengthAt pre ring (S i)) = true ->
  exists x : Point A,
    shapeWalk (lengthAt pre ring (S i)) (of_Z A 0)
              (pre ++ [take (S (S i)) ring]) = inl x /\
    pointAtLength (pre ++ ring :: post) totalLen (lengthAt pre ring (S i))
    = Ok (Some x).
Proof.
  intros Hi Hl. set (t := lengthAt pre ring (S i)) in *.
  assert (Hcut : exists x, shapeWalk t (of_Z A 0)
                             (pre ++ [take (S (S i)) ring]) = inl x).
  { rewrite shapeWalk_app.
    destruct (shapeWalk t (of_Z A 0) pre) as [x|a] eqn:Hp;
      [eexists; reflexivity|].
    pose proof (shapeWalk_through _ _ _ _ Hp) as Ea.
    destruct ring as [|p rest]; [simpl in Hi; lia|].
    assert (Et : t = ringLength a p (take (S i) rest)).
    { unfold t, lengthAt, computeTotalLength. rewrite fold_left_app, <- Ea.
      reflexivity. }
    cbn [take shapeWalk walkRing].
    destruct (ringWalk_reaches (take (S i) rest) a p) as [x Hx].
    - destruct rest; [simpl in Hi; lia|discriminate].
    - rewrite <- Et. exact Hl.
    - rewrite <- Et in Hx. rewrite Hx. eexists. reflexivity. }
  destruct Hcut as [x Hx]. exists x. split; [exact Hx|].
  unfold pointAtLength.
  rewrite shapeWalk_app in Hx |- *.
  destruct (shapeWalk t (of_Z A 0) pre) as [y|a]; [congruence|].
  destruct ring as [|p rest]; [simpl in Hi; lia|].
  cbn [take shapeWalk walkRing] in Hx |- *.
  destruct (ringWalk t a p (take (S i) rest)) as [y|b] eqn:Hr; [|discriminate Hx].
  rewrite (ringWalk_take _ _ _ _ _ _ Hr). congruence.
Qed.

End NeverPast.




(** ** The walk from length 0, rounding included *)

Lemma binary_round_aux_number (s : bool) (m e : Z) (l : location) :
  (0 <= m)%Z -> binary_round_aux prec emax s m e l <> S754_nan.
Proof.
  intros Hm. unfold binary_round_aux.
  pose proof (shr_fexp_spec m e l Hm) as H1. cbv zeta in H1.
  destruct (shr_fexp prec emax m e l) as [mrs1 e1]. cbn [fst snd] in H1.
  destruct H1 as [_ H1].
  assert (H0 : (0 <= round_nearest_even (shr_m mrs1) (loc_of_shr_record mrs1))%Z).
  { pose proof (round_nearest_even_ge (shr_m mrs1) (loc_of_shr_record mrs1)).
    assert (0 <= shr_m mrs1)%Z; [|lia].
    rewrite H1. apply Z.div_pos; [exact Hm|]. apply Z.pow_pos_nonneg; lia. }
  pose proof (shr_fexp_spec _ e1 loc_Exact H0) as H2. cbv zeta in H2.
  destruct (shr_fexp prec emax _ e1 loc_Exact) as [mrs2 e2]. cbn [fst snd] in H2.
  destruct H2 as [_ H2].
  assert (H3 : (0 <= shr_m mrs2)%Z).
  { rewrite H2. apply Z.div_pos; [exact H0|]. apply Z.pow_pos_nonneg; lia. }
  destruct (shr_m mrs2); [discriminate| |lia].
  destruct (e2 <=? emax - prec)%Z; discriminate.
Qed.

Lemma f64_finite (x : float) :
  PrimFloat.is_finite x = true -> finiteSF (Prim2SF x).
Proof.
  unfold PrimFloat.is_finite, PrimFloat.is_nan, PrimFloat.is_infinity.
  rewrite !FloatAxioms.eqb_spec, FloatAxioms.abs_spec.
  change (Prim2SF infinity) with (S754_infinity false).
  destruct (Prim2SF x) as [s|[]| |s m e]; cbn; try discriminate; intros _; exact I.
Qed.

(** The square of a finite value is a number at or above zero. *)
Lemma SFmul_square (d : spec_float) :
  finiteSF d -> nonnegSF (SF64mul d d).
Proof.
  destruct d as [s|s| |s m e]; cbn; intros H; try contradiction; clear H.
  - destruct s; exact I.
  - replace (xorb s s) with false by (destruct s; reflexivity).
    destruct (binary_round_aux_nonneg (Zpos (m * m)) (e + e) loc_Exact) as [H|H];
      [|exact H].
    exfalso. revert H. apply binary_round_aux_number. lia.
Qed.

Lemma SFsqrt_number (x : spec_float) :
  nonnegSF x -> nonnegSF (SF64sqrt x).
Proof.
  intros Hx. destruct (SFsqrt_nonneg x) as [H|H]; [|exact H].
  exfalso. revert H.
  destruct x as [s|[]| |[] m e]; cbn in Hx |- *; try destruct Hx; try discriminate.
  unfold SF64sqrt, SFsqrt.
  destruct (SFsqrt_core_binary prec emax (Zpos m) e) as [[mz ez] lz] eqn:E.
  apply binary_round_aux_number.
  unfold SFsqrt_core_binary in E.
  destruct (Z.sqrtrem _) as [q r] eqn:Q in E.
  injection E as <- _ _.
  match type of Q with
  | Z.sqrtrem ?a = _ => pose proof (Z.sqrtrem_sqrt a) as S1
  end.
  rewrite Q in S1. cbn [fst] in S1. rewrite S1. apply Z.sqrt_nonneg.
Qed.

(** The length of a segment whose coordinate differences are finite. *)
Lemma f64_segLength (p q : Point F64) :
  PrimFloat.is_finite (sub F64 (X q) (X p)) = true ->
  PrimFloat.is_finite (sub F64 (Y q) (Y p)) = true ->
  nonnegSF (Prim2SF (segLength p q)).
Proof.
  intros Hx Hy. apply f64_finite in Hx. apply f64_finite in Hy.
  unfold segLength. cbn [sqrt add mul sub F64] in *.
  rewrite FloatAxioms.sqrt_spec. apply SFsqrt_number.
  rewrite FloatAxioms.add_spec.
  apply SFadd_nonneg; try apply FloatAxioms.Prim2SF_valid;
    rewrite FloatAxioms.mul_spec; apply SFmul_square; assumption.
Qed.

Lemma SFadd_zero_l (s : spec_float) :
  nonnegSF s -> nonnegSF (SF64add (S754_zero false) s).
Proof. destruct s as [[]|[]| |[] m e]; cbn; auto. Qed.

(** A finite difference has finite terms. *)
Lemma SFsub_finite (a b : spec_float) :
  finiteSF (SF64sub a b) -> finiteSF b.
Proof.
  destruct a as [sa|sa| |sa ma ea], b as [sb|sb| |sb mb eb]; cbn; auto;
    destruct sa, sb; cbn; auto.
Qed.

(** Adding a zero to a finite value gives a value that [===] finds equal
    to it. *)
Lemma SFadd_zero_r (x z : spec_float) :
  finiteSF x -> zeroSF z -> SFeqb (SF64add x z) x = true.
Proof.
  destruct x as [sx|sx| |sx mx ex], z as [sz|sz| |sz mz ez];
    intros H1 H2; try (exact (False_ind _ H1)); try (exact (False_ind _ H2)).
  - destruct sx, sz; reflexivity.
  - change (SFeqb (S754_finite sx mx ex) (S754_finite sx mx ex) = true).
    apply SFeqb_self. discriminate.
Qed.

Lemma SFmul_zero (z d : spec_float) :
  zeroSF z -> finiteSF d -> zeroSF (SF64mul z d).
Proof.
  destruct z as [sz|sz| |sz mz ez], d as [sd|sd| |sd md ed]; cbn;
    intros H1 H2; try contradiction; exact I.
Qed.

(** The fraction of the walk at length 0 from length 0 is a zero. *)
Lemma f64_fraction_zero (len : float) :
  nonnegSF (Prim2SF len) ->
  zeroSF (Prim2SF (if PrimFloat.ltb (of_Z F64 0) len
                   then div F64 (sub F64 (of_Z F64 0) (of_Z F64 0)) len
                   else of_Z F64 0)).
Proof.
  intros Hn. destruct (PrimFloat.ltb (of_Z F64 0) len) eqn:Hl.
  - apply f64_ltb_rank in Hl. destruct Hl as (_ & _ & Hl).
    cbn [div sub of_Z F64]. rewrite FloatAxioms.div_spec.
    change (Prim2SF (f64_of_Z 0 - f64_of_Z 0)) with (S754_zero false).
    cbn [of_Z F64] in Hl. rewrite F64_zero in Hl. unfold lexlt in Hl.
    destruct (Prim2SF len) as [s|[]| |[] m e]; cbn in Hn, Hl |- *;
      try destruct Hn; try lia; exact I.
  - cbn [of_Z F64]. rewrite F64_zero. exact I.
Qed.

Lemma f64_step_zero (x d t : float) :
  finiteSF (Prim2SF x) -> finiteSF (Prim2SF d) -> zeroSF (Prim2SF t) ->
  PrimFloat.eqb (x + t * d) x = true.
Proof.
  intros Hx Hd Ht.
  rewrite FloatAxioms.eqb_spec, FloatAxioms.add_spec, FloatAxioms.mul_spec.
  apply SFadd_zero_r; [exact Hx|]. apply SFmul_zero; assumption.
Qed.

(** The walk stops on the first segment of the first ring of two points
    when that segment's length passes the test. *)
Lemma pointAtLength_start (A : Arith) (pre post : Shape A) (p q : Point A)
    (rest : Ring A) (totalLen t : num A) :
  Forall short pre ->
  leb A t (add A (of_Z A 0) (segLength p q)) = true ->
  pointAtLength (pre ++ (p :: q :: rest) :: post) totalLen t
  = Ok (Some (interpolate t (of_Z A 0) p q)).
Proof.
  intros Hs Hl. unfold pointAtLength.
  rewrite (proj1 (@short_rings_skipped A t pre _ Hs (of_Z A 0))).
  cbn [shapeWalk walkRing ringWalk]. rewrite Hl. reflexivity.
Qed.

Lemma f64_point_at_zero (pre post : Shape F64) (p q : Point F64)
    (rest : Ring F64) (totalLen : float) :
  Forall short pre ->
  PrimFloat.is_finite (sub F64 (X q) (X p)) = true ->
  PrimFloat.is_finite (sub F64 (Y q) (Y p)) = true ->
  exists p' : Point F64,
    pointAtLength (pre ++ (p :: q :: rest) :: post) totalLen (of_Z F64 0)
    = Ok (Some p') /\
    eqb F64 (X p') (X p) = true /\ eqb F64 (Y p') (Y p) = true.
Proof.
  intros Hs Hx Hy.
  pose proof (f64_segLength p q Hx Hy) as Hn.
  exists (interpolate (of_Z F64 0) (of_Z F64 0) p q). split.
  - apply pointAtLength_start; [exact Hs|].
    apply f64_nonneg. cbn [add of_Z F64].
    rewrite FloatAxioms.add_spec, F64_zero. apply SFadd_zero_l. exact Hn.
  - pose proof (f64_fraction_zero (segLength p q) Hn) as Ht.
    apply f64_finite in Hx. apply f64_finite in Hy.
    unfold interpolate. fold (segLength p q).
    cbn [X Y px py pt ToNumber eqb add mul F64].
    split; apply f64_step_zero; try assumption.
    + cbn [sub F64] in Hx. rewrite FloatAxioms.sub_spec in Hx.
      exact (SFsub_finite _ _ Hx).
    + cbn [sub F64] in Hy. rewrite FloatAxioms.sub_spec in Hy.
      exact (SFsub_finite _ _ Hy).
Qed.

(** C10, as the code has it: rings with fewer than two points are skipped
    by the total length and by the walk.  When the first ring of at least
    two points starts with a segment whose coordinate differences are
    finite, [pointAtLength] at length 0 returns the first point of that
    ring: in binary64 a point whose coordinates [===] finds equal to those
    of the first point, in exact arithmetic, where the difference of finite
    coordinates is always finite, the first point itself.  When no ring has
    two points and the last ring has a point, it returns that last point
    through the fallback at the end of the walk.  In binary64, for a ring
    of one point followed by the unit square, it returns the corner
    (0,0). *)
Theorem C10_point_at_zero :
  (forall (A : Arith) (pre segs : Shape A) (t : num A),
      Forall short pre ->
      computeTotalLength (pre ++ segs) = computeTotalLength segs /\
      shapeWalk t (of_Z A 0) (pre ++ segs) = shapeWalk t (of_Z A 0) segs) /\
  (forall (pre post : Shape F64) (p q : Point F64) (rest : Ring F64)
          (totalLen : float),
      Forall short pre ->
      PrimFloat.is_finite (sub F64 (X q) (X p)) = true ->
      PrimFloat.is_finite (sub F64 (Y q) (Y p)) = true ->
      exists p' : Point F64,
        pointAtLength (pre ++ (p :: q :: rest) :: post) totalLen (of_Z F64 0)
        = Ok (Some p') /\
        eqb F64 (X p') (X p) = true /\ eqb F64 (Y p') (Y p) = true) /\
  (forall (pre post : Shape XR) (p q : R * R) (rest : Ring XR)
          (totalLen : XReal),
      Forall short pre ->
      pointAtLength (pre ++ (fin p :: fin q :: rest) :: post) totalLen
                    (of_Z XR 0)
      = Ok (Some (fin p))) /\
  (forall (A : Arith) (segs : Shape A) (totalLen targetLen : num A)
          (lastSeg : Ring A) (p : Point A),
      Forall short segs ->
      last segs = Some lastSeg -> last lastSeg = Some p ->
      pointAtLength segs totalLen targetLen = Ok (Some p)) /\
  pointAtLength ([pt F64 7 7]%float :: squareA) 4%float 0%float
  = Ok (Some (pt F64 0 0))%float.
Proof.
  split; [|split; [|split; [|split; [|vm_refl]]]].
  - intros A pre segs t Hs.
    destruct (@short_rings_skipped A t pre segs Hs (of_Z A 0)) as [Hw Hl].
    split; [exact Hl|exact Hw].
  - exact f64_point_at_zero.
  - intros pre post p q rest totalLen Hs.
    rewrite (pointAtLength_start XR pre post (fin p) (fin q) rest totalLen
               (of_Z XR 0) Hs).
    + change (of_Z XR 0) with (XFin 0).
      rewrite interpolate_fin, interpolateR_start. reflexivity.
    + rewrite segLength_fin. change (of_Z XR 0) with (XFin 0).
      cbn [add leb XR xadd xleb].
      apply Rleb_true. pose proof (distR_pos p q). lra.
  - intros A segs totalLen targetLen lastSeg p Hs Hl Hp.
    unfold pointAtLength.
    pose proof (proj1 (@short_rings_skipped A targetLen segs [] Hs (of_Z A 0)))
      as Hw.
    rewrite app_nil_r in Hw. rewrite Hw. simpl. rewrite Hl, Hp. reflexivity.
Qed.

Lemma C10_witness :
  exists p' : Point F64,
    pointAtLength ([[pt F64 7 7]] ++ [pt F64 3 4; pt F64 6 8; pt F64 6 0] :: [])%float
                  10%float (of_Z F64 0)
    = Ok (Some p') /\
    eqb F64 (X p') 3%float = true /\ eqb F64 (Y p') 4%float = true.
Proof.
  apply (proj1 (proj2 C10_point_at_zero) [[pt F64 7 7]]%float []
           (pt F64 3 4)%float (pt F64 6 8)%float [pt F64 6 0]%float 10%float).
  - repeat constructor.
  - reflexivity.
  - reflexivity.
Defined.

(** Shapes whose ring list is not empty and for which the walk from
    length 0 does not return the first point of the first ring of two
    points, nor the last point of the last ring.  With an empty last ring
    and no ring of two points, the fallback reads index -1 and returns
    [undefined].  The path ["M0,0L"] parses to a ring of two points, the
    second without coordinates: the length of its segment is NaN, no test
    of the walk passes, and the point without coordinates is returned.
    From (-1e308, 0) to (1e308, 0) the difference of the x overflows to
    Infinity, and the point returned is (NaN, 0). *)
Lemma C10_counterexample :
  pointAtLength (A := F64) [[]] 0%float 0%float = Ok None /\
  pointAtLength (A := F64) [[pt F64 1 1]; []]%float 0%float 0%float = Ok None /\
  (parsePath F64 "M0,0L"
   = Ok [[pt F64 0 0; mkPoint VUndefined VUndefined]]%float /\
   pointAtLength [[pt F64 0 0; mkPoint VUndefined VUndefined]]%float
                 (computeTotalLength
                    [[pt F64 0 0; mkPoint VUndefined VUndefined]]%float)
                 0%float
   = Ok (Some (mkPoint VUndefined VUndefined))) /\
  (PrimFloat.is_infinity (huge - (- huge)) = true /\
   pointAtLength [[pt F64 (- huge) 0; pt F64 huge 0]]%float
                 infinity 0%float
   = Ok (Some (pt F64 PrimFloat.nan 0))%float).
Proof.
  split; [reflexivity|]. split; [reflexivity|].
  split; [split; vm_refl|]. split; [reflexivity|vm_refl].
Qed.

(** ** The estimator in either order *)

Lemma SFopp_round (m : positive) (e : Z) :
  binary_round prec emax true m e = SFopp (binary_round prec emax false m e).
Proof.
  unfold binary_round.
  destruct (shl_align m e _) as [mz ez].
  unfold binary_round_aux.
  destruct (shr_fexp prec emax (Zpos mz) ez loc_Exact) as [mrs1 e1].
  destruct (shr_fexp prec emax _ e1 loc_Exact) as [mrs2 e2].
  destruct (shr_m mrs2); [reflexivity| |reflexivity].
  destruct (e2 <=? emax - prec)%Z; reflexivity.
Qed.

Lemma SFmul_opp_opp (x : spec_float) :
  SF64mul (SFopp x) (SFopp x) = SF64mul x x.
Proof. destruct x as [[]|[]| |[] m e]; reflexivity. Qed.

Lemma SFsub_swap_square (x y : spec_float) :
  SF64mul (SF64sub x y) (SF64sub x y) = SF64mul (SF64sub y x) (SF64sub y x).
Proof.
  destruct x as [sx|sx| |sx mx ex], y as [sy|sy| |sy my ey];
    try (destruct sx, sy; reflexivity); try (destruct sx; reflexivity);
    try (destruct sy; reflexivity); try reflexivity.
  - unfold SF64sub, SFsub. rewrite (Z.min_comm ey ex).
    set (ez := Z.min ex ey).
    set (a := cond_Zopp sx (Zpos (fst (shl_align mx ex ez)))).
    set (b := cond_Zopp sy (Zpos (fst (shl_align my ey ez)))).
    replace (b - a)%Z with (- (a - b))%Z by lia.
    destruct (a - b)%Z as [|d|d]; [reflexivity| |].
    + change (binary_normalize prec emax (Z.pos d) ez false)
        with (binary_round prec emax false d ez).
      change (binary_normalize prec emax (- Z.pos d) ez false)
        with (binary_round prec emax true d ez).
      rewrite (SFopp_round d ez). symmetry. apply SFmul_opp_opp.
    + change (binary_normalize prec emax (Z.neg d) ez false)
        with (binary_round prec emax true d ez).
      change (binary_normalize prec emax (- Z.neg d) ez false)
        with (binary_round prec emax false d ez).
      rewrite (SFopp_round d ez). apply SFmul_opp_opp.
Qed.

Lemma F64_mirrors : Mirrors F64.
Proof.
  constructor. intros a b. cbn [mul sub F64].
  apply FloatAxioms.Prim2SF_inj.
  rewrite !FloatAxioms.mul_spec, !FloatAxioms.sub_spec.
  apply SFsub_swap_square.
Qed.

Lemma XR_mirrors : Mirrors XR.
Proof.
  constructor. intros a b. cbn [mul sub XR].
  rewrite (xsub_swap a b), xmul_opp_opp. reflexivity.
Qed.

Section EitherOrder.

Variable A : Arith.
Hypothesis HO : Ordered A.
Hypothesis HM : Mirrors A.

Variables s1 s2 : Shape A.
Variable n : nat.
Variable thr : Z.

Local Abbreviation number a := (eqb A a a = true).
Local Abbreviation len1 := (computeTotalLength s1).
Local Abbreviation len2 := (computeTotalLength s2).
Local Abbreviation bound := (mul A (of_Z A thr) (of_Z A thr)).

Lemma below_number (d m : num A) : ltb A d m = true -> number d.
Proof. intros H. exact (ord_left HO _ _ (ord_below HO _ _ H)). Qed.

Lemma below_trans (a b c : num A) :
  ltb A a b = true -> ltb A b c = true -> ltb A a c = true.
Proof.
  intros H1 H2. destruct (ltb A a c) eqn:E; [reflexivity|].
  pose proof (ord_total HO a c (below_number _ _ H1)
                (ord_right HO _ _ (ord_below HO _ _ H2)) E) as H3.
  pose proof (ord_trans HO _ _ _ H3 (ord_below HO _ _ H1)) as H4.
  rewrite (ord_strict HO _ _ H2) in H4. discriminate H4.
Qed.

Lemma below_total (d m t : num A) :
  number m -> ltb A d t = true -> ltb A d m = false -> ltb A m t = true.
Proof.
  intros Hm H1 H2. destruct (ltb A m t) eqn:E; [reflexivity|].
  pose proof (ord_total HO d m (below_number _ _ H1) Hm H2) as H3.
  pose proof (ord_total HO m t Hm (ord_right HO _ _ (ord_below HO _ _ H1)) E)
    as H4.
  pose proof (ord_trans HO _ _ _ H4 H3) as H5.
  rewrite (ord_strict HO _ _ H1) in H5. discriminate H5.
Qed.

Lemma sqDist_swap (p q : Point A) : sqDist p q = sqDist q p.
Proof.
  unfold sqDist.
  rewrite (mir_square HM (X p) (X q)), (mir_square HM (Y p) (Y q)).
  reflexivity.
Qed.

Lemma nearestStep_value (a b : Point A) (m : num A) (o : option (Point A))
    (j : Z) :
  sample s2 n j = Ok (Some b) ->
  nearestStep s2 len2 n (Some a) (m, o) j =
  Ok (if ltb A (sqDist a b) m then (sqDist a b, Some b) else (m, o)).
Proof.
  intros Hb. unfold nearestStep. fold (sample s2 n j). rewrite Hb.
  cbn [mbind result_bind deref fst].
  destruct (ltb A (sqDist a b) m); reflexivity.
Qed.

Lemma nearestStep_sampled (ptA : option (Point A))
    (st r : num A * option (Point A)) (j : Z) :
  nearestStep s2 len2 n ptA st j = Ok r ->
  (exists a, ptA = Some a) /\ exists b, sample s2 n j = Ok (Some b).
Proof.
  unfold nearestStep. fold (sample s2 n j).
  destruct (sample s2 n j) as [[b|]|]; cbn [mbind result_bind];
    destruct ptA as [a|]; cbn [deref mbind result_bind]; try discriminate.
  intros _. split; eexists; reflexivity.
Qed.

(** The inner loop ends below the bound exactly when it started there or
    met a sample below it. *)
Lemma nearest_below (a : Point A) (js : list Z) :
  forall (m : num A) (o : option (Point A)),
    number m ->
    (forall j, In j js -> exists b, sample s2 n j = Ok (Some b)) ->
    exists m' o',
      foldM (nearestStep s2 len2 n (Some a)) js (m, o) = Ok (m', o') /\
      number m' /\
      (ltb A m' bound = true <->
       ltb A m bound = true \/
       exists j b, In j js /\ sample s2 n j = Ok (Some b) /\
                   ltb A (sqDist a b) bound = true).
Proof.
  induction js as [|j js IH]; intros m o Hm Hs.
  - exists m, o. split; [reflexivity|]. split; [exact Hm|].
    split; [auto|]. intros [H|(j & b & [] & _)]. exact H.
  - destruct (Hs j (or_introl eq_refl)) as [b Hb].
    cbn [foldM]. rewrite (nearestStep_value a b m o j Hb). cbn [mbind result_bind].
    destruct (ltb A (sqDist a b) m) eqn:Hlt.
    + destruct (IH (sqDist a b) (Some b)) as (m' & o' & Hf & Hm' & Hc).
      { exact (below_number _ _ Hlt). }
      { intros j' Hj'. apply Hs. right. exact Hj'. }
      exists m', o'. split; [exact Hf|]. split; [exact Hm'|]. rewrite Hc.
      split.
      * intros [H|(j' & b' & Hj' & Hb' & H)].
        -- right. exists j, b. split; [left; reflexivity|]. auto.
        -- right. exists j', b'. split; [right; exact Hj'|]. auto.
      * intros [H|(j' & b' & [<-|Hj'] & Hb' & H)].
        -- left. exact (below_trans _ _ _ Hlt H).
        -- left. congruence.
        -- right. exists j', b'. auto.
    + destruct (IH m o) as (m' & o' & Hf & Hm' & Hc).
      { exact Hm. }
      { intros j' Hj'. apply Hs. right. exact Hj'. }
      exists m', o'. split; [exact Hf|]. split; [exact Hm'|]. rewrite Hc.
      split.
      * intros [H|(j' & b' & Hj' & Hb' & H)].
        -- left. exact H.
        -- right. exists j', b'. split; [right; exact Hj'|]. auto.
      * intros [H|(j' & b' & [<-|Hj'] & Hb' & H)].
        -- left. exact H.
        -- left. assert (b' = b) by congruence. subst b'.
           exact (below_total _ _ _ Hm H Hlt).
        -- right. exists j', b'. auto.
Qed.

Lemma nearest_sampled (ptA : option (Point A))
    (r : num A * option (Point A)) :
  nearest s2 len2 n ptA = Ok r ->
  (exists a, ptA = Some a) /\ sampled s2 n.
Proof.
  unfold nearest. intros H. split.
  - destruct (@foldM_elem _ _ _ _ _ _ H 0%Z (upto_zero n)) as (st1 & st2 & Hst).
    exact (proj1 (nearestStep_sampled _ _ _ _ Hst)).
  - intros j Hj.
    destruct (@foldM_elem _ _ _ _ _ _ H j Hj) as (st1 & st2 & Hst).
    exact (proj2 (nearestStep_sampled _ _ _ _ Hst)).
Qed.

(** The step of the outer loop, when it returns: the sample of the first
    shape is a point, every sample of the second shape is, and the list
    either grows by one or the sample has no sample of the second shape
    near it. *)
Lemma borderStep_returns (bp bp' : list (Point A)) (i : Z) :
  borderStep s1 s2 len1 len2 n thr bp i = Ok bp' ->
  sampled s2 n /\
  length bp <= length bp' /\
  exists a, sample s1 n i = Ok (Some a) /\
            (length bp' = length bp -> noneNear s2 n thr a).
Proof.
  unfold borderStep. fold (sample s1 n i).
  destruct (sample s1 n i) as [ptA|]; cbn [mbind result_bind]; [|discriminate].
  destruct (nearest s2 len2 n ptA) as [best|] eqn:Hn;
    cbn [mbind result_bind]; [|discriminate].
  destruct (nearest_sampled _ _ Hn) as [[a ->] Hs].
  destruct (nearest_below a (upto n) (pinf A) None (ord_pinf HO) Hs)
    as (m' & o' & Hf & _ & Hc).
  assert (Hn' : nearest s2 len2 n (Some a) = Ok (m', o')) by exact Hf.
  rewrite Hn' in Hn. injection Hn as <-. cbn [fst snd].
  destruct (ltb A m' bound) eqn:Hm.
  - cbn [deref mbind result_bind].
    destruct o' as [b|]; cbn [deref mbind result_bind]; [|discriminate].
    intros H. injection H as <-. split; [exact Hs|].
    rewrite length_app. simpl. split; [lia|].
    exists a. split; [reflexivity|]. intros; lia.
  - intros H. injection H as <-. split; [exact Hs|]. split; [lia|].
    exists a. split; [reflexivity|]. intros _ j b Hj Hb.
    destruct (ltb A (sqDist a b) bound) eqn:Hd; [|reflexivity].
    assert (Ht : false = true).
    { apply Hc. right. exists j, b. auto. }
    discriminate Ht.
Qed.

Lemma borderStep_keeps (bp : list (Point A)) (i : Z) (a : Point A) :
  sample s1 n i = Ok (Some a) -> sampled s2 n -> noneNear s2 n thr a ->
  borderStep s1 s2 len1 len2 n thr bp i = Ok bp.
Proof.
  intros Ha Hs Hfar. unfold borderStep. fold (sample s1 n i). rewrite Ha.
  cbn [mbind result_bind].
  destruct (nearest_below a (upto n) (pinf A) None (ord_pinf HO) Hs)
    as (m' & o' & Hf & _ & Hc).
  assert (Hn : nearest s2 len2 n (Some a) = Ok (m', o')) by exact Hf.
  rewrite Hn. cbn [mbind result_bind fst snd].
  destruct (ltb A m' bound) eqn:Hm; [|reflexivity].
  destruct (proj1 Hc eq_refl) as [Hi|(j & b & Hj & Hb & Hd)].
  - rewrite (ord_top HO) in Hi. discriminate Hi.
  - rewrite (Hfar j b Hj Hb) in Hd. discriminate.
Qed.

Lemma borderFold_returns (l : list Z) :
  forall bp bp' : list (Point A),
    foldM (borderStep s1 s2 len1 len2 n thr) l bp = Ok bp' ->
    length bp <= length bp' /\
    (l <> [] -> sampled s2 n) /\
    (length bp' = length bp ->
     forall i, In i l ->
       exists a, sample s1 n i = Ok (Some a) /\ noneNear s2 n thr a).
Proof.
  induction l as [|i l IH]; intros bp bp' H; cbn [foldM] in H.
  - injection H as <-. split; [lia|]. split; [congruence|]. intros _ i [].
  - destruct (borderStep s1 s2 len1 len2 n thr bp i) as [bp1|] eqn:Hst;
      cbn [mbind result_bind] in H; [|discriminate].
    destruct (borderStep_returns _ _ _ Hst) as (Hs & Hle1 & a & Ha & Hfar).
    destruct (IH bp1 bp' H) as (Hle2 & _ & Hall).
    split; [lia|]. split; [intros _; exact Hs|].
    intros Hlen j [<-|Hj].
    + exists a. split; [exact Ha|]. apply Hfar. lia.
    + apply Hall; [lia|exact Hj].
Qed.

Lemma borderFold_keeps (l : list Z) (bp : list (Point A)) :
  sampled s2 n ->
  (forall i, In i l ->
     exists a, sample s1 n i = Ok (Some a) /\ noneNear s2 n thr a) ->
  foldM (borderStep s1 s2 len1 len2 n thr) l bp = Ok bp.
Proof.
  intros Hs. induction l as [|i l IH]; intros Hall; cbn [foldM].
  - reflexivity.
  - destruct (Hall i (or_introl eq_refl)) as (a & Ha & Hfar).
    rewrite (borderStep_keeps bp i a Ha Hs Hfar). cbn [mbind result_bind].
    apply IH. intros j Hj. apply Hall. right. exact Hj.
Qed.

End EitherOrder.

Lemma no_candidate_either_order (A : Arith) (HO : Ordered A) (HM : Mirrors A)
    (sA sB : Shape A) :
  borderPoints sA sB = Ok [] -> borderPoints sB sA = Ok [].
Proof.
  intros H. unfold borderPoints in *.
  destruct (borderFold_returns A HO sA sB N_offline threshold_offline _ _ _ H)
    as (_ & Hs & Hall).
  specialize (Hs ltac:(discriminate)). specialize (Hall eq_refl).
  apply (borderFold_keeps A HO).
  - intros i Hi. destruct (Hall i Hi) as (a & Ha & _). exists a. exact Ha.
  - intros j Hj. destruct (Hs j Hj) as [b Hb]. exists b. split; [exact Hb|].
    intros i a Hi Ha. destruct (Hall i Hi) as (a' & Ha' & Hfar).
    assert (a' = a) by congruence. subst a'.
    rewrite (sqDist_swap A HM). apply (Hfar j b Hj Hb).
Qed.

(** C8, as the code has it: when no candidate is recorded for a pair of
    shapes, none is recorded for the swapped pair either, and each of the
    two calls returns the fallback point of its own argument order.  This
    holds in every arithmetic whose comparisons are an order and in which
    the square of a difference does not depend on its direction, binary64
    and exact arithmetic among them.  In exact arithmetic the two fallback
    points are the same point, the midpoint of the centres of the two
    bounding boxes.  In binary64 they can differ in the last place: for
    the strokes from (0,0) to (0.1,0) and from (20,0) to (20.2,0) the calls
    return x = 10.075 in one order and the next double above it in the
    other. *)
Theorem C8_symmetric_without_candidates :
  (forall (A : Arith) (HO : Ordered A) (HM : Mirrors A) (sA sB : Shape A),
      borderPoints sA sB = Ok [] ->
      borderPoints sB sA = Ok [] /\
      computeBorderMidpointFromPaths sA sB = Ok (Some (bboxFallback sA sB)) /\
      computeBorderMidpointFromPaths sB sA = Ok (Some (bboxFallback sB sA))) /\
  (Ordered F64 /\ Mirrors F64) /\
  (Ordered XR /\ Mirrors XR) /\
  (forall sA sB : Shape XR,
      borderPoints sA sB = Ok [] ->
      computeBorderMidpointFromPaths sA sB
      = computeBorderMidpointFromPaths sB sA /\
      computeBorderMidpointFromPaths sA sB
      = Ok (Some (midpoint (bboxCenter (computeBBox sA))
                           (bboxCenter (computeBBox sB))))) /\
  (parsePath F64 "M0,0L0.1,0" = Ok strokeWest /\
   parsePath F64 "M20,0L20.2,0" = Ok strokeEast /\
   borderPoints strokeWest strokeEast = Ok [] /\
   computeBorderMidpointFromPaths strokeWest strokeEast
   = Ok (Some (pt F64 (of_decimal F64 false 10075 (-3)) 0%float)) /\
   computeBorderMidpointFromPaths strokeEast strokeWest
   = Ok (Some (pt F64 (next_up (of_decimal F64 false 10075 (-3))) 0%float)) /\
   PrimFloat.ltb (of_decimal F64 false 10075 (-3))
                 (next_up (of_decimal F64 false 10075 (-3))) = true).
Proof.
  assert (G : forall (A : Arith) (HO : Ordered A) (HM : Mirrors A)
                     (sA sB : Shape A),
      borderPoints sA sB = Ok [] ->
      borderPoints sB sA = Ok [] /\
      computeBorderMidpointFromPaths sA sB = Ok (Some (bboxFallback sA sB)) /\
      computeBorderMidpointFromPaths sB sA = Ok (Some (bboxFallback sB sA))).
  { intros A HO HM sA sB H.
    pose proof (no_candidate_either_order A HO HM sA sB H) as H'.
    split; [exact H'|].
    unfold computeBorderMidpointFromPaths. rewrite H, H'.
    split; reflexivity. }
  split; [exact G|].
  split; [split; [exact F64_ordered|exact F64_mirrors]|].
  split; [split; [exact XR_ordered|exact XR_mirrors]|].
  split.
  - intros sA sB H.
    destruct (G XR XR_ordered XR_mirrors sA sB H) as (_ & H1 & H2).
    rewrite H1, H2. split.
    + rewrite (bboxFallback_sym sA sB). reflexivity.
    + apply (f_equal (fun p => Ok (Some p))).
      unfold bboxFallback, midpoint, bboxCenter, X, Y, pt.
      cbn [px py ToNumber add div of_Z XR].
      rewrite <- !xadd_assoc. reflexivity.
  - split; [vm_refl|]. split; [vm_refl|]. split; [vm_refl|].
    split; [vm_refl|]. split; [vm_refl|]. vm_compute. reflexivity.
Qed.

Lemma C8_witness :
  borderPoints squareB squareA = Ok [] /\
  computeBorderMidpointFromPaths squareA squareB
  = Ok (Some (bboxFallback squareA squareB)) /\
  computeBorderMidpointFromPaths squareB squareA
  = Ok (Some (bboxFallback squareB squareA)).
Proof.
  apply (proj1 C8_symmetric_without_candidates F64 F64_ordered F64_mirrors
           squareA squareB).
  vm_refl.
Defined.

(** Two parallel strokes: along the longer one the candidates run from
    x = 0 to x = 104 and the middle one is (52, 0.5); along the shorter one
    they run from 0 to 100 and the middle one is (50, 0.5). *)
Lemma C8_counterexample :
  computeBorderMidpointFromPaths strokeLong strokeHalf
    = Ok (Some (pt F64 52 0.5))%float /\
  computeBorderMidpointFromPaths strokeHalf strokeLong
    = Ok (Some (pt F64 50 0.5))%float /\
  (pt F64 52 0.5 <> pt F64 50 0.5)%float.
Proof.
  split; [vm_refl|]. split; [vm_refl|].
  intros H.
  apply (f_equal (fun p : Point F64 => PrimFloat.eqb (X p) 50%float)) in H.
  vm_compute in H. discriminate H.
Qed.
